(** * Release asset synchronisation (src/asset.js)

    A shallow embedding of the asset engine of the release action:
    expansion of asset descriptors ([findAsset], [normalizeAsset]),
    de-duplication ([findAssets]), diffing against the assets already on
    the release ([diffAssets]), the concurrent upload / update operations
    ([uploadAsset], [deleteAsset], [updateAsset]) and the aggregation of
    their outcomes ([analyzeResults], [compareApiAsset],
    [modifyReleaseAssets]).

    Strings are [string]; JavaScript arrays are lists; the [Set] of names
    seen so far is a [gset string]; promises are finite trees of
    suspension points ([Task]) that a scheduler resumes one response at a
    time. *)

From stdpp Require Import base option list gmap strings sorting.
From Stdlib Require Import ZArith.

Open Scope string_scope.
Open Scope list_scope.
Open Scope nat_scope.

Set Warnings "-clear-no-such-hyp".

(** ** Data model *)

(** One entry of [config.assets]: [{ path, name, label, optional }]. *)
Record AssetConfig : Type := mkAssetConfig {
  cfg_path : string;
  cfg_name : option string;
  cfg_label : option string;
  cfg_optional : bool
}.

(** The argument of [normalizeAsset]: [{ label, name, path }] where
    [label] and [name] may be [undefined]. *)
Record FoundAsset : Type := mkFoundAsset {
  found_label : option string;
  found_name : option string;
  found_path : string
}.

(** The value [normalizeAsset] returns: [{ label, name, path }]. *)
Record DesiredAsset : Type := mkDesiredAsset {
  desired_label : string;
  desired_name : string;
  desired_path : string
}.

(** The asset object as the release API returns it. *)
Record ApiAsset : Type := mkApiAsset {
  raw_url : string;
  raw_browser_download_url : string;
  raw_id : Z;
  raw_node_id : string;
  raw_name : string;
  raw_label : string;
  raw_state : string;
  raw_content_type : string;
  raw_size : Z;
  raw_download_count : Z;
  raw_created_at : string;
  raw_updated_at : string
}.

(** The asset object [normalizeApiAsset] returns; also the shape of the
    entries of [release.assets]. *)
Record ReleaseAsset : Type := mkReleaseAsset {
  apiUrl : string;
  downloadUrl : string;
  assetId : Z;
  nodeId : string;
  assetName : string;
  assetLabel : string;
  assetState : string;
  contentType : string;
  assetSize : Z;
  downloadCount : Z;
  createdAt : string;
  updatedAt : string
}.

(** The argument of [request]: a POST to [release.upload_url]. *)
Record UploadRequest : Type := mkUploadRequest {
  req_url : string;
  req_name : string;
  req_data : string;
  req_label : string;
  req_content_type : option string
}.

(** What an injected capability rejects with. *)
Definition Reason : Type := string.

(** The errors of the engine: the [Error] thrown by [findAsset], and the
    rejections of [readFile], [request] and [deleteReleaseAsset]. *)
Inductive Error : Type :=
| MandatoryArtifactNotFound (pattern : string)
| ArtifactReadFailure (reason : Reason)
| RemoteOperationFailure (reason : Reason).

(** [{ status, value, reason }] as [Promise.allSettled] reports it. *)
Inductive Settled : Type :=
| Fulfilled (value : ReleaseAsset)
| Rejected (reason : Error).

Inductive BatchKind : Type := UploadBatch | UpdateBatch.

(** The texts handed to [info], [warning] and [error], kept as data: every
    constructor is one template of the source with the values it
    interpolates. *)
Inductive Message : Type :=
| MsgNoAssetsToModify
| MsgDiffCounts (toUpload toUpdate : nat)
| MsgDeleting (name : string) (asset_id : Z)
| MsgUploading (name : string) (content_type : option string)
| MsgUploaded (name : string) (normalized : ReleaseAsset)
| MsgOptionalNotFound (pattern : string)
| MsgFoundMultipleTimes (name : string)
| MsgResults (kind : BatchKind) (successCount failureCount : nat) (colon : bool)
| MsgBlank.

(** Everything observable a pass does, in order. *)
Inductive Event : Type :=
| Info (m : Message)
| Warning (m : Message)
| ErrorLog (reason : Error)
| GroupStart (title : string)
| GroupEnd
| InvokeReadFile (path : string)
| InvokeDeleteReleaseAsset (owner repo : string) (asset_id : Z)
| InvokeRequest (req : UploadRequest).

(** The function arguments that are plain data. *)
Record Args : Type := mkArgs {
  config_assets : list AssetConfig;
  owner : string;
  repo : string;
  release_upload_url : string;
  release_assets : list ReleaseAsset
}.

(** The platform the module imports or is handed: [basename] (path),
    [toLowerCase] and [localeCompare] (String.prototype), [lookup]
    (mime-types, [None] for its [false]), the glob and [stat] view of the
    working tree, and the three operations whose rejection the engine
    handles, as transitions of the outside world. The glob and [stat] are
    a total view of a readable tree: their own I/O failures are not
    modelled. *)
Class Platform : Type := mkPlatform {
  basename : string → string;
  toLowerCase : string → string;
  localeCompare : string → string → Z;
  mimeLookup : string → option string;
  globGenerator : string → list string;
  isDirectory : string → bool;
  World : Type;
  readFile : string → World → (Reason + string) * World;
  deleteReleaseAsset : string → string → Z → World → (Reason + unit) * World;
  request : UploadRequest → World → (Reason + ApiAsset) * World
}.

(** *** A small platform to evaluate the engine on

    Code-unit versions of the built-ins over ASCII names, a working tree
    given as a table, and a release host that numbers the assets it
    accepts. *)

Fixpoint lastSegment (acc s : string) : string :=
  match s with
  | EmptyString => acc
  | String c s' =>
      if Ascii.eqb c (Ascii.ascii_of_nat 47) then lastSegment EmptyString s'
      else lastSegment (acc +:+ String c EmptyString) s'
  end.

Definition posixBasename (path : string) : string := lastSegment EmptyString path.

Definition lowerAscii (c : Ascii.ascii) : Ascii.ascii :=
  let n := Ascii.nat_of_ascii c in
  if (65 <=? n) && (n <=? 90) then Ascii.ascii_of_nat (n + 32) else c.

Fixpoint asciiToLowerCase (s : string) : string :=
  match s with
  | EmptyString => EmptyString
  | String c s' => String (lowerAscii c) (asciiToLowerCase s')
  end.

Definition codeUnitCompare (a b : string) : Z :=
  match String.compare a b with
  | Lt => (-1)%Z
  | Eq => 0%Z
  | Gt => 1%Z
  end.

Definition demoApiAsset (asset_id : Z) (req : UploadRequest) : ApiAsset :=
  {| raw_url := "https://api.example.org/assets";
     raw_browser_download_url := "https://example.org/download";
     raw_id := asset_id;
     raw_node_id := "node";
     raw_name := req_name req;
     raw_label := req_label req;
     raw_state := "uploaded";
     raw_content_type := default "application/octet-stream" (req_content_type req);
     raw_size := Z.of_nat (String.length (req_data req));
     raw_download_count := 0%Z;
     raw_created_at := "2024-01-01T00:00:00Z";
     raw_updated_at := "2024-01-01T00:00:00Z" |}.

(** The world counts the uploads the host accepted. A file named
    [unreadable] cannot be read, an asset named [rejected] is refused,
    asset 13 cannot be deleted; an accepted asset gets an id made from the
    length of its name. *)
Definition demoPlatform (tree : string → list string) (dirs : string → bool)
  : Platform :=
  {| basename := posixBasename;
     toLowerCase := asciiToLowerCase;
     localeCompare := codeUnitCompare;
     mimeLookup := λ _, None;
     globGenerator := tree;
     isDirectory := dirs;
     World := Z;
     readFile := λ path w,
       if String.eqb (posixBasename path) "unreadable" then (inl "EACCES", w)
       else (inr path, w);
     deleteReleaseAsset := λ _ _ asset_id w,
       if (asset_id =? 13)%Z then (inl "HTTP 403", w) else (inr tt, w);
     request := λ req w,
       if String.eqb (req_name req) "rejected" then (inl "HTTP 422", w)
       else (inr (demoApiAsset (100 + Z.of_nat (String.length (req_name req))) req),
             (w + 1)%Z) |}.

(** The tree of the scenario: [a.txt], [b.1.json], [b.2.json] and a
    directory [dist]. *)
Definition demoTree (pattern : string) : list string :=
  if String.eqb pattern "a.txt" then ["a.txt"]
  else if String.eqb pattern "b.*.json" then ["b.1.json"; "b.2.json"]
  else if String.eqb pattern "b.1.json" then ["b.1.json"]
  else if String.eqb pattern "b.2.json" then ["b.2.json"]
  else if String.eqb pattern "dist*" then ["dist"]
  else if String.eqb pattern "*" then ["a.txt"; "b.1.json"; "b.2.json"; "dist"]
  else [].

Definition demoDirs (path : string) : bool := String.eqb path "dist".

Definition demoRemote (asset_id : Z) (name : string) : ReleaseAsset :=
  {| apiUrl := "https://api.example.org/assets";
     downloadUrl := "https://example.org/download";
     assetId := asset_id;
     nodeId := "node";
     assetName := name;
     assetLabel := EmptyString;
     assetState := "uploaded";
     contentType := "application/octet-stream";
     assetSize := 0%Z;
     downloadCount := 0%Z;
     createdAt := "2024-01-01T00:00:00Z";
     updatedAt := "2024-01-01T00:00:00Z" |}.

Definition demo : Platform := demoPlatform demoTree demoDirs.

(** The scenario: [a.txt] is on the release already, [a.txt] and the
    [b.*.json] family are desired, and an optional pattern matches
    nothing. *)
Definition demoArgs : Args :=
  {| config_assets :=
       [ mkAssetConfig "a.txt" None None false;
         mkAssetConfig "b.*.json" (Some "bundle.json") (Some "Bundle") false;
         mkAssetConfig "c.txt" None None true ];
     owner := "eloquent";
     repo := "github-release-action";
     release_upload_url := "https://uploads.example.org/assets";
     release_assets := [demoRemote 7 "a.txt"] |}.

(** The same with a mandatory pattern that only matches a directory. *)
Definition demoArgsMissing : Args :=
  {| config_assets :=
       [ mkAssetConfig "a.txt" None None false;
         mkAssetConfig "dist*" None None false ];
     owner := "eloquent";
     repo := "github-release-action";
     release_upload_url := "https://uploads.example.org/assets";
     release_assets := [demoRemote 7 "a.txt"] |}.

(** Nothing on the release and nothing to find. *)
Definition demoArgsEmpty : Args :=
  {| config_assets := [ mkAssetConfig "c.txt" None None true ];
     owner := "eloquent";
     repo := "github-release-action";
     release_upload_url := "https://uploads.example.org/assets";
     release_assets := [] |}.

(** ** Synchronous code: a log and an exception *)

Definition Sync (A : Type) : Type := list Event * (Error + A).

Definition throw {A} (e : Error) : Sync A := ([], inl e).
Definition emit (ev : Event) : Sync unit := ([ev], inr tt).

#[global] Instance sync_ret : MRet Sync := λ A a, ([], inr a).
#[global] Instance sync_bind : MBind Sync := λ A B f m,
  match m with
  | (evs, inl e) => (evs, inl e)
  | (evs, inr a) => let '(evs', r) := f a in (evs ++ evs', r)
  end.

(** ** Promises: trees of suspension points *)

Inductive Task (A : Type) : Type :=
| Resolve (value : A)
| Reject (reason : Error)
| Say (m : Message) (next : Task A)
| AwaitReadFile (path : string) (k : Reason + string → Task A)
| AwaitDelete (owner repo : string) (asset_id : Z) (k : Reason + unit → Task A)
| AwaitRequest (req : UploadRequest) (k : Reason + ApiAsset → Task A).
Arguments Resolve {A} value.
Arguments Reject {A} reason.
Arguments Say {A} m next.
Arguments AwaitReadFile {A} path k.
Arguments AwaitDelete {A} owner repo asset_id k.
Arguments AwaitRequest {A} req k.

(** [await t] followed by [f]. *)
Fixpoint andThen {A B} (t : Task A) (f : A → Task B) : Task B :=
  match t with
  | Resolve a => f a
  | Reject e => Reject e
  | Say m next => Say m (andThen next f)
  | AwaitReadFile path k => AwaitReadFile path (λ r, andThen (k r) f)
  | AwaitDelete o r i k => AwaitDelete o r i (λ x, andThen (k x) f)
  | AwaitRequest req k => AwaitRequest req (λ x, andThen (k x) f)
  end.

(** ** Array.prototype.sort: stable, driven by the sign of the comparator

    The algorithm is left to the implementation; for a consistent
    comparator every sorted and stable rearrangement is the list computed
    here ([sortBy_is_the_stable_sort] below). *)

Fixpoint insertBy {A} (cmp : A → A → Z) (x : A) (l : list A) : list A :=
  match l with
  | [] => [x]
  | y :: l' => if bool_decide (cmp x y ≤ 0)%Z then x :: l else y :: insertBy cmp x l'
  end.

Definition sortBy {A} (cmp : A → A → Z) (l : list A) : list A :=
  foldr (insertBy cmp) [] l.

(** A comparator the sort can rely on (ECMA-262, consistent comparator):
    the sign is antisymmetric and "not after" is transitive. *)
Definition ConsistentComparator {A} (cmp : A → A → Z) : Prop :=
  (∀ a b, (cmp a b < 0)%Z ↔ (0 < cmp b a)%Z) ∧
  (∀ a b c, (cmp a b ≤ 0)%Z → (cmp b c ≤ 0)%Z → (cmp a c ≤ 0)%Z).

(** Every element is "not after" every later one. *)
Fixpoint sortedBy {A} (cmp : A → A → Z) (l : list A) : Prop :=
  match l with
  | [] => True
  | x :: l' => Forall (λ y, (cmp x y ≤ 0)%Z) l' ∧ sortedBy cmp l'
  end.

(** ** The engine *)

Section Engine.
Context `{Platform}.

Definition info (m : Message) : Sync unit := emit (Info m).
Definition warning (m : Message) : Sync unit := emit (Warning m).

(** [const { label = "", path, name } = asset], then
    [name: name || basename(path)]: the default of [label] applies to
    [undefined] only, the one of [name] to every falsy value, the empty
    string among them. *)
Definition normalizeAsset (asset : FoundAsset) : DesiredAsset :=
  let label := default EmptyString (found_label asset) in
  let path := found_path asset in
  let name := found_name asset in
  {| desired_label := label;
     desired_name :=
       match name with
       | Some n => if bool_decide (n = EmptyString) then basename path else n
       | None => basename path
       end;
     desired_path := path |}.

(** The paths the glob yields that [stat] does not report as directories,
    each as [{ path }]. *)
Definition matchedPaths (pattern : string) : list string :=
  List.filter (λ path, negb (isDirectory path)) (globGenerator pattern).

Definition globFiles (pattern : string) : list FoundAsset :=
  (λ path, mkFoundAsset None None path) <$> matchedPaths pattern.

Definition findAsset (asset : AssetConfig) : Sync (list DesiredAsset) :=
  let pattern := cfg_path asset in
  let isOptional := cfg_optional asset in
  let assets := globFiles pattern in
  if bool_decide (length assets < 1) then
    if isOptional then
      info (MsgOptionalNotFound pattern);; mret []
    else throw (MandatoryArtifactNotFound pattern)
  else if bool_decide (1 < length assets) then mret (normalizeAsset <$> assets)
  else
    match assets with
    | a :: _ =>
        mret [normalizeAsset
                {| found_label := cfg_label asset;
                   found_name := cfg_name asset;
                   found_path := found_path a |}]
    | [] => mret [] (* not reached: [assets] has one element here *)
    end.

(** [for (const asset of assets) found.push(...(await findAsset(info, asset)))] *)
Fixpoint findEach (found : list DesiredAsset) (assets : list AssetConfig)
  : Sync (list DesiredAsset) :=
  match assets with
  | [] => mret found
  | asset :: rest => r ← findAsset asset; findEach (found ++ r) rest
  end.

(** [found.filter(...)] with the set [seen] that its callback updates. *)
Fixpoint filterSeen (seen : gset string) (found : list DesiredAsset)
  : Sync (list DesiredAsset) :=
  match found with
  | [] => mret []
  | a :: rest =>
      let name := desired_name a in
      let lowercaseName := toLowerCase name in
      if bool_decide (lowercaseName ∉ seen) then
        kept ← filterSeen ({[lowercaseName]} ∪ seen) rest; mret (a :: kept)
      else
        warning (MsgFoundMultipleTimes name);; filterSeen seen rest
  end.

(** The second half of [findAssets]: [const seen = new Set()] and the
    filter. *)
Definition dedupe (found : list DesiredAsset) : Sync (list DesiredAsset) :=
  filterSeen ∅ found.

Definition findAssets (assets : list AssetConfig) : Sync (list DesiredAsset) :=
  found ← findEach [] assets; dedupe found.

(** [{ toUpdate, toUpload }] *)
Record Diff : Type := mkDiff {
  toUpdate : list (ReleaseAsset * DesiredAsset);
  toUpload : list DesiredAsset
}.

(** [existingAssets.find((existing) => existing.name === desired.name)] *)
Definition findExisting (existingAssets : list ReleaseAsset) (desired : DesiredAsset)
  : option ReleaseAsset :=
  List.find (λ existing, bool_decide (assetName existing = desired_name desired))
            existingAssets.

(** The body of the loop of [diffAssets]. *)
Definition placeDesired (existingAssets : list ReleaseAsset) (acc : Diff)
    (desired : DesiredAsset) : Diff :=
  match findExisting existingAssets desired with
  | None => {| toUpdate := toUpdate acc; toUpload := toUpload acc ++ [desired] |}
  | Some existing =>
      {| toUpdate := toUpdate acc ++ [(existing, desired)];
         toUpload := toUpload acc |}
  end.

Definition diffAssets (existingAssets : list ReleaseAsset)
    (desiredAssets : list DesiredAsset) : Diff :=
  foldl (placeDesired existingAssets) {| toUpdate := []; toUpload := [] |}
        desiredAssets.

(** The object [analyzeResults] returns. *)
Record Analysis : Type := mkAnalysis {
  isSuccess : bool;
  successCount : nat;
  assets : list ReleaseAsset;
  failureCount : nat;
  failureReasons : list Error
}.

(** The body of the loop of [analyzeResults]. *)
Definition countResult (acc : Analysis) (result : Settled) : Analysis :=
  match result with
  | Fulfilled value =>
      {| isSuccess := isSuccess acc;
         successCount := S (successCount acc);
         assets := assets acc ++ [value];
         failureCount := failureCount acc;
         failureReasons := failureReasons acc |}
  | Rejected reason =>
      {| isSuccess := false;
         successCount := successCount acc;
         assets := assets acc;
         failureCount := S (failureCount acc);
         failureReasons := failureReasons acc ++ [reason] |}
  end.

Definition analyzeResults (results : list Settled) : Analysis :=
  foldl countResult
        {| isSuccess := true; successCount := 0; assets := [];
           failureCount := 0; failureReasons := [] |} results.

Definition logResults (result : Analysis) (messageTemplate : BatchKind) : list Event :=
  let message := MsgResults messageTemplate (successCount result) (failureCount result) in
  if bool_decide (0 < failureCount result) then
    [Info (message true)] ++ (ErrorLog <$> failureReasons result) ++ [Info MsgBlank]
  else [Info (message false)].

Definition normalizeApiAsset (apiAsset : ApiAsset) : ReleaseAsset :=
  {| apiUrl := raw_url apiAsset;
     downloadUrl := raw_browser_download_url apiAsset;
     assetId := raw_id apiAsset;
     nodeId := raw_node_id apiAsset;
     assetName := raw_name apiAsset;
     assetLabel := raw_label apiAsset;
     assetState := raw_state apiAsset;
     contentType := raw_content_type apiAsset;
     assetSize := raw_size apiAsset;
     downloadCount := raw_download_count apiAsset;
     createdAt := raw_created_at apiAsset;
     updatedAt := raw_updated_at apiAsset |}.

Definition compareApiAsset (a b : ReleaseAsset) : Z :=
  localeCompare (assetName a) (assetName b).

(** *** The operations of [modifyReleaseAssets] *)

Definition uploadAsset (args : Args) (desired : DesiredAsset) : Task ReleaseAsset :=
  let url := release_upload_url args in
  let label := desired_label desired in
  let name := desired_name desired in
  let path := desired_path desired in
  let contentType := mimeLookup path in
  AwaitReadFile path (λ r,
    match r with
    | inl reason => Reject (ArtifactReadFailure reason)
    | inr data =>
        Say (MsgUploading (desired_name desired) contentType)
          (AwaitRequest
             {| req_url := url; req_name := name; req_data := data;
                req_label := label; req_content_type := contentType |}
             (λ r,
                match r with
                | inl reason => Reject (RemoteOperationFailure reason)
                | inr apiAsset =>
                    let normalized := normalizeApiAsset apiAsset in
                    Say (MsgUploaded (desired_name desired) normalized)
                      (Resolve normalized)
                end))
    end).

Definition deleteAsset (args : Args) (existing : ReleaseAsset) : Task unit :=
  Say (MsgDeleting (assetName existing) (assetId existing))
    (AwaitDelete (owner args) (repo args) (assetId existing) (λ r,
       match r with
       | inl reason => Reject (RemoteOperationFailure reason)
       | inr _ => Resolve tt
       end)).

Definition updateAsset (args : Args) (existing : ReleaseAsset) (desired : DesiredAsset)
  : Task ReleaseAsset :=
  andThen (deleteAsset args existing) (λ _, uploadAsset args desired).

(** *** Running promises

    An async function runs synchronously up to its next [await]; there it
    has issued the call it waits for. *)
Fixpoint untilAwait {A} (t : Task A) : list Event * Task A :=
  match t with
  | Say m next => let '(evs, t') := untilAwait next in (Info m :: evs, t')
  | AwaitReadFile path _ => ([InvokeReadFile path], t)
  | AwaitDelete o r i _ => ([InvokeDeleteReleaseAsset o r i], t)
  | AwaitRequest req _ => ([InvokeRequest req], t)
  | Resolve _ | Reject _ => ([], t)
  end.

(** The call a suspended promise waits for completes: the world answers
    and the continuation is what is left to run. *)
Definition respond {A} (t : Task A) (w : World) : option (Task A * World) :=
  match t with
  | AwaitReadFile path k => let '(r, w') := readFile path w in Some (k r, w')
  | AwaitDelete o r i k =>
      let '(x, w') := deleteReleaseAsset o r i w in Some (k x, w')
  | AwaitRequest req k => let '(x, w') := request req w in Some (k x, w')
  | Resolve _ | Reject _ | Say _ _ => None
  end.

(** One promise on its own, from its call to its settlement. *)
Fixpoint run {A} (t : Task A) (w : World) : list Event * (Error + A) * World :=
  match t with
  | Resolve a => ([], inr a, w)
  | Reject e => ([], inl e, w)
  | Say m next => let '(evs, r, w') := run next w in (Info m :: evs, r, w')
  | AwaitReadFile path k =>
      let '(x, w1) := readFile path w in
      let '(evs, r, w2) := run (k x) w1 in (InvokeReadFile path :: evs, r, w2)
  | AwaitDelete o rp i k =>
      let '(x, w1) := deleteReleaseAsset o rp i w in
      let '(evs, r, w2) := run (k x) w1 in
      (InvokeDeleteReleaseAsset o rp i :: evs, r, w2)
  | AwaitRequest req k =>
      let '(x, w1) := request req w in
      let '(evs, r, w2) := run (k x) w1 in (InvokeRequest req :: evs, r, w2)
  end.

(** The promises in flight, the world and the log so far. *)
Record Exec (A : Type) : Type := mkExec {
  inFlight : list (Task A);
  world : World;
  trace : list Event
}.
Arguments mkExec {A} inFlight world trace.
Arguments inFlight {A} e.
Arguments world {A} e.
Arguments trace {A} e.

(** [tasks.map(f)]: every promise is started, in order, before any call
    completes. *)
Fixpoint startAll {A} (tasks : list (Task A)) : list Event * list (Task A) :=
  match tasks with
  | [] => ([], [])
  | t :: rest =>
      let '(evs, t') := untilAwait t in
      let '(evs', rest') := startAll rest in (evs ++ evs', t' :: rest')
  end.

(** The call of promise [i] completes next. A settled or missing slot
    leaves the state as it is. *)
Definition step {A} (st : Exec A) (i : nat) : Exec A :=
  match inFlight st !! i with
  | Some t =>
      match respond t (world st) with
      | Some (t', w') =>
          let '(evs, t'') := untilAwait t' in
          {| inFlight := <[i := t'']> (inFlight st); world := w';
             trace := trace st ++ evs |}
      | None => st
      end
  | None => st
  end.

(** A suspended promise runs to its settlement with nothing in between. *)
Definition finish {A} (t : Task A) (w : World) : list Event * (Error + A) * World :=
  match respond t w with
  | Some (t', w') => run t' w'
  | None => run t w
  end.

(** Whatever is still in flight settles, slot by slot. *)
Fixpoint drain {A} (tasks : list (Task A)) (w : World)
  : list Event * list (Error + A) * World :=
  match tasks with
  | [] => ([], [], w)
  | t :: rest =>
      let '(evs, r, w1) := finish t w in
      let '(evs', rs, w2) := drain rest w1 in (evs ++ evs', r :: rs, w2)
  end.

Definition settle (r : Error + ReleaseAsset) : Settled :=
  match r with
  | inr value => Fulfilled value
  | inl reason => Rejected reason
  end.

(** [Promise.allSettled] over promises whose calls complete in the order
    [schedule] lists their slots: the result keeps the order of the
    promises, not the order of completion. *)
Definition allSettled (schedule : list nat) (tasks : list (Task ReleaseAsset))
    (w : World) : list Event * list Settled * World :=
  let '(evs0, parked) := startAll tasks in
  let st := foldl step {| inFlight := parked; world := w; trace := evs0 |} schedule in
  let '(evs1, rs, w') := drain (inFlight st) (world st) in
  (trace st ++ evs1, settle <$> rs, w').

(** Lines 39-60 without the logging: the verdict and the sorted list. *)
Definition aggregate (uploadResults updateResults : list Settled)
  : bool * list ReleaseAsset :=
  let uploadResult := analyzeResults uploadResults in
  let updateResult := analyzeResults updateResults in
  let success := isSuccess uploadResult && isSuccess updateResult in
  let sortedAssets :=
    sortBy compareApiAsset (assets uploadResult ++ assets updateResult) in
  (success, sortedAssets).

Definition modifyReleaseAssets (args : Args) (schedule : list nat) (w : World)
  : list Event * (Error + bool * list ReleaseAsset) * World :=
  let existingAssets := release_assets args in
  match findAssets (config_assets args) with
  | (evs, inl e) => (evs, inl e, w)
  | (evs, inr desiredAssets) =>
      if bool_decide (length existingAssets < 1)
         && bool_decide (length desiredAssets < 1) then
        (evs ++ [Info MsgNoAssetsToModify], inr (true, []), w)
      else
        let d := diffAssets existingAssets desiredAssets in
        let uploads := uploadAsset args <$> toUpload d in
        let updates :=
          (λ p, updateAsset args (fst p) (snd p)) <$> toUpdate d in
        let '(evs', results, w') := allSettled schedule (uploads ++ updates) w in
        let uploadResults := take (length uploads) results in
        let updateResults := drop (length uploads) results in
        (evs
           ++ [GroupStart "Modifying release assets";
               Info (MsgDiffCounts (length (toUpload d)) (length (toUpdate d)))]
           ++ evs'
           ++ logResults (analyzeResults uploadResults) UploadBatch
           ++ logResults (analyzeResults updateResults) UpdateBatch
           ++ [GroupEnd],
         inr (aggregate uploadResults updateResults), w')
  end.

End Engine.

Arguments mkExec {_ _} inFlight world trace.
Arguments inFlight {_ _} e.
Arguments world {_ _} e.
Arguments trace {_ _} e.

(** ** Vocabulary of the statements *)

Definition fulfilledValue (result : Settled) : option ReleaseAsset :=
  match result with
  | Fulfilled value => Some value
  | Rejected _ => None
  end.

Definition rejectionReason (result : Settled) : option Error :=
  match result with
  | Fulfilled _ => None
  | Rejected reason => Some reason
  end.

(** The values of the fulfilled outcomes of a batch, in batch order. *)
Definition fulfilledValues (results : list Settled) : list ReleaseAsset :=
  omap fulfilledValue results.

Definition rejectionReasons (results : list Settled) : list Error :=
  omap rejectionReason results.

Definition isFulfilled (result : Settled) : bool :=
  match result with
  | Fulfilled _ => true
  | Rejected _ => false
  end.

(** What [diffAssets] is to put in [toUpload] resp. [toUpdate] for one
    desired asset. *)
Definition uploadOf (existingAssets : list ReleaseAsset) (desired : DesiredAsset)
  : option DesiredAsset :=
  match List.find (λ existing, bool_decide (assetName existing = desired_name desired))
                  existingAssets with
  | None => Some desired
  | Some _ => None
  end.

Definition updateOf (existingAssets : list ReleaseAsset) (desired : DesiredAsset)
  : option (ReleaseAsset * DesiredAsset) :=
  match List.find (λ existing, bool_decide (assetName existing = desired_name desired))
                  existingAssets with
  | None => None
  | Some existing => Some (existing, desired)
  end.

(** The events that are calls of an injected capability. *)
Definition invokesCapability (ev : Event) : Prop :=
  match ev with
  | InvokeReadFile _ | InvokeDeleteReleaseAsset _ _ _ | InvokeRequest _ => True
  | _ => False
  end.

(** The note [findAsset] logs for an optional asset without files. *)
Definition isOptionalNote (ev : Event) : Prop :=
  ∃ pattern, ev = Info (MsgOptionalNotFound pattern).

(** What discovery may log: notes and warnings of repeated names. *)
Definition isDiscoveryEvent (ev : Event) : Prop :=
  isOptionalNote ev ∨ ∃ name, ev = Warning (MsgFoundMultipleTimes name).

(** Some asset on the release carries the name of [desired]. *)
Definition nameOnRelease (existingAssets : list ReleaseAsset) (desired : DesiredAsset)
  : Prop :=
  ∃ existing, existing ∈ existingAssets ∧ assetName existing = desired_name desired.

Section Occurrences.
Context `{Platform}.

(** The name under which [findAssets] remembers an asset. *)
Definition lowercaseName (a : DesiredAsset) : string := toLowerCase (desired_name a).

(** Entry [i] of [found] when no entry before it has its lowercase name. *)
Definition firstOccurrenceAt (found : list DesiredAsset) (i : nat)
  : option DesiredAsset :=
  a ← found !! i;
  if bool_decide (lowercaseName a ∈ lowercaseName <$> take i found) then None
  else Some a.

(** Entry [i] of [found] when some entry before it has its lowercase
    name. *)
Definition laterOccurrenceAt (found : list DesiredAsset) (i : nat)
  : option DesiredAsset :=
  a ← found !! i;
  if bool_decide (lowercaseName a ∈ lowercaseName <$> take i found) then Some a
  else None.

Definition firstOccurrences (found : list DesiredAsset) : list DesiredAsset :=
  omap (firstOccurrenceAt found) (seq 0 (length found)).

Definition laterOccurrences (found : list DesiredAsset) : list DesiredAsset :=
  omap (laterOccurrenceAt found) (seq 0 (length found)).

Definition multipleTimes (a : DesiredAsset) : Event :=
  Warning (MsgFoundMultipleTimes (desired_name a)).

(** The list a synchronous computation returns, if it returns. *)
Definition returned {A} (m : Sync (list A)) : list A :=
  match snd m with
  | inr l => l
  | inl _ => []
  end.

End Occurrences.

(** A promise that is only fulfilled with an asset right after logging
    that asset as uploaded. *)
Inductive AnnouncesUpload : Task ReleaseAsset → Prop :=
| announces_reject e : AnnouncesUpload (Reject e)
| announces_uploaded name v : AnnouncesUpload (Say (MsgUploaded name v) (Resolve v))
| announces_say m next : AnnouncesUpload next → AnnouncesUpload (Say m next)
| announces_read path k :
    (∀ r, AnnouncesUpload (k r)) → AnnouncesUpload (AwaitReadFile path k)
| announces_delete o rp i k :
    (∀ r, AnnouncesUpload (k r)) → AnnouncesUpload (AwaitDelete o rp i k)
| announces_request req k :
    (∀ r, AnnouncesUpload (k r)) → AnnouncesUpload (AwaitRequest req k).

(** The promise in a slot will announce its asset, or has settled with an
    asset that the log [tr] announces. *)
Definition accountedFor (tr : list Event) (t : Task ReleaseAsset) : Prop :=
  AnnouncesUpload t ∨ ∃ name v, t = Resolve v ∧ Info (MsgUploaded name v) ∈ tr.

Section Answers.
Context `{Platform}.

(** The capabilities answer a call the same way in every world. *)
Definition answersIgnoreWorld : Prop :=
  (∀ path w w', fst (readFile path w) = fst (readFile path w'))
  ∧ (∀ o r i w w', fst (deleteReleaseAsset o r i w) = fst (deleteReleaseAsset o r i w'))
  ∧ (∀ req w w', fst (request req w) = fst (request req w')).

(** How a promise settles when every call is answered as in world [w0]. *)
Fixpoint outcomeIn {A} (w0 : World) (t : Task A) : Error + A :=
  match t with
  | Resolve a => inr a
  | Reject e => inl e
  | Say _ next => outcomeIn w0 next
  | AwaitReadFile path k => outcomeIn w0 (k (fst (readFile path w0)))
  | AwaitDelete o r i k => outcomeIn w0 (k (fst (deleteReleaseAsset o r i w0)))
  | AwaitRequest req k => outcomeIn w0 (k (fst (request req w0)))
  end.

End Answers.

(** Whatever the answers, every event the promise emits satisfies [P]. *)
Inductive EmitsOnly {A : Type} (P : Event → Prop) : Task A → Prop :=
| emits_resolve a : EmitsOnly P (Resolve a)
| emits_reject e : EmitsOnly P (Reject e)
| emits_say m next : P (Info m) → EmitsOnly P next → EmitsOnly P (Say m next)
| emits_read path k :
    P (InvokeReadFile path) → (∀ r, EmitsOnly P (k r)) →
    EmitsOnly P (AwaitReadFile path k)
| emits_delete o rp i k :
    P (InvokeDeleteReleaseAsset o rp i) → (∀ r, EmitsOnly P (k r)) →
    EmitsOnly P (AwaitDelete o rp i k)
| emits_request req k :
    P (InvokeRequest req) → (∀ r, EmitsOnly P (k r)) →
    EmitsOnly P (AwaitRequest req k).

(** The reason an [error] line carries. *)
Definition loggedError (ev : Event) : option Error :=
  match ev with
  | ErrorLog reason => Some reason
  | _ => None
  end.

Section PassEvents.
Context `{Platform}.

(** What an operation of the pass over [desiredAssets] may do: log, read
    the file of a desired asset, delete an asset of the release that has
    the name of a desired asset, and post a desired asset, with its name,
    its label and the content type of its path, to the upload URL of the
    release. *)
Definition operationEvent (args : Args) (desiredAssets : list DesiredAsset)
    (ev : Event) : Prop :=
  match ev with
  | Info _ => True
  | InvokeReadFile path => ∃ d, d ∈ desiredAssets ∧ path = desired_path d
  | InvokeDeleteReleaseAsset o rp i =>
      o = owner args ∧ rp = repo args
      ∧ ∃ e d, e ∈ release_assets args ∧ d ∈ desiredAssets
               ∧ i = assetId e ∧ assetName e = desired_name d
  | InvokeRequest req =>
      req_url req = release_upload_url args
      ∧ ∃ d, d ∈ desiredAssets ∧ req_name req = desired_name d
             ∧ req_label req = desired_label d
             ∧ req_content_type req = mimeLookup (desired_path d)
  | Warning _ | ErrorLog _ | GroupStart _ | GroupEnd => False
  end.

(** The first thing each operation does, before anything is answered. *)
Definition firstCalls (args : Args) (d : Diff) : list Event :=
  ((λ desired, InvokeReadFile (desired_path desired)) <$> toUpload d)
  ++ (toUpdate d ≫= λ p,
        [Info (MsgDeleting (assetName (fst p)) (assetId (fst p)));
         InvokeDeleteReleaseAsset (owner args) (repo args) (assetId (fst p))]).

End PassEvents.

(** A promise that, once its first call is answered, only emits events
    that satisfy [Q] (or that only emits such events anyway). *)
Inductive QuietOnceAnswered {A : Type} (Q : Event → Prop) : Task A → Prop :=
| quiet_emits t : EmitsOnly Q t → QuietOnceAnswered Q t
| quiet_read path k :
    (∀ r, EmitsOnly Q (k r)) → QuietOnceAnswered Q (AwaitReadFile path k)
| quiet_delete o rp i k :
    (∀ r, EmitsOnly Q (k r)) → QuietOnceAnswered Q (AwaitDelete o rp i k)
| quiet_request req k :
    (∀ r, EmitsOnly Q (k r)) → QuietOnceAnswered Q (AwaitRequest req k).

(** Not the call of the delete capability. *)
Definition notADelete (ev : Event) : Prop :=
  match ev with
  | InvokeDeleteReleaseAsset _ _ _ => False
  | _ => True
  end.

(** * The configuration of a release (config.js)

    [readConfig] reads [.github/release.eloquent.yml], validates it and
    lays the inputs of the action over it. The YAML parser and the two
    validators are parameters; a configuration is a record whose fields
    may be absent, as the keys of the object may be. *)

(** [String.prototype.trim]. *)
Class Text : Type := mkText {
  trim : string → string
}.

Record Discussion : Type := mkDiscussion {
  discussion_category : option string;
  discussion_reactions : option (list string)
}.

Record Summary : Type := mkSummary {
  summary_enabled : option bool
}.

(** The object [validateConfig] returns, and the effective one. *)
Record Config : Type := mkConfig {
  conf_assets : list AssetConfig;
  conf_discussion : Discussion;
  conf_summary : Summary;
  conf_draft : option bool;
  conf_generateReleaseNotes : option bool;
  conf_prerelease : option bool;
  conf_reactions : option (list string)
}.

(** The object [overrides]: every key may be missing. *)
Record Overrides : Type := mkOverrides {
  over_assets : option (list AssetConfig);
  over_discussion : option Discussion;
  over_summary : option Summary;
  over_draft : option bool;
  over_generateReleaseNotes : option bool;
  over_prerelease : option bool;
  over_reactions : option (list string)
}.

Inductive ConfigError : Type :=
| ConfigFileUnreadable (reason : Reason)
| ConfigParsingFailed (message original : string)
| ConfigInvalid (reason : Reason)
| AssetsParsingFailed (message original : string)
| AssetsValidationFailed (stack : string).

Inductive ConfigMessage : Type :=
| MsgNoConfiguration
| MsgBaseConfiguration (base : Config)
| MsgConfigurationOverrides (overrides : Overrides)
| MsgEffectiveConfiguration (effective : Config).

Inductive ConfigEvent : Type :=
| ConfigGroupStart (title : string)
| ConfigGroupEnd
| ConfigInfo (m : ConfigMessage).

(** What [readFile] of the configuration file does: the content, the
    rejection with code [ENOENT], or another rejection. *)
Inductive ConfigFile : Type :=
| FileContent (data : string)
| FileAbsent
| FileFailure (reason : Reason).

(** [load] of js-yaml and the validators of validation.js, each of which
    returns or throws. *)
Class ConfigPlatform : Type := mkConfigPlatform {
  Yaml : Type;
  emptyObject : Yaml;
  load : string → Reason + Yaml;
  validateConfig : Yaml → Reason + Config;
  validateAssets : Yaml → Reason + list AssetConfig
}.

(** [s.split(",")]: the pieces between the commas, of which there is one
    more than there are commas. *)
Fixpoint splitComma (s : string) : list string :=
  match s with
  | EmptyString => [EmptyString]
  | String c s' =>
      if Ascii.eqb c (Ascii.ascii_of_nat 44) then EmptyString :: splitComma s'
      else
        match splitComma s' with
        | piece :: pieces => String c piece :: pieces
        | [] => [String c EmptyString]
        end
  end.

(** A string in a condition: the empty string is falsy. *)
Definition truthy (s : string) : bool := negb (String.eqb s EmptyString).

Section Configuration.
Context `{Text} `{ConfigPlatform}.

Definition readConfigFile (file : ConfigFile) : ConfigError + bool * option string :=
  match file with
  | FileFailure reason => inl (ConfigFileUnreadable reason)
  | FileAbsent => inr (false, None)
  | FileContent data =>
      let yaml := trim data in
      inr (bool_decide (0 < String.length yaml), Some yaml)
  end.

Definition parseConfig (hasYaml : bool) (yaml : option string) : ConfigError + Config :=
  if negb hasYaml then
    match validateConfig emptyObject with
    | inl reason => inl (ConfigInvalid reason)
    | inr base => inr base
    end
  else
    let original := default EmptyString yaml in
    match load original with
    | inl message => inl (ConfigParsingFailed message original)
    | inr parsed =>
        match validateConfig parsed with
        | inl reason => inl (ConfigInvalid reason)
        | inr base => inr base
        end
    end.

Definition parseAssets (getInput : string → string) : ConfigError + list AssetConfig :=
  let yaml := getInput "assets" in
  if negb (truthy yaml) then inr []
  else
    match load yaml with
    | inl message => inl (AssetsParsingFailed message yaml)
    | inr parsed =>
        match validateAssets parsed with
        | inl stack => inl (AssetsValidationFailed stack)
        | inr assets => inr assets
        end
    end.

(** [if (input) target = input === "true"] *)
Definition flagInput (input : string) : option bool :=
  if truthy input then Some (String.eqb input "true") else None.

(** [Object.keys(overrides).length > 0] *)
Definition hasKeys (overrides : Overrides) : bool :=
  bool_decide (is_Some (over_assets overrides))
  || bool_decide (is_Some (over_discussion overrides))
  || bool_decide (is_Some (over_summary overrides))
  || bool_decide (is_Some (over_draft overrides))
  || bool_decide (is_Some (over_generateReleaseNotes overrides))
  || bool_decide (is_Some (over_prerelease overrides))
  || bool_decide (is_Some (over_reactions overrides)).

Definition getConfigOverrides (getInput : string → string) (base : Config)
  : ConfigError + Overrides * bool :=
  let discussionCategory := getInput "discussionCategory" in
  let discussionReactions := getInput "discussionReactions" in
  let discussionOverrides :=
    {| discussion_category :=
         if truthy discussionCategory then Some discussionCategory else None;
       discussion_reactions :=
         if truthy discussionReactions then Some (splitComma discussionReactions)
         else None |} in
  let summaryEnabled := getInput "summaryEnabled" in
  let summaryOverrides := {| summary_enabled := flagInput summaryEnabled |} in
  match parseAssets getInput with
  | inl e => inl e
  | inr inputAssets =>
      let draft := getInput "draft" in
      let generateReleaseNotes := getInput "generateReleaseNotes" in
      let prerelease := getInput "prerelease" in
      let reactions := getInput "reactions" in
      let overrides :=
        {| over_assets :=
             if bool_decide (0 < length inputAssets)
             then Some (conf_assets base ++ inputAssets) else None;
           over_discussion :=
             if bool_decide (is_Some (discussion_category discussionOverrides))
                || bool_decide (is_Some (discussion_reactions discussionOverrides))
             then Some discussionOverrides else None;
           over_summary :=
             if bool_decide (is_Some (summary_enabled summaryOverrides))
             then Some summaryOverrides else None;
           over_draft := flagInput draft;
           over_generateReleaseNotes := flagInput generateReleaseNotes;
           over_prerelease := flagInput prerelease;
           over_reactions :=
             if truthy reactions then Some (splitComma reactions) else None |} in
      inr (overrides, hasKeys overrides)
  end.

(** [{ ...a, ...b }] on one key: the key of [b] when [b] has it. *)
Definition spreadKey {A} (a b : option A) : option A :=
  match b with
  | Some x => Some x
  | None => a
  end.

(** [{ ...base.discussion, ...overrides.discussion }] *)
Definition spreadDiscussion (base : Discussion) (overrides : option Discussion)
  : Discussion :=
  match overrides with
  | None => base
  | Some o =>
      {| discussion_category :=
           spreadKey (discussion_category base) (discussion_category o);
         discussion_reactions :=
           spreadKey (discussion_reactions base) (discussion_reactions o) |}
  end.

Definition spreadSummary (base : Summary) (overrides : option Summary) : Summary :=
  match overrides with
  | None => base
  | Some o => {| summary_enabled := spreadKey (summary_enabled base) (summary_enabled o) |}
  end.

(** The object literal [effective] of [readConfig]. *)
Definition effectiveConfig (base : Config) (overrides : Overrides) : Config :=
  {| conf_assets := default (conf_assets base) (over_assets overrides);
     conf_discussion := spreadDiscussion (conf_discussion base) (over_discussion overrides);
     conf_summary := spreadSummary (conf_summary base) (over_summary overrides);
     conf_draft := spreadKey (conf_draft base) (over_draft overrides);
     conf_generateReleaseNotes :=
       spreadKey (conf_generateReleaseNotes base) (over_generateReleaseNotes overrides);
     conf_prerelease := spreadKey (conf_prerelease base) (over_prerelease overrides);
     conf_reactions := spreadKey (conf_reactions base) (over_reactions overrides) |}.

(** [readConfig]: the log and what it returns or throws. The group is
    closed when its body throws, as [group] of the actions toolkit does. *)
Definition readConfig (getInput : string → string) (file : ConfigFile)
  : list ConfigEvent * (ConfigError + Config) :=
  let body : list ConfigEvent * (ConfigError + Config) :=
    match readConfigFile file with
    | inl e => ([], inl e)
    | inr (hasYaml, yaml) =>
        let noted :=
          if negb hasYaml then [ConfigInfo MsgNoConfiguration] else [] in
        match parseConfig hasYaml yaml with
        | inl e => (noted, inl e)
        | inr base =>
            match getConfigOverrides getInput base with
            | inl e => (noted, inl e)
            | inr (overrides, hasOverrides) =>
                let compared :=
                  if hasOverrides
                  then [ConfigInfo (MsgBaseConfiguration base);
                        ConfigInfo (MsgConfigurationOverrides overrides)]
                  else [] in
                let effective := effectiveConfig base overrides in
                (noted ++ compared ++ [ConfigInfo (MsgEffectiveConfiguration effective)],
                 inr effective)
            end
        end
    end in
  ([ConfigGroupStart "Reading release configuration"] ++ fst body ++ [ConfigGroupEnd],
   snd body).

End Configuration.

(** A platform to evaluate [readConfig] on: the YAML is a number of
    assets written in unary, the text [!] does not parse and [###] does
    not validate. *)
Definition demoText : Text := {| trim := λ s, s |}.

Definition demoBase : Config :=
  {| conf_assets := [mkAssetConfig "a.txt" None None false];
     conf_discussion := mkDiscussion (Some "Releases") None;
     conf_summary := mkSummary (Some true);
     conf_draft := Some false;
     conf_generateReleaseNotes := Some false;
     conf_prerelease := None;
     conf_reactions := Some ["rocket"] |}.

Definition demoConfigPlatform : ConfigPlatform :=
  {| Yaml := string;
     emptyObject := EmptyString;
     load := λ s, if String.eqb s "!" then inl "bad indentation" else inr s;
     validateConfig := λ y, if String.eqb y "###" then inl "must be object" else inr demoBase;
     validateAssets := λ y,
       if String.eqb y "###" then inl "must be array"
       else inr (repeat (mkAssetConfig "b.*.json" None None true) (String.length y)) |}.

(** The inputs of the action, as a table. *)
Definition demoInput (name : string) : string :=
  if String.eqb name "assets" then "#"
  else if String.eqb name "draft" then "true"
  else if String.eqb name "prerelease" then "yes"
  else if String.eqb name "discussionReactions" then "+1,heart"
  else EmptyString.

(** How an input that stands for a flag shows in the effective value:
    absent, the value of the file stays; [true] gives [true]; any other
    text gives [false]. *)
Definition flagOverlaid (base : option bool) (input : string) (effective : option bool)
  : Prop :=
  (input = EmptyString → effective = base)
  ∧ (input = "true" → effective = Some true)
  ∧ (input ≠ EmptyString → input ≠ "true" → effective = Some false).

Fixpoint containsComma (s : string) : bool :=
  match s with
  | EmptyString => false
  | String c s' => Ascii.eqb c (Ascii.ascii_of_nat 44) || containsComma s'
  end.

(** How an input that stands for a list shows in the effective value:
    absent, the list of the file stays; otherwise the list is the pieces
    of the input between its commas. *)
Definition listOverlaid (base : option (list string)) (input : string)
    (effective : option (list string)) : Prop :=
  (input = EmptyString → effective = base)
  ∧ (input ≠ EmptyString →
     ∃ pieces, effective = Some pieces
       ∧ String.concat "," pieces = input
       ∧ Forall (λ piece, containsComma piece = false) pieces).

Definition isEffectiveLine (ev : ConfigEvent) : Prop :=
  ∃ effective, ev = ConfigInfo (MsgEffectiveConfiguration effective).

(** * The body of a release (body.js)

    [renderReleaseBody] renders the annotation of the tag with the
    markdown processor, asks the host for generated release notes when the
    configuration says so, and joins what it got. The processor and the
    host are parameters. *)

(** The names of the outputs, constants of outputs.js. *)
Inductive OutputName : Type := TAG_BODY_RENDERED | GENERATED_RELEASE_NOTES.

Inductive BodyError : Type :=
| MarkdownFailed (reason : Reason)
| ReleaseNotesFailed (reason : Reason).

Inductive BodyEvent : Type :=
| BodyGroupStart (title : string)
| BodyGroupEnd
| BodyInfo (text : string)
| SetOutput (name : OutputName) (value : string)
| InvokeGenerateReleaseNotes (owner repo tag_name : string).

Class BodyPlatform : Type := mkBodyPlatform {
  processMarkdown : string → Reason + string;
  Host : Type;
  generateReleaseNotes : string → string → string → Host → (Reason + string) * Host
}.

(** The separator of [parts.join]. *)
Definition newline : string := String (Ascii.ascii_of_nat 10) EmptyString.

(** The comment that closes a body that is not empty. *)
Definition attribution (actionRepository : string) : string :=
  "<!-- published by " +:+ actionRepository +:+ " -->".

Section Body.
Context `{Text} `{BodyPlatform}.

(** [config.generateReleaseNotes] in a condition. *)
Definition wantsReleaseNotes (config : Config) : bool :=
  match conf_generateReleaseNotes config with
  | Some true => true
  | _ => false
  end.

(** The first [if]: the events, and [parts] after it or what is thrown. *)
Definition renderTagBody (tagBody : string) : list BodyEvent * (BodyError + list string) :=
  if negb (String.eqb (trim tagBody) EmptyString) then
    match processMarkdown tagBody with
    | inl reason =>
        ([BodyGroupStart "Rendering tag annotation body"; BodyGroupEnd],
         inl (MarkdownFailed reason))
    | inr output =>
        let processed := trim output in
        ([BodyGroupStart "Rendering tag annotation body"; BodyInfo processed;
          BodyGroupEnd; SetOutput TAG_BODY_RENDERED processed],
         inr [processed])
    end
  else ([], inr []).

(** The last [if] and the [join]. *)
Definition closeBody (actionRepository : string) (parts : list string) : string :=
  String.concat newline
    (if bool_decide (0 < length parts)
     then parts ++ [EmptyString; attribution actionRepository]
     else parts).

Definition renderReleaseBody (config : Config)
    (actionRepository owner repo tag tagBody : string) (h : Host)
  : list BodyEvent * (BodyError + string) * Host :=
  match renderTagBody tagBody with
  | (evs, inl e) => (evs, inl e, h)
  | (evs, inr parts) =>
      if wantsReleaseNotes config then
        let '(answer, h') := generateReleaseNotes owner repo tag h in
        match answer with
        | inl reason =>
            (evs ++ [BodyGroupStart "Rendering automatically generated release notes";
                     InvokeGenerateReleaseNotes owner repo tag; BodyGroupEnd],
             inl (ReleaseNotesFailed reason), h')
        | inr body =>
            let releaseNotes := body in
            let parts :=
              (if bool_decide (0 < length parts) then parts ++ [EmptyString]
               else parts) ++ [releaseNotes] in
            (evs ++ [BodyGroupStart "Rendering automatically generated release notes";
                     InvokeGenerateReleaseNotes owner repo tag; BodyInfo body;
                     BodyGroupEnd; SetOutput GENERATED_RELEASE_NOTES releaseNotes],
             inr (closeBody actionRepository parts), h')
        end
      else (evs, inr (closeBody actionRepository parts), h)
  end.

End Body.

(** A processor that wraps the text in a paragraph and fails on [?]; a
    host that counts its calls and has no notes for the tag [v0]. *)
Definition demoBodyPlatform : BodyPlatform :=
  {| processMarkdown := λ s,
       if String.eqb s "?" then inl "cannot process" else inr ("<p>" +:+ s +:+ "</p>");
     Host := nat;
     generateReleaseNotes := λ _ _ tag n,
       if String.eqb tag "v0" then (inl "HTTP 404", S n)
       else (inr ("## What's Changed in " +:+ tag), S n) |}.

(** * Waiting for workflow runs (the octokit helpers of the tests)

    Both helpers poll the list of workflow runs until the runs they wait
    for are there. A poll is what the host answers; the loop is run over
    the answers of successive polls, and [None] stands for a loop that is
    still waiting when the answers are used up. *)

Record WorkflowRun : Type := mkWorkflowRun {
  run_id : Z;
  run_event : string;
  run_head_branch : option string;
  run_status : string
}.

(** The negation of [event !== 'push' || status !== 'completed']. *)
Definition isCompletedPush (run : WorkflowRun) : bool :=
  String.eqb (run_event run) "push" && String.eqb (run_status run) "completed".

(** [tagRuns[runTag] = run] on a plain object: the key [__proto__] is
    the accessor of the prototype, and assigning to it adds no own key.
    The prototype is never read here: the helper only reads the table
    once it has as many own keys as there are tags, and then every tag
    is an own key. *)
Definition assignRun (runTag : string) (run : WorkflowRun)
    (tagRuns : gmap string WorkflowRun) : gmap string WorkflowRun :=
  if String.eqb runTag "__proto__" then tagRuns else <[runTag := run]> tagRuns.

(** [for (const run of runs)] of [waitForCompletedTagWorkflowRuns]: the
    own keys of the object [tagRuns] after the loop, and whether
    [break pagination] was taken. *)
Fixpoint scanRuns (tags : list string) (tagRuns : gmap string WorkflowRun)
    (runs : list WorkflowRun) : gmap string WorkflowRun * bool :=
  match runs with
  | [] => (tagRuns, false)
  | run :: rest =>
      match run_head_branch run with
      | Some runTag =>
          if negb (isCompletedPush run) || negb (bool_decide (runTag ∈ tags))
          then scanRuns tags tagRuns rest
          else
            let tagRuns' := assignRun runTag run tagRuns in
            if bool_decide (length tags ≤ size tagRuns') then (tagRuns', true)
            else scanRuns tags tagRuns' rest
      | None => scanRuns tags tagRuns rest
      end
  end.

(** [for await (const page of pages)]: a page is requested when the loop
    reaches it, and the request may be rejected. *)
Fixpoint scanPages (tags : list string) (tagRuns : gmap string WorkflowRun)
    (pages : list (Reason + list WorkflowRun)) : Reason + gmap string WorkflowRun :=
  match pages with
  | [] => inr tagRuns
  | inl reason :: _ => inl reason
  | inr runs :: rest =>
      let '(tagRuns', stop) := scanRuns tags tagRuns runs in
      if stop then inr tagRuns' else scanPages tags tagRuns' rest
  end.

(** One turn of the loop after the sleep: thrown, still waiting, or the
    runs in the order of the tags. *)
Definition pollTagRuns (tags : list string) (pages : list (Reason + list WorkflowRun))
  : Reason + option (list (option WorkflowRun)) :=
  match scanPages tags ∅ pages with
  | inl reason => inl reason
  | inr tagRuns =>
      if bool_decide (size tagRuns < length tags) then inr None
      else inr (Some ((λ tag, tagRuns !! tag) <$> tags))
  end.

Fixpoint waitForCompletedTagWorkflowRuns (tags : list string)
    (polls : list (list (Reason + list WorkflowRun)))
  : Reason + option (list (option WorkflowRun)) :=
  match polls with
  | [] => inr None
  | pages :: later =>
      match pollTagRuns tags pages with
      | inl reason => inl reason
      | inr (Some runs) => inr (Some runs)
      | inr None => waitForCompletedTagWorkflowRuns tags later
      end
  end.

(** What [listWorkflowRuns] answers to the helper that waits for one
    run: the runs, or an error with its HTTP status, if it has one. *)
Inductive Listing : Type :=
| Listed (workflow_runs : list WorkflowRun)
| ListingFailed (status : option Z) (reason : Reason).

Fixpoint waitForCompletedTagWorkflowRun (tag : string) (polls : list Listing)
  : Reason + option WorkflowRun :=
  match polls with
  | [] => inr None
  | ListingFailed status reason :: later =>
      if bool_decide (status = Some 404%Z)
      then waitForCompletedTagWorkflowRun tag later
      else inl reason
  | Listed workflow_runs :: later =>
      match workflow_runs with
      | [] => waitForCompletedTagWorkflowRun tag later
      | run :: _ =>
          if negb (isCompletedPush run)
             || negb (bool_decide (run_head_branch run = Some tag))
          then waitForCompletedTagWorkflowRun tag later
          else inr (Some run)
      end
  end.

(** A run the helpers accept for [tag]. *)
Definition completedPushOf (tag : string) (run : WorkflowRun) : Prop :=
  run_event run = "push" ∧ run_status run = "completed"
  ∧ run_head_branch run = Some tag.

(** A poll that makes the helper for one run poll again. *)
Definition pollsAgain (tag : string) (poll : Listing) : Prop :=
  match poll with
  | ListingFailed status _ => status = Some 404%Z
  | Listed [] => True
  | Listed (run :: _) => ¬ completedPushOf tag run
  end.

(** Every entry of the table is a completed push run of its key, the key
    is one of the tags, and [P] holds of the run. *)
Definition tableOk (P : WorkflowRun → Prop) (tags : list string)
    (tagRuns : gmap string WorkflowRun) : Prop :=
  ∀ tag run, tagRuns !! tag = Some run →
    tag ∈ tags ∧ completedPushOf tag run ∧ P run.

(** ** Values to evaluate the statements on *)

(** What discovery logs and returns for [demoArgs]. *)
Definition demoNotes : list Event := [Info (MsgOptionalNotFound "c.txt")].

Definition demoDesired : list DesiredAsset :=
  [mkDesiredAsset EmptyString "a.txt" "a.txt";
   mkDesiredAsset EmptyString "b.1.json" "b.1.json";
   mkDesiredAsset EmptyString "b.2.json" "b.2.json"].

(** A host that numbers the uploads as they arrive: the id of an accepted
    asset is the number of uploads accepted before it. Its answers
    depend on the moment of the call. *)
Definition arrivalPlatform : Platform :=
  {| basename := posixBasename;
     toLowerCase := asciiToLowerCase;
     localeCompare := codeUnitCompare;
     mimeLookup := λ _, None;
     globGenerator := demoTree;
     isDirectory := demoDirs;
     World := Z;
     readFile := λ path w, (inr path, w);
     deleteReleaseAsset := λ _ _ _ w, (inr tt, w);
     request := λ req w, (inr (demoApiAsset w req), (w + 1)%Z) |}.

(** What a pass over [demoArgs] reports on that host, the operations
    completing as [schedule] says. *)
Definition arrivalReported (schedule : list nat) : list ReleaseAsset :=
  match snd (fst (@modifyReleaseAssets arrivalPlatform demoArgs schedule 0%Z)) with
  | inr (_, reported) => reported
  | inl _ => []
  end.

(** A pass over [demoArgs] and what it reports. *)
Definition demoPass : list Event * (Error + bool * list ReleaseAsset) * Z :=
  @modifyReleaseAssets demo demoArgs [2; 0; 1] 0%Z.

Definition demoReported : list ReleaseAsset :=
  match snd (fst demoPass) with
  | inr (_, reported) => reported
  | inl _ => []
  end.

Definition demoEffective : Config :=
  match snd (@readConfig demoText demoConfigPlatform demoInput (FileContent "config")) with
  | inr effective => effective
  | inl _ => demoBase
  end.

Definition demoRun (run : Z) (tag status : string) : WorkflowRun :=
  {| run_id := run; run_event := "push"; run_head_branch := Some tag;
     run_status := status |}.

(** Two pages: the run of [v2] and a run in progress, then the run of
    [v1]. *)
Definition demoPages : list (Reason + list WorkflowRun) :=
  [inr [demoRun 1 "v2" "completed"; demoRun 2 "v1" "in_progress"];
   inr [demoRun 3 "v1" "completed"]].

(** * Properties *)

(** ** The sort *)

Section Sorting.
Context {A : Type} (cmp : A → A → Z).

Lemma insertBy_Permutation (x : A) (l : list A) : insertBy cmp x l ≡ₚ x :: l.
Proof.
  induction l as [|y l IH]; simpl; [done|].
  case_bool_decide; [done|].
  rewrite IH. apply Permutation_swap.
Qed.

Lemma sortBy_Permutation (l : list A) : sortBy cmp l ≡ₚ l.
Proof.
  induction l as [|x l IH]; simpl; [done|].
  rewrite insertBy_Permutation. by f_equiv.
Qed.

Lemma sortedBy_Forall_perm (x : A) (l l' : list A) :
  l ≡ₚ l' → Forall (λ y, (cmp x y ≤ 0)%Z) l → Forall (λ y, (cmp x y ≤ 0)%Z) l'.
Proof. intros Hp Hl. by rewrite <- Hp. Qed.

Hypothesis consistent : ConsistentComparator cmp.

Lemma cmp_not_le_flip (a b : A) : ¬ (cmp a b ≤ 0)%Z → (cmp b a ≤ 0)%Z.
Proof.
  destruct consistent as [Hsign _]. intros Hn.
  assert (cmp b a < 0)%Z; [apply Hsign|]; lia.
Qed.

Lemma cmp_both_le (a b : A) : (cmp a b ≤ 0)%Z → (cmp b a ≤ 0)%Z → cmp a b = 0%Z.
Proof.
  destruct consistent as [Hsign _]. intros Hab Hba.
  destruct (decide (cmp a b < 0)%Z) as [Hlt|]; [|lia].
  apply Hsign in Hlt. lia.
Qed.

Lemma insertBy_sorted (x : A) (l : list A) :
  sortedBy cmp l → sortedBy cmp (insertBy cmp x l).
Proof.
  destruct consistent as [_ Htrans].
  induction l as [|y l IH]; simpl; [by intuition|].
  intros [Hy Hl]. case_bool_decide as Hxy; simpl.
  - split; [|done]. constructor; [done|].
    eapply Forall_impl; [exact Hy|]. intros z Hz. by eapply Htrans.
  - split; [|by apply IH].
    apply (sortedBy_Forall_perm y (x :: l)); [by rewrite insertBy_Permutation|].
    constructor; [by apply cmp_not_le_flip|done].
Qed.

Lemma sortBy_sorted (l : list A) : sortedBy cmp (sortBy cmp l).
Proof.
  induction l as [|x l IH]; simpl; [done|]. by apply insertBy_sorted.
Qed.

(** Two sorted arrangements of the same elements coincide as soon as the
    comparator tells the elements apart. *)
Lemma sortedBy_unique (l1 l2 : list A) :
  (∀ a b, a ∈ l1 → b ∈ l1 → cmp a b = 0%Z → a = b) →
  sortedBy cmp l1 → sortedBy cmp l2 → l1 ≡ₚ l2 → l1 = l2.
Proof.
  revert l2. induction l1 as [|x l1 IH]; intros l2 Hsep H1 H2 Hp.
  - by apply Permutation_nil_l in Hp.
  - destruct l2 as [|y l2]; [by apply Permutation_nil_r in Hp|].
    destruct H1 as [Hx H1], H2 as [Hy H2].
    assert (x = y) as ->.
    { assert (x ∈ y :: l2) as Hx2 by (rewrite <- Hp; left).
      assert (y ∈ x :: l1) as Hy1 by (rewrite Hp; left).
      apply elem_of_cons in Hx2 as [|Hx2]; [done|].
      apply elem_of_cons in Hy1 as [|Hy1]; [done|].
      apply Hsep; [left|by right|].
      apply cmp_both_le.
      - by eapply Forall_forall in Hx.
      - by eapply Forall_forall in Hy. }
    f_equal. apply IH; [|done|done|by apply Permutation_cons_inv in Hp].
    intros a b Ha Hb. apply Hsep; by right.
Qed.

Lemma sortBy_perm_invariant (l1 l2 : list A) :
  (∀ a b, a ∈ l1 → b ∈ l1 → cmp a b = 0%Z → a = b) →
  l1 ≡ₚ l2 → sortBy cmp l1 = sortBy cmp l2.
Proof.
  intros Hsep Hp. apply sortedBy_unique; [|apply sortBy_sorted..|].
  - intros a b Ha Hb. apply Hsep; by rewrite <- sortBy_Permutation.
  - by rewrite !sortBy_Permutation.
Qed.

Lemma cmp_same_sym (a b : A) : cmp a b = 0%Z → cmp b a = 0%Z.
Proof.
  destruct consistent as [Hsign _]. intros Hab.
  destruct (Hsign a b) as [_ Hba], (Hsign b a) as [Hab' _].
  destruct (Z.lt_trichotomy (cmp b a) 0) as [Hlt|[Heq|Hgt]]; [|done|].
  - apply Hab' in Hlt. lia.
  - apply Hba in Hgt. lia.
Qed.

Lemma cmp_same_trans (a b c : A) : cmp a b = 0%Z → cmp b c = 0%Z → cmp a c = 0%Z.
Proof.
  destruct consistent as [_ Htrans]. intros Hab Hbc.
  pose proof (cmp_same_sym _ _ Hab). pose proof (cmp_same_sym _ _ Hbc).
  apply cmp_both_le.
  - apply (Htrans a b c); lia.
  - apply (Htrans c b a); lia.
Qed.

Lemma cmp_same_refl (a : A) : cmp a a = 0%Z.
Proof.
  destruct consistent as [Hsign _]. destruct (Hsign a a) as [Hlt Hgt].
  destruct (Z.lt_trichotomy (cmp a a) 0) as [Hneg|[Heq|Hpos]]; [|done|].
  - pose proof (Hlt Hneg). lia.
  - pose proof (Hgt Hpos). lia.
Qed.

(** The sort is stable: elements that compare equal keep their order. *)
Lemma insertBy_stable (z x : A) (l : list A) :
  filter (λ y, cmp z y = 0%Z) (insertBy cmp x l)
  = filter (λ y, cmp z y = 0%Z) (x :: l).
Proof.
  induction l as [|y l IH]; simpl; [done|].
  case_bool_decide as Hxy; [done|].
  rewrite filter_cons, IH, !filter_cons.
  destruct (decide (cmp z y = 0%Z)) as [Hzy|Hzy],
           (decide (cmp z x = 0%Z)) as [Hzx|Hzx]; try done.
  destruct Hxy. apply cmp_same_sym in Hzx.
  rewrite (cmp_same_trans x z y); [lia|done|done].
Qed.

Lemma sortBy_stable (z : A) (l : list A) :
  filter (λ y, cmp z y = 0%Z) (sortBy cmp l) = filter (λ y, cmp z y = 0%Z) l.
Proof.
  induction l as [|x l IH]; simpl; [done|].
  by rewrite insertBy_stable, !filter_cons, IH.
Qed.

(** A sorted list is determined by the order of the elements within each
    class of elements that compare equal. *)
Lemma stable_sorted_unique (l1 l2 : list A) :
  sortedBy cmp l1 → sortedBy cmp l2 →
  (∀ z, filter (λ y, cmp z y = 0%Z) l1 = filter (λ y, cmp z y = 0%Z) l2) →
  l1 = l2.
Proof.
  revert l2. induction l1 as [|x l1 IH]; intros l2 H1 H2 Hsame.
  - destruct l2 as [|y l2]; [done|]. specialize (Hsame y).
    rewrite filter_cons_True in Hsame by apply cmp_same_refl. done.
  - destruct l2 as [|y l2].
    { specialize (Hsame x).
      rewrite filter_cons_True in Hsame by apply cmp_same_refl. done. }
    destruct H1 as [Hx H1], H2 as [Hy H2].
    assert (cmp x y = 0%Z) as Hxy.
    { apply cmp_both_le.
      - assert (y ∈ x :: l1) as Hin.
        { assert (y ∈ filter (λ y', cmp y y' = 0%Z) (x :: l1)) as Hf.
          { rewrite (Hsame y), filter_cons_True by apply cmp_same_refl. left. }
          by apply list_elem_of_filter in Hf as [_ ?]. }
        apply elem_of_cons in Hin as [->|Hin];
          [by rewrite cmp_same_refl|by eapply Forall_forall in Hx].
      - assert (x ∈ y :: l2) as Hin.
        { assert (x ∈ filter (λ y', cmp x y' = 0%Z) (y :: l2)) as Hf.
          { rewrite <- (Hsame x), filter_cons_True by apply cmp_same_refl. left. }
          by apply list_elem_of_filter in Hf as [_ ?]. }
        apply elem_of_cons in Hin as [->|Hin];
          [by rewrite cmp_same_refl|by eapply Forall_forall in Hy]. }
    assert (x = y) as <-.
    { specialize (Hsame x).
      rewrite !filter_cons_True in Hsame by (done || apply cmp_same_refl).
      by injection Hsame. }
    f_equal. apply IH; [done..|].
    intros z. specialize (Hsame z). rewrite !filter_cons in Hsame.
    destruct (decide (cmp z x = 0%Z)); [by injection Hsame|done].
Qed.

(** Whatever algorithm [Array.prototype.sort] runs: a sorted and stable
    rearrangement of [l] is the list [sortBy] computes. *)
Lemma sortBy_is_the_stable_sort (l l' : list A) :
  sortedBy cmp l' →
  (∀ z, filter (λ y, cmp z y = 0%Z) l' = filter (λ y, cmp z y = 0%Z) l) →
  l' = sortBy cmp l.
Proof.
  intros Hsorted Hstable. apply stable_sorted_unique; [done|apply sortBy_sorted|].
  intros z. by rewrite sortBy_stable.
Qed.

End Sorting.

(** Sorting by a key: the keys of the sorted list are the sorted keys. *)
Section SortingByKey.
Context {A B : Type} (key : A → B) (cmp : B → B → Z).

Lemma insertBy_fmap (x : A) (l : list A) :
  key <$> insertBy (λ a b, cmp (key a) (key b)) x l
  = insertBy cmp (key x) (key <$> l).
Proof.
  induction l as [|y l IH]; [done|]. cbn [insertBy fmap list_fmap].
  case_bool_decide; [done|]. rewrite !fmap_cons. by rewrite IH.
Qed.

Lemma sortBy_fmap (l : list A) :
  key <$> sortBy (λ a b, cmp (key a) (key b)) l = sortBy cmp (key <$> l).
Proof.
  induction l as [|x l IH]; [done|].
  unfold sortBy in *. cbn [foldr fmap list_fmap].
  by rewrite insertBy_fmap, IH.
Qed.

Lemma sortedBy_fmap (l : list A) :
  sortedBy (λ a b, cmp (key a) (key b)) l → sortedBy cmp (key <$> l).
Proof.
  induction l as [|x l IH]; [done|]. intros [Hx Hl]. split; [|by apply IH].
  by rewrite Forall_fmap.
Qed.

End SortingByKey.

(** ** Aggregation *)

Section Aggregation.
Context `{Platform}.

Lemma analyzeResults_from (acc : Analysis) (results : list Settled) :
  foldl countResult acc results
  = {| isSuccess := isSuccess acc && forallb isFulfilled results;
       successCount := successCount acc + length (fulfilledValues results);
       assets := assets acc ++ fulfilledValues results;
       failureCount := failureCount acc + length (rejectionReasons results);
       failureReasons := failureReasons acc ++ rejectionReasons results |}.
Proof.
  revert acc. induction results as [|r results IH]; intros acc; simpl.
  - destruct acc; simpl. rewrite andb_true_r, !Nat.add_0_r, !app_nil_r. done.
  - rewrite IH. destruct r; simpl.
    + rewrite <- !app_assoc, Nat.add_succ_r. done.
    + rewrite <- !app_assoc, Nat.add_succ_r, andb_false_r. done.
Qed.

Lemma analyzeResults_spec (results : list Settled) :
  analyzeResults results
  = {| isSuccess := forallb isFulfilled results;
       successCount := length (fulfilledValues results);
       assets := fulfilledValues results;
       failureCount := length (rejectionReasons results);
       failureReasons := rejectionReasons results |}.
Proof. unfold analyzeResults. by rewrite analyzeResults_from. Qed.

Lemma forallb_isFulfilled (results : list Settled) :
  forallb isFulfilled results = true
  ↔ ∀ r, r ∈ results → ∃ value, r = Fulfilled value.
Proof.
  rewrite forallb_forall. split.
  - intros Hall r Hr. apply list_elem_of_In, Hall in Hr.
    destruct r; [by eexists|done].
  - intros Hall r Hr. apply list_elem_of_In, Hall in Hr as [v ->]. done.
Qed.

Lemma elem_of_fulfilledValues (a : ReleaseAsset) (results : list Settled) :
  a ∈ fulfilledValues results ↔ Fulfilled a ∈ results.
Proof.
  unfold fulfilledValues. rewrite list_elem_of_omap. split.
  - intros (r & Hr & Hv). destruct r; simplify_eq/=. done.
  - intros Hr. by exists (Fulfilled a).
Qed.

Lemma aggregate_spec (uploadResults updateResults : list Settled) :
  aggregate uploadResults updateResults
  = (forallb isFulfilled uploadResults && forallb isFulfilled updateResults,
     sortBy compareApiAsset
       (fulfilledValues uploadResults ++ fulfilledValues updateResults)).
Proof. unfold aggregate. by rewrite !analyzeResults_spec. Qed.

(** C1. For every pair of outcome batches the verdict is [true] exactly
    when every outcome of both batches is fulfilled, and the reported list
    is a rearrangement of the values of the fulfilled outcomes: an asset is
    reported exactly when some operation was fulfilled with it, so neither
    the asset of a failed operation nor an asset that was only present on
    the release is in it. *)
Theorem aggregate_reports_exactly_successes
    (uploadResults updateResults : list Settled) :
  let report := aggregate uploadResults updateResults in
  (fst report = true
   ↔ ∀ r, r ∈ uploadResults ++ updateResults → ∃ value, r = Fulfilled value)
  ∧ snd report ≡ₚ fulfilledValues uploadResults ++ fulfilledValues updateResults
  ∧ (∀ a, a ∈ snd report ↔ Fulfilled a ∈ uploadResults ++ updateResults)
  ∧ length (snd report)
    = length (filter (λ r, isFulfilled r = true) (uploadResults ++ updateResults)).
Proof.
  cbv zeta. rewrite aggregate_spec. simpl. repeat split.
  - rewrite andb_true_iff, !forallb_isFulfilled.
    intros [Hu Hv] r [?|?]%elem_of_app; auto.
  - rewrite andb_true_iff, !forallb_isFulfilled.
    intros Hall. split; intros r Hr; apply Hall, elem_of_app; auto.
  - apply sortBy_Permutation.
  - rewrite sortBy_Permutation, !elem_of_app, !elem_of_fulfilledValues. done.
  - rewrite sortBy_Permutation, !elem_of_app, !elem_of_fulfilledValues. done.
  - rewrite sortBy_Permutation, filter_app, !length_app.
    assert (∀ l, length (fulfilledValues l)
                 = length (filter (λ r, isFulfilled r = true) l)) as Hlen.
    { induction l as [|[v|e] l IH]; [done|..].
      - rewrite filter_cons_True by done. simpl. by f_equal.
      - rewrite filter_cons_False by done. done. }
    by rewrite !Hlen.
Qed.

End Aggregation.

(** ** The diff *)

Section Diffing.
Context `{Platform}.

Lemma findExisting_Some existingAssets desired existing :
  findExisting existingAssets desired = Some existing →
  existing ∈ existingAssets ∧ assetName existing = desired_name desired.
Proof.
  intros [Hin Hname]%find_some. apply bool_decide_eq_true in Hname.
  by rewrite list_elem_of_In.
Qed.

Lemma findExisting_None existingAssets desired :
  findExisting existingAssets desired = None ↔ ¬ nameOnRelease existingAssets desired.
Proof.
  split.
  - intros Hnone (e & He & Hname). apply list_elem_of_In in He.
    pose proof (find_none _ _ Hnone e He) as Hf. simpl in Hf.
    by apply bool_decide_eq_false in Hf.
  - intros Hno. destruct (findExisting existingAssets desired) as [e|] eqn:Hf; [|done].
    apply findExisting_Some in Hf as [? ?]. destruct Hno. by exists e.
Qed.

Lemma findExisting_is_Some existingAssets desired :
  is_Some (findExisting existingAssets desired) ↔ nameOnRelease existingAssets desired.
Proof.
  split.
  - intros [e He]. apply findExisting_Some in He as [? ?]. by exists e.
  - intros Hon. destruct (findExisting existingAssets desired) eqn:Hf; [done|].
    by apply findExisting_None in Hf.
Qed.

Lemma diffAssets_from existingAssets (acc : Diff) desiredAssets :
  foldl (placeDesired existingAssets) acc desiredAssets
  = {| toUpdate := toUpdate acc ++ omap (updateOf existingAssets) desiredAssets;
       toUpload := toUpload acc ++ omap (uploadOf existingAssets) desiredAssets |}.
Proof.
  revert acc. induction desiredAssets as [|x l IH]; intros acc; simpl.
  - destruct acc. by rewrite !app_nil_r.
  - rewrite IH. unfold placeDesired, updateOf, uploadOf, findExisting.
    destruct (find _ existingAssets); simpl; by rewrite <- !app_assoc.
Qed.

Lemma diffAssets_spec existingAssets desiredAssets :
  diffAssets existingAssets desiredAssets
  = {| toUpdate := omap (updateOf existingAssets) desiredAssets;
       toUpload := omap (uploadOf existingAssets) desiredAssets |}.
Proof. unfold diffAssets. by rewrite diffAssets_from. Qed.

Lemma uploadOf_Some existingAssets desired x :
  uploadOf existingAssets desired = Some x
  ↔ x = desired ∧ ¬ nameOnRelease existingAssets desired.
Proof.
  rewrite <- findExisting_None. unfold uploadOf, findExisting.
  destruct (find _ existingAssets); intuition congruence.
Qed.

Lemma updateOf_Some existingAssets desired e x :
  updateOf existingAssets desired = Some (e, x)
  ↔ x = desired ∧ findExisting existingAssets desired = Some e.
Proof.
  unfold updateOf, findExisting.
  destruct (find _ existingAssets); intuition congruence.
Qed.

Lemma diff_covers existingAssets (l : list DesiredAsset) :
  l ≡ₚ omap (uploadOf existingAssets) l ++ (snd <$> omap (updateOf existingAssets) l).
Proof.
  induction l as [|x l IH]; simpl; [done|].
  unfold uploadOf, updateOf at 1.
  destruct (find _ existingAssets); simpl.
  - rewrite <- Permutation_middle. by f_equiv.
  - by f_equiv.
Qed.

Lemma diff_keeps_order existingAssets (l : list DesiredAsset) :
  omap (uploadOf existingAssets) l `sublist_of` l
  ∧ (snd <$> omap (updateOf existingAssets) l) `sublist_of` l.
Proof.
  induction l as [|x l [IH1 IH2]]; simpl; [done|].
  unfold uploadOf, updateOf at 1.
  destruct (find _ existingAssets); simpl; split;
    (by apply sublist_skip) || (by apply sublist_cons).
Qed.

(** C2. Whatever is on the release and whatever is desired, [diffAssets]
    puts a desired asset in [toUpload] exactly when no existing asset has
    the same name (an exact, case-sensitive comparison of the strings) and
    as the second half of a pair of [toUpdate] exactly when one has; the
    two never share an asset; together they are a rearrangement of the
    desired list, each keeping the order of that list; and every pair
    holds the first existing asset of that name, so that an existing asset
    that no desired asset names is nowhere in the result. *)
Theorem diffAssets_partitions_desired
    (existingAssets : list ReleaseAsset) (desiredAssets : list DesiredAsset) :
  let d := diffAssets existingAssets desiredAssets in
  (∀ x, x ∈ toUpload d ↔ x ∈ desiredAssets ∧ ¬ nameOnRelease existingAssets x)
  ∧ (∀ x, x ∈ (snd <$> toUpdate d)
          ↔ x ∈ desiredAssets ∧ nameOnRelease existingAssets x)
  ∧ (∀ x, x ∈ toUpload d → x ∉ (snd <$> toUpdate d))
  ∧ desiredAssets ≡ₚ toUpload d ++ (snd <$> toUpdate d)
  ∧ toUpload d `sublist_of` desiredAssets
  ∧ (snd <$> toUpdate d) `sublist_of` desiredAssets
  ∧ (∀ e x, (e, x) ∈ toUpdate d →
       x ∈ desiredAssets ∧ e ∈ existingAssets
       ∧ assetName e = desired_name x
       ∧ findExisting existingAssets x = Some e)
  ∧ (∀ e, e ∈ (fst <$> toUpdate d) →
       ∃ x, x ∈ desiredAssets ∧ assetName e = desired_name x).
Proof.
  cbv zeta. rewrite diffAssets_spec. simpl.
  assert (∀ x, x ∈ omap (uploadOf existingAssets) desiredAssets
               ↔ x ∈ desiredAssets ∧ ¬ nameOnRelease existingAssets x) as Hup.
  { intros x. rewrite list_elem_of_omap. split.
    - intros (y & Hy & [-> Hno]%uploadOf_Some). done.
    - intros [Hx Hno]. exists x. split; [done|]. by apply uploadOf_Some. }
  assert (∀ e x, (e, x) ∈ omap (updateOf existingAssets) desiredAssets
                 ↔ x ∈ desiredAssets ∧ findExisting existingAssets x = Some e)
    as Hpair.
  { intros e x. rewrite list_elem_of_omap. split.
    - intros (y & Hy & [-> Hf]%updateOf_Some). done.
    - intros [Hx Hf]. exists x. split; [done|]. by apply updateOf_Some. }
  assert (∀ x, x ∈ (snd <$> omap (updateOf existingAssets) desiredAssets)
               ↔ x ∈ desiredAssets ∧ nameOnRelease existingAssets x) as Hupd.
  { intros x. rewrite list_elem_of_fmap. split.
    - intros ([e y] & -> & [Hy Hf]%Hpair). simpl. split; [done|].
      apply findExisting_is_Some. by exists e.
    - intros [Hx [e He]%findExisting_is_Some]. exists (e, x).
      split; [done|]. by apply Hpair. }
  split_and!.
  - exact Hup.
  - exact Hupd.
  - intros x [_ Hno]%Hup [_ Hon]%Hupd. done.
  - apply diff_covers.
  - apply diff_keeps_order.
  - apply diff_keeps_order.
  - intros e x [Hx Hf]%Hpair. pose proof (findExisting_Some _ _ _ Hf) as [? ?]. done.
  - intros e ([e' x] & -> & [Hx Hf]%Hpair)%list_elem_of_fmap. simpl.
    exists x. split; [done|]. by apply findExisting_Some in Hf as [_ ?].
Qed.

End Diffing.

(** ** Expansion of the descriptors *)

Section Expansion.
Context `{Platform}.

Lemma length_globFiles pattern : length (globFiles pattern) = length (matchedPaths pattern).
Proof. unfold globFiles. by rewrite length_fmap. Qed.

Lemma matchedPaths_nil pattern :
  matchedPaths pattern = []
  ↔ ∀ path, path ∈ globGenerator pattern → isDirectory path = true.
Proof.
  unfold matchedPaths. induction (globGenerator pattern) as [|p l IH]; simpl.
  - split; [|done]. intros _ path Hp. by apply elem_of_nil in Hp.
  - destruct (isDirectory p) eqn:Hd; simpl.
    + rewrite IH. split.
      * intros Hall path [->|?]%elem_of_cons; auto.
      * intros Hall path Hp. apply Hall. by right.
    + split; [done|]. intros Hall. specialize (Hall p). rewrite Hd in Hall.
      by discriminate Hall; left.
Qed.

Lemma findAsset_none_optional asset :
  matchedPaths (cfg_path asset) = [] → cfg_optional asset = true →
  findAsset asset = ([Info (MsgOptionalNotFound (cfg_path asset))], inr []).
Proof. intros Hm Ho. unfold findAsset, globFiles. by rewrite Hm, Ho. Qed.

Lemma findAsset_none_mandatory asset :
  matchedPaths (cfg_path asset) = [] → cfg_optional asset = false →
  findAsset asset = ([], inl (MandatoryArtifactNotFound (cfg_path asset))).
Proof. intros Hm Ho. unfold findAsset, globFiles. by rewrite Hm, Ho. Qed.

Lemma findAsset_single asset path :
  matchedPaths (cfg_path asset) = [path] →
  findAsset asset
  = ([], inr [normalizeAsset {| found_label := cfg_label asset;
                                found_name := cfg_name asset;
                                found_path := path |}]).
Proof. intros Hm. unfold findAsset, globFiles. by rewrite Hm. Qed.

Lemma findAsset_many asset :
  1 < length (matchedPaths (cfg_path asset)) →
  findAsset asset
  = ([], inr ((λ path, {| desired_label := EmptyString;
                          desired_name := basename path;
                          desired_path := path |}) <$> matchedPaths (cfg_path asset))).
Proof.
  intros Hlen. unfold findAsset. rewrite length_globFiles.
  rewrite bool_decide_eq_false_2 by lia. rewrite bool_decide_eq_true_2 by done.
  unfold globFiles. rewrite <- list_fmap_compose. done.
Qed.

(** Whatever the tree, [findAsset] either throws for a mandatory asset
    without files or returns, having logged at most the note for an
    optional one. *)
Lemma findAsset_cases asset :
  (matchedPaths (cfg_path asset) = [] ∧ cfg_optional asset = false
   ∧ findAsset asset = ([], inl (MandatoryArtifactNotFound (cfg_path asset))))
  ∨ (∃ evs found, findAsset asset = (evs, inr found) ∧ Forall isOptionalNote evs
       ∧ (matchedPaths (cfg_path asset) = [] → cfg_optional asset = true)).
Proof.
  destruct (matchedPaths (cfg_path asset)) as [|p [|q l]] eqn:Hm.
  - destruct (cfg_optional asset) eqn:Ho.
    + right. eexists _, _. split; [by apply findAsset_none_optional|].
      split; [|done]. repeat constructor. by eexists.
    + left. split_and!; [done..|]. by apply findAsset_none_mandatory.
  - right. eexists _, _. split; [by apply findAsset_single|]. done.
  - right. eexists _, _. split; [apply findAsset_many; rewrite Hm; simpl; lia|]. done.
Qed.

Lemma findEach_cons found asset rest :
  findEach found (asset :: rest)
  = match findAsset asset with
    | (evs, inl e) => (evs, inl e)
    | (evs, inr r) =>
        let '(evs', x) := findEach (found ++ r) rest in (evs ++ evs', x)
    end.
Proof. done. Qed.

(** A mandatory asset without files anywhere in the list makes the loop
    throw, at the first such asset, after nothing but notes. *)
Lemma findEach_mandatory_missing assets asset found :
  asset ∈ assets → matchedPaths (cfg_path asset) = [] → cfg_optional asset = false →
  ∃ evs first,
    findEach found assets = (evs, inl (MandatoryArtifactNotFound (cfg_path first)))
    ∧ first ∈ assets ∧ matchedPaths (cfg_path first) = []
    ∧ cfg_optional first = false ∧ Forall isOptionalNote evs.
Proof.
  revert found. induction assets as [|a rest IH]; intros found Hin Hm Ho.
  - by apply elem_of_nil in Hin.
  - rewrite findEach_cons.
    destruct (findAsset_cases a) as [(Hma & Hoa & ->)|(evs & r & -> & Hevs & Hopt)].
    + exists [], a. split_and!; [done|left|done..].
    + assert (asset ∈ rest) as Hrest.
      { apply elem_of_cons in Hin as [->|]; [|done].
        specialize (Hopt Hm). congruence. }
      destruct (IH (found ++ r) Hrest Hm Ho) as (evs' & first & -> & ? & ? & ? & ?).
      exists (evs ++ evs'), first. split_and!; [done|by right|done..|].
      by apply Forall_app.
Qed.

(** The loop never logs anything but notes, and only throws the error of
    a mandatory asset. *)
Lemma findEach_events assets found :
  Forall isOptionalNote (fst (findEach found assets)).
Proof.
  revert found. induction assets as [|a rest IH]; intros found; [by constructor|].
  rewrite findEach_cons.
  destruct (findAsset_cases a) as [(_ & _ & ->)|(evs & r & -> & Hevs & _)];
    [by constructor|].
  specialize (IH (found ++ r)). destruct (findEach (found ++ r) rest).
  by apply Forall_app.
Qed.

(** An optional asset without files can be struck from the list: the
    loop ends the same way, with one note less. *)
Lemma findEach_skip_optional pre asset post found :
  matchedPaths (cfg_path asset) = [] → cfg_optional asset = true →
  snd (findEach found (pre ++ asset :: post)) = snd (findEach found (pre ++ post)).
Proof.
  intros Hm Ho. revert found. induction pre as [|a pre IH]; intros found.
  - simpl app. rewrite findEach_cons, findAsset_none_optional by done.
    rewrite app_nil_r. by destruct (findEach found post).
  - simpl app. rewrite !findEach_cons. destruct (findAsset a) as [evs [e|r]]; [done|].
    specialize (IH (found ++ r)).
    destruct (findEach (found ++ r) (pre ++ asset :: post)),
             (findEach (found ++ r) (pre ++ post)). done.
Qed.

(** C6, as the code has it. When the pattern matches one file the
    result is one asset for that file: it carries the [name] of the
    descriptor when that is present and not the empty string and the base
    name of the file otherwise, and the [label] of the descriptor when
    present and the empty string otherwise. When the pattern matches
    several files, [name] and [label] of the descriptor are ignored: there
    is one asset per file, in glob order, named by the base name of its
    file, with the empty label. *)
Theorem findAsset_overrides_single_match_only (asset : AssetConfig) :
  (∀ path, matchedPaths (cfg_path asset) = [path] →
     ∃ a, findAsset asset = ([], inr [a])
       ∧ desired_path a = path
       ∧ (∀ n, cfg_name asset = Some n → n ≠ EmptyString → desired_name a = n)
       ∧ (cfg_name asset = None ∨ cfg_name asset = Some EmptyString →
          desired_name a = basename path)
       ∧ (∀ l, cfg_label asset = Some l → desired_label a = l)
       ∧ (cfg_label asset = None → desired_label a = EmptyString))
  ∧ (1 < length (matchedPaths (cfg_path asset)) →
     findAsset asset
     = ([], inr ((λ path, {| desired_label := EmptyString;
                             desired_name := basename path;
                             desired_path := path |})
                   <$> matchedPaths (cfg_path asset)))).
Proof.
  split; [|apply findAsset_many].
  intros path Hm. eexists. split; [by apply findAsset_single|].
  unfold normalizeAsset. simpl. split_and!.
  - done.
  - intros n -> Hn. by rewrite bool_decide_eq_false_2.
  - by intros [->| ->].
  - by intros l ->.
  - by intros ->.
Qed.

(** C10. A descriptor whose pattern matches one file and whose [name] is
    the empty string yields the asset named by the base name of the file:
    [name || basename(path)] takes the empty string for an absent name. *)
Theorem findAsset_empty_name_is_no_override (asset : AssetConfig) (path : string) :
  matchedPaths (cfg_path asset) = [path] →
  cfg_name asset = Some EmptyString →
  findAsset asset
  = ([], inr [ {| desired_label := default EmptyString (cfg_label asset);
                  desired_name := basename path;
                  desired_path := path |} ])
  ∧ desired_name (normalizeAsset {| found_label := cfg_label asset;
                                    found_name := Some EmptyString;
                                    found_path := path |})
    = basename path.
Proof.
  intros Hm Hn. rewrite (findAsset_single asset path Hm).
  unfold normalizeAsset. simpl. by rewrite Hn.
Qed.

End Expansion.

(** ** De-duplication *)

Section Deduplication.
Context `{Platform}.

Lemma filterSeen_cons_fresh seen a rest :
  lowercaseName a ∉ seen →
  filterSeen seen (a :: rest)
  = (fst (filterSeen ({[lowercaseName a]} ∪ seen) rest),
     match snd (filterSeen ({[lowercaseName a]} ∪ seen) rest) with
     | inr kept => inr (a :: kept)
     | inl e => inl e
     end).
Proof.
  intros Hfresh. simpl. fold (lowercaseName a).
  rewrite bool_decide_eq_true_2 by done.
  unfold mbind, sync_bind, mret, sync_ret.
  destruct (filterSeen _ rest) as [w [e|kept]]; simpl; [done|].
  by rewrite app_nil_r.
Qed.

Lemma filterSeen_cons_seen seen a rest :
  lowercaseName a ∈ seen →
  filterSeen seen (a :: rest)
  = (multipleTimes a :: fst (filterSeen seen rest), snd (filterSeen seen rest)).
Proof.
  intros Hseen. simpl. fold (lowercaseName a).
  rewrite bool_decide_eq_false_2 by (by intros ?).
  unfold mbind, sync_bind, warning, emit.
  by destruct (filterSeen seen rest) as [w r].
Qed.

(** The filter never throws. *)
Lemma filterSeen_returns seen found :
  filterSeen seen found
  = (fst (filterSeen seen found), inr (returned (filterSeen seen found))).
Proof.
  revert seen. induction found as [|a rest IH]; intros seen; [done|].
  destruct (decide (lowercaseName a ∈ seen)) as [Hin|Hout].
  - rewrite filterSeen_cons_seen by done. unfold returned. simpl.
    rewrite (IH seen) at 2 3. done.
  - rewrite filterSeen_cons_fresh by done. unfold returned. simpl.
    rewrite (IH ({[lowercaseName a]} ∪ seen)). done.
Qed.

Lemma returned_cons_fresh seen a rest :
  lowercaseName a ∉ seen →
  returned (filterSeen seen (a :: rest))
  = a :: returned (filterSeen ({[lowercaseName a]} ∪ seen) rest)
  ∧ fst (filterSeen seen (a :: rest))
    = fst (filterSeen ({[lowercaseName a]} ∪ seen) rest).
Proof.
  intros Hfresh. rewrite filterSeen_cons_fresh by done.
  rewrite (filterSeen_returns ({[lowercaseName a]} ∪ seen) rest). done.
Qed.

Lemma returned_cons_seen seen a rest :
  lowercaseName a ∈ seen →
  returned (filterSeen seen (a :: rest)) = returned (filterSeen seen rest)
  ∧ fst (filterSeen seen (a :: rest)) = multipleTimes a :: fst (filterSeen seen rest).
Proof. intros Hseen. by rewrite filterSeen_cons_seen. Qed.

Lemma omap_unfold {A B} (f : A → option B) (x : A) (l : list A) :
  omap f (x :: l)
  = match f x with
    | Some y => y :: omap f l
    | None => omap f l
    end.
Proof. done. Qed.

Lemma firstOccurrenceAt_middle prefix a rest :
  firstOccurrenceAt (prefix ++ a :: rest) (length prefix)
  = if bool_decide (lowercaseName a ∈ lowercaseName <$> prefix) then None
    else Some a.
Proof.
  unfold firstOccurrenceAt. rewrite list_lookup_middle by done. simpl.
  by rewrite take_app_length.
Qed.

Lemma laterOccurrenceAt_middle prefix a rest :
  laterOccurrenceAt (prefix ++ a :: rest) (length prefix)
  = if bool_decide (lowercaseName a ∈ lowercaseName <$> prefix) then Some a
    else None.
Proof.
  unfold laterOccurrenceAt. rewrite list_lookup_middle by done. simpl.
  by rewrite take_app_length.
Qed.

(** With the names of [prefix] seen, the filter keeps of [suffix] the
    first occurrences in [prefix ++ suffix] and warns of the others. *)
Lemma filterSeen_occurrences suffix prefix seen :
  (∀ k, k ∈ seen ↔ k ∈ lowercaseName <$> prefix) →
  filterSeen seen suffix
  = (multipleTimes <$> omap (laterOccurrenceAt (prefix ++ suffix))
                            (seq (length prefix) (length suffix)),
     inr (omap (firstOccurrenceAt (prefix ++ suffix))
               (seq (length prefix) (length suffix)))).
Proof.
  revert prefix seen. induction suffix as [|a rest IH]; intros prefix seen Hseen;
    [done|].
  pose proof (IH (prefix ++ [a])) as IH'.
  rewrite <- app_assoc, length_app, Nat.add_1_r in IH'. simpl in IH'.
  cbn [length seq].
  rewrite !omap_unfold, firstOccurrenceAt_middle, laterOccurrenceAt_middle.
  destruct (decide (lowercaseName a ∈ seen)) as [Hin|Hout].
  - rewrite filterSeen_cons_seen by done.
    rewrite bool_decide_eq_true_2 by (by apply Hseen).
    rewrite (IH' seen); [done|].
    intros k. rewrite fmap_app, elem_of_app, <- Hseen. simpl.
    rewrite list_elem_of_singleton. split; [by left|]. by intros [?| ->].
  - rewrite filterSeen_cons_fresh by done.
    rewrite bool_decide_eq_false_2 by (by rewrite <- Hseen).
    rewrite (IH' ({[lowercaseName a]} ∪ seen)); [done|].
    intros k. rewrite fmap_app, elem_of_app, <- Hseen. simpl.
    rewrite list_elem_of_singleton. set_solver.
Qed.

Lemma dedupe_occurrences found :
  dedupe found
  = (multipleTimes <$> laterOccurrences found, inr (firstOccurrences found)).
Proof.
  unfold dedupe. rewrite (filterSeen_occurrences found []); [done|].
  intros k. simpl. set_solver.
Qed.

(** What the filter keeps: no lowercase name twice, none that was seen
    before, in the order of the input, and every name of the input is
    among the seen or the kept ones. *)
Lemma filterSeen_kept found seen :
  NoDup (lowercaseName <$> returned (filterSeen seen found))
  ∧ (∀ a, a ∈ returned (filterSeen seen found) → lowercaseName a ∉ seen)
  ∧ returned (filterSeen seen found) `sublist_of` found
  ∧ (∀ a, a ∈ found →
       lowercaseName a ∈ seen
       ∨ lowercaseName a ∈ lowercaseName <$> returned (filterSeen seen found))
  ∧ length (returned (filterSeen seen found)) + length (fst (filterSeen seen found))
    = length found.
Proof.
  revert seen. induction found as [|a rest IH]; intros seen.
  - unfold returned. simpl. split_and!; [constructor|set_solver|done|set_solver|done].
  - destruct (decide (lowercaseName a ∈ seen)) as [Hin|Hout].
    + destruct (returned_cons_seen seen a rest Hin) as [-> ->].
      destruct (IH seen) as (Hnd & Hfresh & Hsub & Hcov & Hlen).
      split_and!; [done|done|by apply sublist_cons| |simpl; lia].
      intros b [->|Hb]%elem_of_cons; [by left|by apply Hcov].
    + destruct (returned_cons_fresh seen a rest Hout) as [-> ->].
      destruct (IH ({[lowercaseName a]} ∪ seen)) as (Hnd & Hfresh & Hsub & Hcov & Hlen).
      split_and!.
      * rewrite fmap_cons. constructor; [|done].
        intros (b & Hab & Hb)%list_elem_of_fmap. apply Hfresh in Hb. set_solver.
      * intros b [->|Hb]%elem_of_cons; [done|]. apply Hfresh in Hb. set_solver.
      * by apply sublist_skip.
      * intros b [->|Hb]%elem_of_cons; [right; left|].
        destruct (Hcov b Hb) as [Hs|Hk]; [|right; by right].
        apply elem_of_union in Hs as [Hs|Hs]; [|by left].
        apply elem_of_singleton in Hs. right. rewrite fmap_cons, Hs. left.
      * simpl. lia.
Qed.

(** A list without repeated lowercase names, none of them seen, passes
    the filter unchanged and without a warning. *)
Lemma filterSeen_fixed found seen :
  NoDup (lowercaseName <$> found) →
  (∀ a, a ∈ found → lowercaseName a ∉ seen) →
  filterSeen seen found = ([], inr found).
Proof.
  revert seen. induction found as [|a rest IH]; intros seen Hnd Hfresh; [done|].
  rewrite fmap_cons in Hnd. apply NoDup_cons in Hnd as [Ha Hnd].
  rewrite filterSeen_cons_fresh by (apply Hfresh; left).
  rewrite IH; [done|done|].
  intros b Hb. apply not_elem_of_union. split; [|apply Hfresh; by right].
  intros Heq%elem_of_singleton. apply Ha, list_elem_of_fmap. by exists b.
Qed.

(** The filter over a concatenation is the filter over the first part,
    then over the second with the names of the first part seen too. *)
Lemma filterSeen_app l1 l2 seen :
  filterSeen seen (l1 ++ l2)
  = (fst (filterSeen seen l1)
       ++ fst (filterSeen (list_to_set (lowercaseName <$> l1) ∪ seen) l2),
     inr (returned (filterSeen seen l1)
            ++ returned (filterSeen (list_to_set (lowercaseName <$> l1) ∪ seen) l2))).
Proof.
  revert seen. induction l1 as [|a l1 IH]; intros seen.
  - simpl. rewrite (left_id_L ∅ (∪)). apply filterSeen_returns.
  - rewrite <- app_comm_cons, fmap_cons, list_to_set_cons.
    destruct (decide (lowercaseName a ∈ seen)) as [Hin|Hout].
    + destruct (returned_cons_seen seen a l1 Hin) as [-> ->].
      rewrite filterSeen_cons_seen by done. rewrite IH. cbn [fst snd].
      replace ({[lowercaseName a]} ∪ list_to_set (lowercaseName <$> l1) ∪ seen)
        with (list_to_set (lowercaseName <$> l1) ∪ seen : gset string)
        by set_solver.
      done.
    + destruct (returned_cons_fresh seen a l1 Hout) as [-> ->].
      rewrite filterSeen_cons_fresh by done. rewrite IH. cbn [fst snd].
      replace ({[lowercaseName a]} ∪ list_to_set (lowercaseName <$> l1) ∪ seen)
        with (list_to_set (lowercaseName <$> l1) ∪ ({[lowercaseName a]} ∪ seen)
              : gset string)
        by set_solver.
      done.
Qed.

(** Entry [i] is a first occurrence exactly when every earlier entry has
    another lowercase name. *)
Lemma firstOccurrenceAt_iff found i a :
  found !! i = Some a →
  firstOccurrenceAt found i = Some a
  ↔ ∀ j b, j < i → found !! j = Some b → lowercaseName b ≠ lowercaseName a.
Proof.
  intros Hi. unfold firstOccurrenceAt. rewrite Hi. simpl.
  case_bool_decide as Hmem; split; try done.
  - intros Hall. apply list_elem_of_fmap in Hmem as (b & Hab & Hb).
    apply elem_of_take in Hb as (j & Hj & Hlt). by destruct (Hall j b).
  - intros _ j b Hlt Hj Heq. apply Hmem, list_elem_of_fmap. exists b.
    split; [done|]. apply elem_of_take. by exists j.
Qed.

Lemma laterOccurrenceAt_iff found i a :
  found !! i = Some a →
  laterOccurrenceAt found i = Some a
  ↔ ∃ j b, j < i ∧ found !! j = Some b ∧ lowercaseName b = lowercaseName a.
Proof.
  intros Hi. unfold laterOccurrenceAt. rewrite Hi. simpl.
  case_bool_decide as Hmem; split; try done.
  - intros _. apply list_elem_of_fmap in Hmem as (b & Hab & Hb).
    apply elem_of_take in Hb as (j & Hj & Hlt). by exists j, b.
  - intros (j & b & Hlt & Hj & Heq). destruct Hmem. apply list_elem_of_fmap.
    exists b. split; [done|]. apply elem_of_take. by exists j.
Qed.

(** C7. For every candidate list the filter of [findAssets] returns the
    entries that are the first of their lowercase name, in the order of
    the list, and warns once, with the name, for every other entry, in
    the order of the list too; entry [i] is kept exactly when no earlier
    entry has its lowercase name; the lowercase names of the result are
    pairwise distinct, every name of the input is still there, and kept
    entries and warnings add up to the input. *)
Theorem dedupe_keeps_first_occurrences (found : list DesiredAsset) :
  dedupe found
  = (multipleTimes <$> laterOccurrences found, inr (firstOccurrences found))
  ∧ (∀ i a, found !! i = Some a →
       (firstOccurrenceAt found i = Some a
        ↔ ∀ j b, j < i → found !! j = Some b → lowercaseName b ≠ lowercaseName a)
       ∧ (laterOccurrenceAt found i = Some a
          ↔ ∃ j b, j < i ∧ found !! j = Some b ∧ lowercaseName b = lowercaseName a))
  ∧ NoDup (lowercaseName <$> firstOccurrences found)
  ∧ firstOccurrences found `sublist_of` found
  ∧ (∀ a, a ∈ found → lowercaseName a ∈ lowercaseName <$> firstOccurrences found)
  ∧ length (firstOccurrences found) + length (laterOccurrences found)
    = length found.
Proof.
  pose proof (dedupe_occurrences found) as Hd.
  pose proof (filterSeen_kept found ∅) as (Hnd & _ & Hsub & Hcov & Hlen).
  fold (dedupe found) in Hnd, Hsub, Hcov, Hlen. rewrite Hd in Hnd, Hsub, Hcov, Hlen.
  unfold returned in Hnd, Hsub, Hcov, Hlen. simpl in Hnd, Hsub, Hcov, Hlen.
  rewrite length_fmap in Hlen.
  split_and!; [done| |done|done| |done].
  - intros i a Hi. split; [by apply firstOccurrenceAt_iff|by apply laterOccurrenceAt_iff].
  - intros a Ha. destruct (Hcov a Ha) as [Hempty|]; [|done].
    by apply not_elem_of_empty in Hempty.
Qed.

Lemma filter_none {A} (P : A → Prop) `{!∀ x, Decision (P x)} (l : list A) :
  (∀ x, x ∈ l → ¬ P x) → filter P l = [].
Proof.
  induction l as [|x l IH]; intros Hno; [done|].
  rewrite filter_cons_False by (apply Hno; left).
  apply IH. intros y Hy. apply Hno. by right.
Qed.

(** The first entry of a lowercase name that was not seen before is the
    one entry of that name the filter keeps. *)
Lemma filterSeen_first_kept pre a post seen :
  lowercaseName a ∉ seen →
  (∀ b, b ∈ pre → lowercaseName b ≠ lowercaseName a) →
  filter (λ b, lowercaseName b = lowercaseName a)
    (returned (filterSeen seen (pre ++ a :: post)))
  = [a].
Proof.
  intros Hfresh Hpre. rewrite filterSeen_app. unfold returned at 1. cbn [snd].
  rewrite filter_app.
  assert (lowercaseName a
            ∉ (list_to_set (lowercaseName <$> pre) ∪ seen : gset string)) as Hnew.
  { apply not_elem_of_union. split; [|done].
    intros (b & Hab & Hb)%elem_of_list_to_set%list_elem_of_fmap.
    by apply (Hpre b). }
  rewrite (proj1 (returned_cons_fresh _ a post Hnew)).
  rewrite filter_cons_True by done.
  rewrite !filter_none; [done| |].
  - intros b Hb Hsame.
    destruct (filterSeen_kept post
                ({[lowercaseName a]} ∪ (list_to_set (lowercaseName <$> pre) ∪ seen)))
      as (_ & Hout & _).
    apply (Hout b Hb). rewrite Hsame. set_solver.
  - intros b Hb. apply Hpre.
    destruct (filterSeen_kept pre seen) as (_ & _ & Hsub & _).
    by eapply elem_of_sublist.
Qed.

(** C8. Running the filter of [findAssets] on its own result changes
    nothing and warns of nothing, so that twice is the same as once; an
    entry whose lowercase name equals that of an earlier entry can be
    removed from the input without changing the result; the entries
    whose names differ in letter case only collapse to the first of
    them: of each lowercase name the result holds one entry, the first
    of the input with that name; and a list without two such entries is
    returned as it is, without a warning. *)
Theorem dedupe_idempotent (found : list DesiredAsset) :
  (dedupe found ≫= dedupe) = dedupe found
  ∧ dedupe (returned (dedupe found)) = ([], inr (returned (dedupe found)))
  ∧ (∀ pre a mid b post,
       found = pre ++ a :: mid ++ b :: post →
       toLowerCase (desired_name a) = toLowerCase (desired_name b) →
       snd (dedupe found) = snd (dedupe (pre ++ a :: mid ++ post)))
  ∧ (∀ pre a post,
       found = pre ++ a :: post →
       (∀ b, b ∈ pre →
          toLowerCase (desired_name b) ≠ toLowerCase (desired_name a)) →
       snd (dedupe found) = inr (returned (dedupe found))
       ∧ filter (λ b, toLowerCase (desired_name b) = toLowerCase (desired_name a))
           (returned (dedupe found))
         = [a])
  ∧ (NoDup ((λ a, toLowerCase (desired_name a)) <$> found) →
     dedupe found = ([], inr found)).
Proof.
  pose proof (filterSeen_kept found ∅) as (Hnd & Hfresh & _).
  assert (dedupe (returned (dedupe found)) = ([], inr (returned (dedupe found))))
    as Hfix.
  { unfold dedupe. apply filterSeen_fixed; [done|]. intros a _. set_solver. }
  split_and!; [|done| | |].
  - pose proof (filterSeen_returns ∅ found) as Hret. fold (dedupe found) in Hret.
    revert Hret Hfix. clear. unfold returned.
    destruct (dedupe found) as [w [e|kept]]; simpl; intros Hret Hfix; [done|].
    unfold mbind, sync_bind. by rewrite Hfix, app_nil_r.
  - intros pre a mid b post -> Hsame. unfold dedupe.
    change (pre ++ a :: mid ++ b :: post) with (pre ++ (a :: mid) ++ (b :: post)).
    change (pre ++ a :: mid ++ post) with (pre ++ (a :: mid) ++ post).
    rewrite !app_assoc, !(filterSeen_app (pre ++ a :: mid)). cbn [snd].
    assert (lowercaseName b
              ∈ (list_to_set (lowercaseName <$> pre ++ a :: mid) ∪ ∅ : gset string))
      as Hseen.
    { apply elem_of_union_l, elem_of_list_to_set, list_elem_of_fmap.
      exists a. split; [done|]. apply elem_of_app. right. left. }
    by rewrite (proj1 (returned_cons_seen _ b post Hseen)).
  - intros pre a post -> Hpre. split.
    + pose proof (filterSeen_returns ∅ (pre ++ a :: post)) as Hret.
      fold (dedupe (pre ++ a :: post)) in Hret. by rewrite Hret at 1.
    + apply (filterSeen_first_kept pre a post ∅); [set_solver|done].
  - intros Hdistinct. unfold dedupe. apply filterSeen_fixed; [done|].
    intros a _. set_solver.
Qed.

End Deduplication.

(** ** The pass before any operation *)

Section Discovery.
Context `{Platform}.

Lemma findAssets_throws assets evs e :
  findEach [] assets = (evs, inl e) → findAssets assets = (evs, inl e).
Proof. intros Hf. unfold findAssets, mbind, sync_bind. by rewrite Hf. Qed.

Lemma findAssets_returns assets evs found :
  findEach [] assets = (evs, inr found) →
  findAssets assets
  = (evs ++ (multipleTimes <$> laterOccurrences found), inr (firstOccurrences found)).
Proof.
  intros Hf. unfold findAssets, mbind, sync_bind.
  by rewrite Hf, dedupe_occurrences.
Qed.

Lemma findAssets_events assets : Forall isDiscoveryEvent (fst (findAssets assets)).
Proof.
  pose proof (findEach_events assets []) as Hev.
  destruct (findEach [] assets) as [evs [e|found]] eqn:Hf; simpl in Hev.
  - rewrite (findAssets_throws _ _ _ Hf). simpl.
    eapply Forall_impl; [exact Hev|]. intros ev ?. by left.
  - rewrite (findAssets_returns _ _ _ Hf). simpl. apply Forall_app. split.
    + eapply Forall_impl; [exact Hev|]. intros ev ?. by left.
    + rewrite Forall_fmap. apply Forall_forall. intros a _. right. by eexists.
Qed.

Lemma modifyReleaseAssets_throws args schedule w evs e :
  findAssets (config_assets args) = (evs, inl e) →
  modifyReleaseAssets args schedule w = (evs, inl e, w).
Proof. intros Hf. unfold modifyReleaseAssets. by rewrite Hf. Qed.

(** C3. Let a descriptor of the configuration match no file that is not a
    directory. If it is mandatory, the pass throws
    [MandatoryArtifactNotFound] under every schedule (for the first such
    descriptor of the list), the world is the one it started in and no
    capability was invoked: no file read, no delete, no upload. If it is
    optional, its expansion is the empty list after one note, and the pass
    ends as the pass without that descriptor does: same result, same
    world. *)
Theorem missing_asset_mandatory_vs_optional (args : Args) (asset : AssetConfig) :
  asset ∈ config_assets args →
  (∀ path, path ∈ globGenerator (cfg_path asset) → isDirectory path = true) →
  (cfg_optional asset = false →
   ∀ schedule w, ∃ evs first,
     modifyReleaseAssets args schedule w
     = (evs, inl (MandatoryArtifactNotFound (cfg_path first)), w)
     ∧ first ∈ config_assets args
     ∧ matchedPaths (cfg_path first) = []
     ∧ cfg_optional first = false
     ∧ Forall (λ ev, ¬ invokesCapability ev) evs)
  ∧ (cfg_optional asset = true →
     findAsset asset = ([Info (MsgOptionalNotFound (cfg_path asset))], inr [])
     ∧ ∀ pre post schedule w,
         config_assets args = pre ++ asset :: post →
         let without :=
           {| config_assets := pre ++ post; owner := owner args; repo := repo args;
              release_upload_url := release_upload_url args;
              release_assets := release_assets args |} in
         snd (fst (modifyReleaseAssets args schedule w))
         = snd (fst (modifyReleaseAssets without schedule w))
         ∧ snd (modifyReleaseAssets args schedule w)
           = snd (modifyReleaseAssets without schedule w)).
Proof.
  intros Hin Hm%matchedPaths_nil. split.
  - intros Ho schedule w.
    destruct (findEach_mandatory_missing _ _ [] Hin Hm Ho)
      as (evs & first & Hf & ? & ? & ? & Hevs).
    exists evs, first. split_and!; [|done..|].
    + by apply modifyReleaseAssets_throws, findAssets_throws.
    + eapply Forall_impl; [exact Hevs|]. intros ev [p ->] Hcall. exact Hcall.
  - intros Ho. split; [by apply findAsset_none_optional|].
    intros pre post schedule w Hcfg. cbv zeta.
    pose proof (findEach_skip_optional pre asset post [] Hm Ho) as Hskip.
    unfold modifyReleaseAssets. cbn [config_assets owner repo release_upload_url
                                     release_assets].
    rewrite Hcfg. unfold findAssets, mbind, sync_bind.
    destruct (findEach [] (pre ++ asset :: post)) as [evs1 [e1|found1]],
             (findEach [] (pre ++ post)) as [evs2 [e2|found2]];
      simpl in Hskip; try done; simplify_eq.
    + done.
    + rewrite dedupe_occurrences.
      destruct (bool_decide (length (release_assets args) < 1)
                && bool_decide (length (firstOccurrences found2) < 1)); [done|].
      by destruct (allSettled schedule _ w) as [[? ?] ?].
Qed.

End Discovery.

(** ** The operations and the pass *)

Section Operations.
Context `{Platform}.

(** C9. With no asset on the release and an expansion that yields no
    desired asset, the pass returns [[true, []]] at once: after the events
    of discovery it logs one line, "No release assets to modify", and
    nothing else - no group is opened, no counts of a diff are logged, no
    capability is invoked - and the world is the one it started in. *)
Theorem nothing_to_modify_returns_at_once
    (args : Args) (schedule : list nat) (w : World) (evs : list Event) :
  release_assets args = [] →
  findAssets (config_assets args) = (evs, inr []) →
  modifyReleaseAssets args schedule w
  = (evs ++ [Info MsgNoAssetsToModify], inr (true, []), w)
  ∧ Forall (λ ev, ¬ invokesCapability ev
                  ∧ (∀ title, ev ≠ GroupStart title)
                  ∧ (∀ n m, ev ≠ Info (MsgDiffCounts n m)))
           (fst (fst (modifyReleaseAssets args schedule w))).
Proof.
  intros Hexisting Hfound.
  assert (modifyReleaseAssets args schedule w
          = (evs ++ [Info MsgNoAssetsToModify], inr (true, []), w)) as ->.
  { unfold modifyReleaseAssets. by rewrite Hfound, Hexisting. }
  split; [done|]. simpl. apply Forall_app. split.
  - pose proof (findAssets_events (config_assets args)) as Hev.
    rewrite Hfound in Hev. simpl in Hev.
    eapply Forall_impl; [exact Hev|].
    intros ev [[p ->]|[n ->]]; split_and!; (by intros Hc) || (by intros ? ?) || done.
  - repeat constructor; (by intros Hc) || by intros ? ?.
Qed.

Lemma run_andThen {A B} (t : Task A) (f : A → Task B) (w : World) :
  run (andThen t f) w
  = match run t w with
    | (evs, inl e, w1) => (evs, inl e, w1)
    | (evs, inr a, w1) => let '(evs', r, w2) := run (f a) w1 in (evs ++ evs', r, w2)
    end.
Proof.
  revert w. induction t as [a|e|m next IH|path k IH|o r i k IH|req k IH];
    intros w; simpl.
  - by destruct (run (f a) w) as [[? ?] ?].
  - done.
  - rewrite IH. destruct (run next w) as [[evs [e|a]] w1]; [done|].
    by destruct (run (f a) w1) as [[? ?] ?].
  - destruct (readFile path w) as [x w1]. rewrite IH.
    destruct (run (k x) w1) as [[evs [e|a]] w2]; [done|].
    by destruct (run (f a) w2) as [[? ?] ?].
  - destruct (deleteReleaseAsset o r i w) as [x w1]. rewrite IH.
    destruct (run (k x) w1) as [[evs [e|a]] w2]; [done|].
    by destruct (run (f a) w2) as [[? ?] ?].
  - destruct (request req w) as [x w1]. rewrite IH.
    destruct (run (k x) w1) as [[evs [e|a]] w2]; [done|].
    by destruct (run (f a) w2) as [[? ?] ?].
Qed.

(** C4. An update of [(existing, desired)] starts by logging the deletion
    and invoking the delete capability for the id of the existing asset,
    and waits there: nothing of an upload has happened. When the delete
    is answered with a rejection, the promise is rejected with it, and the
    whole operation consists of these two events: no file is read and no
    upload is requested. When it is answered with success, what is left
    of the promise is [uploadAsset desired] itself, so that the operation
    run on its own is the deletion followed by the run of the upload in
    the world the deletion left. *)
Theorem updateAsset_deletes_then_uploads
    (args : Args) (existing : ReleaseAsset) (desired : DesiredAsset) (w : World) :
  let deleted := deleteReleaseAsset (owner args) (repo args) (assetId existing) w in
  let started := untilAwait (updateAsset args existing desired) in
  fst started
  = [Info (MsgDeleting (assetName existing) (assetId existing));
     InvokeDeleteReleaseAsset (owner args) (repo args) (assetId existing)]
  ∧ respond (snd started) w
    = Some (match fst deleted with
            | inl reason => Reject (RemoteOperationFailure reason)
            | inr _ => uploadAsset args desired
            end, snd deleted)
  ∧ run (updateAsset args existing desired) w
    = match fst deleted with
      | inl reason => (fst started, inl (RemoteOperationFailure reason), snd deleted)
      | inr _ =>
          let '(evs, r, w') := run (uploadAsset args desired) (snd deleted) in
          (fst started ++ evs, r, w')
      end
  ∧ (∀ reason, fst deleted = inl reason →
       Forall (λ ev, (∀ path, ev ≠ InvokeReadFile path)
                     ∧ (∀ req, ev ≠ InvokeRequest req))
              (fst (fst (run (updateAsset args existing desired) w)))).
Proof.
  cbv zeta.
  assert (run (updateAsset args existing desired) w
          = match fst (deleteReleaseAsset (owner args) (repo args) (assetId existing) w)
            with
            | inl reason =>
                ([Info (MsgDeleting (assetName existing) (assetId existing));
                  InvokeDeleteReleaseAsset (owner args) (repo args) (assetId existing)],
                 inl (RemoteOperationFailure reason),
                 snd (deleteReleaseAsset (owner args) (repo args) (assetId existing) w))
            | inr _ =>
                let '(evs, r, w') :=
                  run (uploadAsset args desired)
                      (snd (deleteReleaseAsset (owner args) (repo args)
                                               (assetId existing) w)) in
                ([Info (MsgDeleting (assetName existing) (assetId existing));
                  InvokeDeleteReleaseAsset (owner args) (repo args) (assetId existing)]
                   ++ evs, r, w')
            end) as Hrun.
  { unfold updateAsset. rewrite run_andThen. unfold deleteAsset. cbn [run].
    destruct (deleteReleaseAsset _ _ _ w) as [[reason|[]] w1]; cbn [run fst snd]; [done|].
    by destruct (run (uploadAsset args desired) w1) as [[? ?] ?]. }
  split_and!.
  - done.
  - unfold updateAsset, deleteAsset. cbn [andThen untilAwait snd respond].
    by destruct (deleteReleaseAsset _ _ _ w) as [[reason|[]] w1].
  - exact Hrun.
  - intros reason Hrej. rewrite Hrun, Hrej. cbn [fst].
    repeat constructor; by intros ? ?.
Qed.

End Operations.

(** ** Order of completion *)

Section Completion.
Context `{Platform}.

Lemma untilAwait_outcomeIn {A} (w0 : World) (t : Task A) :
  outcomeIn w0 (snd (untilAwait t)) = outcomeIn w0 t.
Proof.
  induction t as [a|e|m next IH|path k IH|o r i k IH|req k IH]; simpl; try done.
  by destruct (untilAwait next).
Qed.

Lemma startAll_outcomeIn {A} (w0 : World) (tasks : list (Task A)) :
  outcomeIn w0 <$> snd (startAll tasks) = outcomeIn w0 <$> tasks.
Proof.
  induction tasks as [|t rest IH]; [done|]. cbn [startAll].
  pose proof (untilAwait_outcomeIn w0 t) as Ht.
  destruct (untilAwait t) as [evs t'], (startAll rest) as [evs' rest'].
  cbn [snd] in *. rewrite !fmap_cons. by f_equal.
Qed.

Lemma length_startAll {A} (tasks : list (Task A)) :
  length (snd (startAll tasks)) = length tasks.
Proof.
  induction tasks as [|t rest IH]; simpl; [done|].
  destruct (untilAwait t), (startAll rest). simpl in *. by rewrite IH.
Qed.

Lemma length_step {A} (st : Exec A) (i : nat) :
  length (inFlight (step st i)) = length (inFlight st).
Proof.
  unfold step. destruct (inFlight st !! i) as [t|]; [|done].
  destruct (respond t (world st)) as [[t' w']|]; [|done].
  destruct (untilAwait t'). simpl. by rewrite length_insert.
Qed.

Lemma length_drain {A} (tasks : list (Task A)) (w : World) :
  length (snd (fst (drain tasks w))) = length tasks.
Proof.
  revert w. induction tasks as [|t rest IH]; intros w; simpl; [done|].
  destruct (finish t w) as [[evs r] w1]. specialize (IH w1).
  destruct (drain rest w1) as [[evs' rs] w2]. simpl in *. by rewrite IH.
Qed.

(** [Promise.allSettled] reports one outcome per promise, whatever the
    schedule. *)
Lemma length_allSettled schedule (tasks : list (Task ReleaseAsset)) (w : World) :
  length (snd (fst (allSettled schedule tasks w))) = length tasks.
Proof.
  unfold allSettled.
  pose proof (length_startAll tasks) as Hstart.
  destruct (startAll tasks) as [evs0 parked]. simpl in Hstart.
  assert (∀ st : Exec ReleaseAsset,
            length (inFlight (foldl step st schedule)) = length (inFlight st))
    as Hsteps.
  { induction schedule as [|i schedule IH]; intros st; simpl; [done|].
    by rewrite IH, length_step. }
  specialize (Hsteps {| inFlight := parked; world := w; trace := evs0 |}).
  simpl in Hsteps.
  set (st := foldl step _ schedule) in *.
  pose proof (length_drain (inFlight st) (world st)) as Hdrain.
  destruct (drain (inFlight st) (world st)) as [[evs1 rs] w']. simpl in *.
  rewrite length_fmap. lia.
Qed.

(** Running a promise is running it to its first [await] and finishing
    it from there. *)
Lemma run_untilAwait {A} (t : Task A) (w : World) :
  run t w
  = (let '(evs0, parked) := untilAwait t in
     let '(evs, r, w') := finish parked w in (evs0 ++ evs, r, w')).
Proof.
  induction t as [a|e|m next IH|path k IH|o r i k IH|req k IH]; simpl; try done.
  - rewrite IH. destruct (untilAwait next) as [evs0 parked].
    by destruct (finish parked w) as [[? ?] ?].
  - unfold finish. simpl. destruct (readFile path w) as [x w1].
    by destruct (run (k x) w1) as [[? ?] ?].
  - unfold finish. simpl. destruct (deleteReleaseAsset o r i w) as [x w1].
    by destruct (run (k x) w1) as [[? ?] ?].
  - unfold finish. simpl. destruct (request req w) as [x w1].
    by destruct (run (k x) w1) as [[? ?] ?].
Qed.

Lemma step_single {A} (parked : Task A) (w : World) (tr : list Event) (i : nat) :
  step {| inFlight := [parked]; world := w; trace := tr |} i
  = match i, respond parked w with
    | 0, Some (t', w') =>
        {| inFlight := [snd (untilAwait t')]; world := w';
           trace := tr ++ fst (untilAwait t') |}
    | _, _ => {| inFlight := [parked]; world := w; trace := tr |}
    end.
Proof.
  unfold step. destruct i as [|i]; simpl; [|done].
  destruct (respond parked w) as [[t' w']|]; [|done].
  by destruct (untilAwait t').
Qed.

(** A promise that is alone in flight is not affected by the schedule:
    it settles as it does when run on its own. *)
Lemma allSettled_single schedule (t : Task ReleaseAsset) (w : World) :
  allSettled schedule [t] w
  = (let '(evs, r, w') := run t w in (evs, [settle r], w')).
Proof.
  unfold allSettled. rewrite run_untilAwait. cbn [startAll].
  destruct (untilAwait t) as [evs0 parked]. rewrite app_nil_r.
  revert evs0 parked w.
  induction schedule as [|i schedule IH]; intros tr parked w.
  - simpl. destruct (finish parked w) as [[evs r] w']. simpl.
    by rewrite app_nil_r.
  - cbn [foldl]. rewrite step_single.
    destruct i as [|i]; [|apply IH].
    destruct (respond parked w) as [[t' w']|] eqn:Hr; [|apply IH].
    rewrite IH. unfold finish at 2. rewrite Hr, run_untilAwait.
    destruct (untilAwait t') as [evs parked']. cbn [fst snd].
    destruct (finish parked' w') as [[evs' r] w'']. by rewrite app_assoc.
Qed.

Hypothesis answers : answersIgnoreWorld.

Lemma run_outcomeIn {A} (w0 : World) (t : Task A) (w : World) :
  snd (fst (run t w)) = outcomeIn w0 t.
Proof.
  destruct answers as (Hread & Hdelete & Hrequest).
  revert w. induction t as [a|e|m next IH|path k IH|o r i k IH|req k IH];
    intros w; simpl; try done.
  - specialize (IH w). by destruct (run next w) as [[? ?] ?].
  - rewrite (Hread path w0 w). destruct (readFile path w) as [x w1]. simpl.
    specialize (IH x w1). by destruct (run (k x) w1) as [[? ?] ?].
  - rewrite (Hdelete o r i w0 w). destruct (deleteReleaseAsset o r i w) as [x w1].
    simpl. specialize (IH x w1). by destruct (run (k x) w1) as [[? ?] ?].
  - rewrite (Hrequest req w0 w). destruct (request req w) as [x w1]. simpl.
    specialize (IH x w1). by destruct (run (k x) w1) as [[? ?] ?].
Qed.

Lemma respond_outcomeIn {A} (w0 : World) (t t' : Task A) (w w' : World) :
  respond t w = Some (t', w') → outcomeIn w0 t' = outcomeIn w0 t.
Proof.
  destruct answers as (Hread & Hdelete & Hrequest).
  destruct t as [a|e|m next|path k|o r i k|req k]; simpl; try done.
  - rewrite (Hread path w0 w). destruct (readFile path w). by intros [= <- <-].
  - rewrite (Hdelete o r i w0 w). destruct (deleteReleaseAsset o r i w).
    by intros [= <- <-].
  - rewrite (Hrequest req w0 w). destruct (request req w). by intros [= <- <-].
Qed.

Lemma finish_outcomeIn {A} (w0 : World) (t : Task A) (w : World) :
  snd (fst (finish t w)) = outcomeIn w0 t.
Proof.
  unfold finish. destruct (respond t w) as [[t' w']|] eqn:Hr.
  - rewrite (run_outcomeIn w0). by eapply respond_outcomeIn.
  - apply run_outcomeIn.
Qed.

Lemma step_outcomeIn {A} (w0 : World) (st : Exec A) (i : nat) :
  outcomeIn w0 <$> inFlight (step st i) = outcomeIn w0 <$> inFlight st.
Proof.
  unfold step. destruct (inFlight st !! i) as [t|] eqn:Hi; [|done].
  destruct (respond t (world st)) as [[t' w']|] eqn:Hr; [|done].
  pose proof (untilAwait_outcomeIn w0 t') as Hu.
  destruct (untilAwait t') as [evs t'']. simpl in *.
  rewrite list_fmap_insert, Hu, (respond_outcomeIn w0 _ _ _ _ Hr).
  apply list_insert_id. by rewrite list_lookup_fmap, Hi.
Qed.

Lemma drain_outcomeIn {A} (w0 : World) (tasks : list (Task A)) (w : World) :
  snd (fst (drain tasks w)) = outcomeIn w0 <$> tasks.
Proof.
  revert w. induction tasks as [|t rest IH]; intros w; [done|]. cbn [drain].
  pose proof (finish_outcomeIn w0 t w) as Hf.
  destruct (finish t w) as [[evs r] w1]. specialize (IH w1).
  destruct (drain rest w1) as [[evs' rs] w2]. cbn [fst snd] in *.
  rewrite fmap_cons. by f_equal.
Qed.

(** With answers that do not depend on the world, the outcomes that
    [Promise.allSettled] reports do not depend on the schedule. *)
Lemma allSettled_outcomeIn (w0 : World) schedule
    (tasks : list (Task ReleaseAsset)) (w : World) :
  snd (fst (allSettled schedule tasks w)) = settle <$> (outcomeIn w0 <$> tasks).
Proof.
  unfold allSettled.
  pose proof (startAll_outcomeIn w0 tasks) as Hstart.
  destruct (startAll tasks) as [evs0 parked]. simpl in Hstart.
  assert (∀ st : Exec ReleaseAsset,
            outcomeIn w0 <$> inFlight (foldl step st schedule)
            = outcomeIn w0 <$> inFlight st) as Hsteps.
  { induction schedule as [|i schedule IH]; intros st; simpl; [done|].
    by rewrite IH, step_outcomeIn. }
  specialize (Hsteps {| inFlight := parked; world := w; trace := evs0 |}).
  simpl in Hsteps.
  set (st := foldl step _ schedule) in *.
  pose proof (drain_outcomeIn w0 (inFlight st) (world st)) as Hdrain.
  destruct (drain (inFlight st) (world st)) as [[evs1 rs] w']. simpl in *.
  by rewrite Hdrain, Hsteps, Hstart.
Qed.

Lemma modifyReleaseAssets_any_schedule args schedule schedule' (w : World) :
  snd (fst (modifyReleaseAssets args schedule w))
  = snd (fst (modifyReleaseAssets args schedule' w)).
Proof.
  unfold modifyReleaseAssets.
  destruct (findAssets (config_assets args)) as [evs [e|desiredAssets]]; [done|].
  destruct (bool_decide (length (release_assets args) < 1)
            && bool_decide (length desiredAssets < 1)); [done|].
  set (tasks := (_ <$> toUpload _) ++ (_ <$> toUpdate _)).
  pose proof (allSettled_outcomeIn w schedule tasks w) as H1.
  pose proof (allSettled_outcomeIn w schedule' tasks w) as H2.
  destruct (allSettled schedule tasks w) as [[evs1 rs1] w1],
           (allSettled schedule' tasks w) as [[evs2 rs2] w2].
  simpl in *. by rewrite H1, H2.
Qed.

End Completion.

Section Determinism.
Context `{Platform}.

Lemma compareApiAsset_consistent :
  ConsistentComparator localeCompare → ConsistentComparator compareApiAsset.
Proof.
  intros [Hsign Htrans]. split; unfold compareApiAsset.
  - intros a b. apply Hsign.
  - intros a b c. apply Htrans.
Qed.

(** Whatever a pass reports is the aggregate of two batches of
    outcomes. *)
Lemma modifyReleaseAssets_reports_aggregate args schedule (w : World) ok reported :
  snd (fst (modifyReleaseAssets args schedule w)) = inr (ok, reported) →
  ∃ uploadResults updateResults,
    (ok, reported) = aggregate uploadResults updateResults.
Proof.
  unfold modifyReleaseAssets.
  destruct (findAssets (config_assets args)) as [evs [e|desiredAssets]]; [done|].
  destruct (bool_decide (length (release_assets args) < 1)
            && bool_decide (length desiredAssets < 1)).
  - intros [= <- <-]. by exists [], [].
  - destruct (allSettled schedule _ w) as [[evs' results] w'].
    cbn [fst snd]. intros [= <- <-]. by eexists _, _.
Qed.

(** C5. With a comparator that is consistent, as the sort requires of
    it: whatever the two batches of outcomes, the reported list is sorted
    by name under [localeCompare], and it is the stable sort of the
    fulfilled assets of the two batches: a rearrangement of them in which
    the assets whose names compare equal keep their order; two pairs of
    batches with the same fulfilled assets, arriving in whatever order
    and in whichever batch, give the same list as soon as [localeCompare]
    tells the names of these assets apart; two pairs of batches with the
    same fulfilled names, on whatever assets, give lists with the same
    names in the same order; with capabilities whose answers do not
    depend on the moment of the call, the result of the pass is the same
    under every order of completion of the operations; and with whatever
    capabilities, the list a pass reports is sorted, and two runs of the
    pass, under whatever orders of completion, that succeed with the
    same names report them in the same order; with whatever comparator,
    batches that hold the same fulfilled names at the same places, as
    the batches of a pass do whatever the order of completion, give
    lists with the same names in the same order. *)
Theorem report_sorted_whatever_completion_order :
  ConsistentComparator localeCompare →
  (∀ uploadResults updateResults,
     sortedBy compareApiAsset (snd (aggregate uploadResults updateResults)))
  ∧ (∀ uploadResults updateResults uploadResults' updateResults',
       fulfilledValues uploadResults ++ fulfilledValues updateResults
         ≡ₚ fulfilledValues uploadResults' ++ fulfilledValues updateResults' →
       (∀ a b, Fulfilled a ∈ uploadResults ++ updateResults →
               Fulfilled b ∈ uploadResults ++ updateResults →
               localeCompare (assetName a) (assetName b) = 0%Z → a = b) →
       snd (aggregate uploadResults updateResults)
       = snd (aggregate uploadResults' updateResults'))
  ∧ (answersIgnoreWorld →
     ∀ args schedule schedule' w,
       snd (fst (modifyReleaseAssets args schedule w))
       = snd (fst (modifyReleaseAssets args schedule' w)))
  ∧ (∀ uploadResults updateResults,
       snd (aggregate uploadResults updateResults)
         ≡ₚ fulfilledValues uploadResults ++ fulfilledValues updateResults
       ∧ ∀ z, filter (λ y, compareApiAsset z y = 0%Z)
                (snd (aggregate uploadResults updateResults))
              = filter (λ y, compareApiAsset z y = 0%Z)
                  (fulfilledValues uploadResults ++ fulfilledValues updateResults))
  ∧ (∀ uploadResults updateResults uploadResults' updateResults',
       assetName <$> fulfilledValues uploadResults ++ fulfilledValues updateResults
         ≡ₚ assetName
              <$> fulfilledValues uploadResults' ++ fulfilledValues updateResults' →
       (∀ a b, Fulfilled a ∈ uploadResults ++ updateResults →
               Fulfilled b ∈ uploadResults ++ updateResults →
               localeCompare (assetName a) (assetName b) = 0%Z →
               assetName a = assetName b) →
       assetName <$> snd (aggregate uploadResults updateResults)
       = assetName <$> snd (aggregate uploadResults' updateResults'))
  ∧ (∀ args schedule schedule' (w w' : World) ok ok' reported reported',
       snd (fst (modifyReleaseAssets args schedule w)) = inr (ok, reported) →
       snd (fst (modifyReleaseAssets args schedule' w')) = inr (ok', reported') →
       sortedBy compareApiAsset reported
       ∧ (assetName <$> reported ≡ₚ assetName <$> reported' →
          (∀ a b, a ∈ reported → b ∈ reported →
                  localeCompare (assetName a) (assetName b) = 0%Z →
                  assetName a = assetName b) →
          assetName <$> reported = assetName <$> reported'))
  ∧ (∀ uploadResults updateResults uploadResults' updateResults',
       assetName <$> fulfilledValues uploadResults ++ fulfilledValues updateResults
       = assetName <$> fulfilledValues uploadResults' ++ fulfilledValues updateResults' →
       assetName <$> snd (aggregate uploadResults updateResults)
       = assetName <$> snd (aggregate uploadResults' updateResults')).
Proof.
  intros Hl. pose proof (compareApiAsset_consistent Hl) as Hc. split_and!.
  - intros U V. rewrite aggregate_spec. simpl. by apply sortBy_sorted.
  - intros U V U' V' Hp Hsep. rewrite !aggregate_spec. simpl.
    apply sortBy_perm_invariant; [done| |done].
    intros a b Ha Hb. apply Hsep.
    + apply elem_of_app in Ha as [?%elem_of_fulfilledValues|?%elem_of_fulfilledValues];
        apply elem_of_app; auto.
    + apply elem_of_app in Hb as [?%elem_of_fulfilledValues|?%elem_of_fulfilledValues];
        apply elem_of_app; auto.
  - intros Hanswers args schedule schedule' w.
    by apply modifyReleaseAssets_any_schedule.
  - intros U V. rewrite aggregate_spec. cbn [snd]. split.
    + apply sortBy_Permutation.
    + intros z. by apply sortBy_stable.
  - intros U V U' V' Hp Hsep. rewrite !aggregate_spec. cbn [snd].
    unfold compareApiAsset. rewrite !(sortBy_fmap assetName localeCompare).
    apply sortBy_perm_invariant; [done| |done].
    intros x y (a & -> & Ha)%list_elem_of_fmap (b & -> & Hb)%list_elem_of_fmap.
    apply Hsep.
    + apply elem_of_app in Ha as [?%elem_of_fulfilledValues|?%elem_of_fulfilledValues];
        apply elem_of_app; auto.
    + apply elem_of_app in Hb as [?%elem_of_fulfilledValues|?%elem_of_fulfilledValues];
        apply elem_of_app; auto.
  - intros args schedule schedule' w w' ok ok' reported reported' Hrun Hrun'.
    destruct (modifyReleaseAssets_reports_aggregate _ _ _ _ _ Hrun)
      as (U & V & Hagg).
    destruct (modifyReleaseAssets_reports_aggregate _ _ _ _ _ Hrun')
      as (U' & V' & Hagg').
    assert (sortedBy compareApiAsset reported) as Hsorted.
    { replace reported with (snd (aggregate U V)) by (by rewrite <- Hagg).
      rewrite aggregate_spec. by apply sortBy_sorted. }
    assert (sortedBy compareApiAsset reported') as Hsorted'.
    { replace reported' with (snd (aggregate U' V')) by (by rewrite <- Hagg').
      rewrite aggregate_spec. by apply sortBy_sorted. }
    split; [done|]. intros Hp Hsep.
    apply (sortedBy_unique localeCompare Hl); [|by apply sortedBy_fmap..|done].
    intros x y (a & -> & Ha)%list_elem_of_fmap (b & -> & Hb)%list_elem_of_fmap.
    by apply Hsep.
  - intros U V U' V' Hnames. rewrite !aggregate_spec. cbn [snd].
    unfold compareApiAsset. rewrite !(sortBy_fmap assetName localeCompare).
    by rewrite Hnames.
Qed.

End Determinism.

(** ** The statements on the small platform *)

Lemma compare_not_Gt_trans (a b c : string) :
  String.compare a b ≠ Gt → String.compare b c ≠ Gt → String.compare a c ≠ Gt.
Proof.
  revert b c. induction a as [|x a IH]; intros [|y b] [|z c]; simpl; try done.
  unfold Ascii.compare.
  destruct (N.compare_spec (Ascii.N_of_ascii x) (Ascii.N_of_ascii y)) as [Hxy|Hxy|Hxy],
           (N.compare_spec (Ascii.N_of_ascii y) (Ascii.N_of_ascii z)) as [Hyz|Hyz|Hyz],
           (N.compare_spec (Ascii.N_of_ascii x) (Ascii.N_of_ascii z)) as [Hxz|Hxz|Hxz];
    try done; try lia.
  apply IH.
Qed.

Lemma codeUnitCompare_consistent : ConsistentComparator codeUnitCompare.
Proof.
  split.
  - intros a b. unfold codeUnitCompare. rewrite (String.compare_antisym b a).
    destruct (String.compare a b); simpl; lia.
  - intros a b c. unfold codeUnitCompare.
    pose proof (compare_not_Gt_trans a b c) as Ht.
    destruct (String.compare a b), (String.compare b c), (String.compare a c);
      try lia; intros _ _; exfalso; by apply Ht.
Qed.

Lemma demo_answersIgnoreWorld : @answersIgnoreWorld demo.
Proof.
  split_and!; simpl.
  - intros path w w'. by destruct (String.eqb _ _).
  - intros o r i w w'. by destruct (Z.eqb _ _).
  - intros req w w'. by destruct (String.eqb _ _).
Qed.

(** One upload fulfilled, one rejected, the update fulfilled: the report
    holds the two fulfilled assets. *)
Lemma aggregate_reports_exactly_successes_witness :
  snd (@aggregate demo
         [Fulfilled (demoRemote 1 "b.1.json");
          Rejected (RemoteOperationFailure "HTTP 422")]
         [Fulfilled (demoRemote 2 "a.txt")])
  ≡ₚ [demoRemote 1 "b.1.json"; demoRemote 2 "a.txt"].
Proof.
  exact (proj1 (proj2 (@aggregate_reports_exactly_successes demo
           [Fulfilled (demoRemote 1 "b.1.json");
            Rejected (RemoteOperationFailure "HTTP 422")]
           [Fulfilled (demoRemote 2 "a.txt")]))).
Defined.

(** The scenario of the diff: [a.txt] is replaced, [A.TXT] and [b.json]
    are new. *)
Lemma diffAssets_partitions_desired_witness :
  [mkDesiredAsset EmptyString "a.txt" "a.txt";
   mkDesiredAsset EmptyString "A.TXT" "A.TXT";
   mkDesiredAsset EmptyString "b.json" "b.json"]
  ≡ₚ toUpload (diffAssets [demoRemote 7 "a.txt"; demoRemote 8 "z.txt"]
                 [mkDesiredAsset EmptyString "a.txt" "a.txt";
                  mkDesiredAsset EmptyString "A.TXT" "A.TXT";
                  mkDesiredAsset EmptyString "b.json" "b.json"])
     ++ (snd <$> toUpdate (diffAssets [demoRemote 7 "a.txt"; demoRemote 8 "z.txt"]
                 [mkDesiredAsset EmptyString "a.txt" "a.txt";
                  mkDesiredAsset EmptyString "A.TXT" "A.TXT";
                  mkDesiredAsset EmptyString "b.json" "b.json"])).
Proof.
  exact (proj1 (proj2 (proj2 (proj2 (diffAssets_partitions_desired
           [demoRemote 7 "a.txt"; demoRemote 8 "z.txt"]
           [mkDesiredAsset EmptyString "a.txt" "a.txt";
            mkDesiredAsset EmptyString "A.TXT" "A.TXT";
            mkDesiredAsset EmptyString "b.json" "b.json"]))))).
Defined.

(** A mandatory pattern that only matches a directory stops the pass; an
    optional pattern without files does not change it. *)
Lemma missing_asset_mandatory_vs_optional_witness :
  (∃ evs first,
     @modifyReleaseAssets demo demoArgsMissing [0; 1] 0%Z
     = (evs, inl (MandatoryArtifactNotFound (cfg_path first)), 0%Z)
     ∧ first ∈ config_assets demoArgsMissing
     ∧ @matchedPaths demo (cfg_path first) = []
     ∧ cfg_optional first = false
     ∧ Forall (λ ev, ¬ invokesCapability ev) evs)
  ∧ @findAsset demo (mkAssetConfig "c.txt" None None true)
    = ([Info (MsgOptionalNotFound "c.txt")], inr []).
Proof.
  split.
  - refine (proj1 (@missing_asset_mandatory_vs_optional demo demoArgsMissing
                     (mkAssetConfig "dist*" None None false) _ _) eq_refl [0; 1] 0%Z).
    + right. left.
    + intros path Hpath. simpl in Hpath.
      apply list_elem_of_singleton in Hpath. by rewrite Hpath.
  - refine (proj1 (proj2 (@missing_asset_mandatory_vs_optional demo demoArgs
                     (mkAssetConfig "c.txt" None None true) _ _) eq_refl)).
    + right. right. left.
    + intros path Hpath. simpl in Hpath. by apply elem_of_nil in Hpath.
Defined.

(** Asset 13 cannot be deleted on the small platform: the update of it
    reads no file and requests no upload. *)
Lemma updateAsset_deletes_then_uploads_witness :
  Forall (λ ev, (∀ path, ev ≠ InvokeReadFile path) ∧ (∀ req, ev ≠ InvokeRequest req))
         (fst (fst (@run demo _
                      (@updateAsset demo demoArgs (demoRemote 13 "a.txt")
                         (mkDesiredAsset EmptyString "a.txt" "a.txt")) 0%Z))).
Proof.
  exact (proj2 (proj2 (proj2 (@updateAsset_deletes_then_uploads demo demoArgs
           (demoRemote 13 "a.txt") (mkDesiredAsset EmptyString "a.txt" "a.txt") 0%Z)))
           "HTTP 403" eq_refl).
Defined.

Lemma codeUnitCompare_separates (a b : string) : codeUnitCompare a b = 0%Z → a = b.
Proof.
  unfold codeUnitCompare. destruct (String.compare a b) eqn:Hcmp; [|done..].
  intros _. by apply String.compare_eq_iff.
Qed.

(** On the small platform the comparator is consistent and the answers
    do not depend on the world: the report is sorted, the same for the
    outcomes in another order, and the same for another schedule. On the
    host that numbers the uploads as they arrive the answers do depend
    on the moment of the call: the names are still reported in the same
    order under two schedules. *)
Lemma report_sorted_whatever_completion_order_witness :
  sortedBy (@compareApiAsset demo)
    (snd (@aggregate demo [Fulfilled (demoRemote 1 "b.1.json")]
            [Fulfilled (demoRemote 2 "a.txt")]))
  ∧ snd (@aggregate demo [Fulfilled (demoRemote 1 "b.1.json")]
           [Fulfilled (demoRemote 2 "a.txt")])
    = snd (@aggregate demo [Fulfilled (demoRemote 2 "a.txt")]
             [Fulfilled (demoRemote 1 "b.1.json")])
  ∧ snd (fst (@modifyReleaseAssets demo demoArgs [2; 0; 1; 1; 2] 0%Z))
    = snd (fst (@modifyReleaseAssets demo demoArgs [] 0%Z))
  ∧ assetName <$> arrivalReported [] = assetName <$> arrivalReported [1; 1].
Proof.
  destruct (@report_sorted_whatever_completion_order demo codeUnitCompare_consistent)
    as (Hsorted & Hperm & Hschedule & _).
  destruct (@report_sorted_whatever_completion_order arrivalPlatform
              codeUnitCompare_consistent)
    as (_ & _ & _ & _ & _ & Hruns & _).
  split_and!.
  - apply Hsorted.
  - apply Hperm.
    + apply Permutation_swap.
    + intros a b Ha Hb. simpl in Ha, Hb.
      rewrite elem_of_cons, list_elem_of_singleton in Ha.
      rewrite elem_of_cons, list_elem_of_singleton in Hb.
      destruct Ha as [Ha|Ha], Hb as [Hb|Hb];
        injection Ha as ->; injection Hb as ->; simpl; intros Hcmp;
        (reflexivity || discriminate Hcmp).
  - apply Hschedule. exact demo_answersIgnoreWorld.
  - refine (proj2 (Hruns demoArgs [] [1; 1] 0%Z 0%Z true true
                     (arrivalReported []) (arrivalReported [1; 1])
                     eq_refl eq_refl) _ _).
    + apply Permutation_refl.
    + intros a b _ _. apply codeUnitCompare_separates.
Defined.

(** A single file with both overrides, and the family of two files whose
    descriptor has overrides too. *)
Lemma findAsset_overrides_single_match_only_witness :
  (∃ a, @findAsset demo (mkAssetConfig "a.txt" (Some "notes.txt") (Some "Notes") false)
        = ([], inr [a])
     ∧ desired_name a = "notes.txt" ∧ desired_label a = "Notes")
  ∧ @findAsset demo (mkAssetConfig "b.*.json" (Some "bundle.json") (Some "Bundle") false)
    = ([], inr [mkDesiredAsset EmptyString "b.1.json" "b.1.json";
                mkDesiredAsset EmptyString "b.2.json" "b.2.json"]).
Proof.
  split.
  - destruct (proj1 (@findAsset_overrides_single_match_only demo
                (mkAssetConfig "a.txt" (Some "notes.txt") (Some "Notes") false))
                "a.txt" eq_refl) as (a & Ha & _ & Hname & _ & Hlabel & _).
    exists a. split_and!; [exact Ha| |by apply Hlabel].
    apply Hname; [done|]. intros Hempty. discriminate Hempty.
  - refine (proj2 (@findAsset_overrides_single_match_only demo
              (mkAssetConfig "b.*.json" (Some "bundle.json") (Some "Bundle") false)) _).
    simpl. lia.
Defined.

(** A name of the descriptor is not applied whenever it is present: for
    the empty string the single match [a.txt] keeps its base name. *)
Lemma findAsset_empty_name_counterexample :
  ¬ (∀ (asset : AssetConfig) (path : string) (a : DesiredAsset),
       @matchedPaths demo (cfg_path asset) = [path] →
       @findAsset demo asset = ([], inr [a]) →
       ∀ n, cfg_name asset = Some n → desired_name a = n).
Proof.
  intros Hclaim.
  specialize (Hclaim (mkAssetConfig "a.txt" (Some EmptyString) None false) "a.txt"
                _ eq_refl eq_refl EmptyString eq_refl).
  discriminate Hclaim.
Qed.

(** [a.txt] found three times, in two spellings, among other files. *)
Lemma dedupe_keeps_first_occurrences_witness :
  @dedupe demo
    [mkDesiredAsset EmptyString "a.txt" "a.txt";
     mkDesiredAsset EmptyString "A.txt" "build/A.txt";
     mkDesiredAsset EmptyString "b.json" "b.json";
     mkDesiredAsset EmptyString "a.TXT" "out/a.TXT"]
  = ([Warning (MsgFoundMultipleTimes "A.txt"); Warning (MsgFoundMultipleTimes "a.TXT")],
     inr [mkDesiredAsset EmptyString "a.txt" "a.txt";
          mkDesiredAsset EmptyString "b.json" "b.json"]).
Proof.
  exact (proj1 (@dedupe_keeps_first_occurrences demo
           [mkDesiredAsset EmptyString "a.txt" "a.txt";
            mkDesiredAsset EmptyString "A.txt" "build/A.txt";
            mkDesiredAsset EmptyString "b.json" "b.json";
            mkDesiredAsset EmptyString "a.TXT" "out/a.TXT"])).
Defined.

(** [README.md] and [readme.MD] differ in case only: the second can be
    struck from the input, and of the two the result holds the first. *)
Lemma dedupe_idempotent_witness :
  snd (@dedupe demo
         [mkDesiredAsset EmptyString "README.md" "README.md";
          mkDesiredAsset EmptyString "b.json" "b.json";
          mkDesiredAsset EmptyString "readme.MD" "docs/readme.MD"])
  = snd (@dedupe demo
           [mkDesiredAsset EmptyString "README.md" "README.md";
            mkDesiredAsset EmptyString "b.json" "b.json"])
  ∧ filter (λ b, @toLowerCase demo (desired_name b) = @toLowerCase demo "README.md")
      (returned (@dedupe demo
         [mkDesiredAsset EmptyString "README.md" "README.md";
          mkDesiredAsset EmptyString "b.json" "b.json";
          mkDesiredAsset EmptyString "readme.MD" "docs/readme.MD"]))
    = [mkDesiredAsset EmptyString "README.md" "README.md"].
Proof.
  destruct (@dedupe_idempotent demo
              [mkDesiredAsset EmptyString "README.md" "README.md";
               mkDesiredAsset EmptyString "b.json" "b.json";
               mkDesiredAsset EmptyString "readme.MD" "docs/readme.MD"])
    as (_ & _ & Hstruck & Hfirst & _).
  split.
  - exact (Hstruck [] (mkDesiredAsset EmptyString "README.md" "README.md")
             [mkDesiredAsset EmptyString "b.json" "b.json"]
             (mkDesiredAsset EmptyString "readme.MD" "docs/readme.MD") []
             eq_refl eq_refl).
  - refine (proj2 (Hfirst [] (mkDesiredAsset EmptyString "README.md" "README.md")
                     [mkDesiredAsset EmptyString "b.json" "b.json";
                      mkDesiredAsset EmptyString "readme.MD" "docs/readme.MD"]
                     eq_refl _)).
    intros b Hb. inversion Hb.
Defined.

(** Nothing on the release, one optional pattern without files. *)
Lemma nothing_to_modify_returns_at_once_witness :
  @modifyReleaseAssets demo demoArgsEmpty [0; 1] 5%Z
  = ([Info (MsgOptionalNotFound "c.txt"); Info MsgNoAssetsToModify],
     inr (true, []), 5%Z).
Proof.
  exact (proj1 (@nothing_to_modify_returns_at_once demo demoArgsEmpty [0; 1] 5%Z
                  [Info (MsgOptionalNotFound "c.txt")] eq_refl eq_refl)).
Defined.

(** [a.txt] with the empty string for a name. *)
Lemma findAsset_empty_name_is_no_override_witness :
  @findAsset demo (mkAssetConfig "a.txt" (Some EmptyString) (Some "Notes") false)
  = ([], inr [mkDesiredAsset "Notes" "a.txt" "a.txt"]).
Proof.
  exact (proj1 (@findAsset_empty_name_is_no_override demo
                  (mkAssetConfig "a.txt" (Some EmptyString) (Some "Notes") false)
                  "a.txt" eq_refl eq_refl)).
Defined.

(** ** Where the reported assets come from *)

Section Provenance.
Context `{Platform}.

Lemma uploadAsset_announces args desired : AnnouncesUpload (uploadAsset args desired).
Proof.
  unfold uploadAsset. constructor. intros [reason|data]; [constructor|].
  constructor. constructor. intros [reason|apiAsset]; constructor.
Qed.

Lemma updateAsset_announces args existing desired :
  AnnouncesUpload (updateAsset args existing desired).
Proof.
  unfold updateAsset, deleteAsset. cbn [andThen]. constructor. constructor.
  intros [reason|[]]; cbn [andThen]; [constructor|apply uploadAsset_announces].
Qed.

Lemma accountedFor_mono tr tr' t :
  accountedFor tr t → accountedFor (tr ++ tr') t.
Proof.
  intros [Ha|(name & v & -> & Hin)]; [by left|].
  right. exists name, v. split; [done|]. apply elem_of_app. by left.
Qed.

Lemma untilAwait_announces t :
  AnnouncesUpload t → accountedFor (fst (untilAwait t)) (snd (untilAwait t)).
Proof.
  induction 1 as [e|name v|m next Hnext IH|path k Hk IH|o rp i k Hk IH|req k Hk IH];
    simpl.
  - left. constructor.
  - right. exists name, v. split; [done|]. left.
  - destruct (untilAwait next) as [evs parked]. simpl in *.
    destruct IH as [Ha|(name & v & -> & Hin)]; [by left|].
    right. exists name, v. split; [done|]. by right.
  - left. by constructor.
  - left. by constructor.
  - left. by constructor.
Qed.

Lemma respond_announces t w t' w' :
  AnnouncesUpload t → respond t w = Some (t', w') → AnnouncesUpload t'.
Proof.
  destruct 1 as [e|name v|m next Hnext|path k Hk|o rp i k Hk|req k Hk]; simpl;
    try done.
  - destruct (readFile path w). intros [= <- <-]. apply Hk.
  - destruct (deleteReleaseAsset o rp i w). intros [= <- <-]. apply Hk.
  - destruct (request req w). intros [= <- <-]. apply Hk.
Qed.

Lemma run_announces t w v :
  AnnouncesUpload t → snd (fst (run t w)) = inr v →
  ∃ name, Info (MsgUploaded name v) ∈ fst (fst (run t w)).
Proof.
  intros Ha. revert w.
  induction Ha as [e|name v'|m next Hnext IH|path k Hk IH|o rp i k Hk IH|req k Hk IH];
    intros w; simpl.
  - done.
  - intros [= ->]. exists name. left.
  - specialize (IH w). destruct (run next w) as [[evs r] w']. simpl in *.
    intros Hr. destruct (IH Hr) as [name Hin]. exists name. by right.
  - destruct (readFile path w) as [x w1]. specialize (IH x w1).
    destruct (run (k x) w1) as [[evs r] w']. simpl in *.
    intros Hr. destruct (IH Hr) as [name Hin]. exists name. by right.
  - destruct (deleteReleaseAsset o rp i w) as [x w1]. specialize (IH x w1).
    destruct (run (k x) w1) as [[evs r] w']. simpl in *.
    intros Hr. destruct (IH Hr) as [name Hin]. exists name. by right.
  - destruct (request req w) as [x w1]. specialize (IH x w1).
    destruct (run (k x) w1) as [[evs r] w']. simpl in *.
    intros Hr. destruct (IH Hr) as [name Hin]. exists name. by right.
Qed.

Lemma finish_accounted tr t w v :
  accountedFor tr t → snd (fst (finish t w)) = inr v →
  ∃ name, Info (MsgUploaded name v) ∈ tr ++ fst (fst (finish t w)).
Proof.
  intros [Ha|(name & v' & -> & Hin)].
  - unfold finish. destruct (respond t w) as [[t' w']|] eqn:Hr.
    + intros Hv. destruct (run_announces t' w' v) as [name Hin]; [|done|].
      * by eapply respond_announces.
      * exists name. apply elem_of_app. by right.
    + intros Hv. destruct (run_announces t w v Ha Hv) as [name Hin].
      exists name. apply elem_of_app. by right.
  - unfold finish. simpl. intros [= ->]. exists name. apply elem_of_app. by left.
Qed.

Lemma startAll_accounted (tasks : list (Task ReleaseAsset)) :
  Forall AnnouncesUpload tasks →
  Forall (accountedFor (fst (startAll tasks))) (snd (startAll tasks)).
Proof.
  induction 1 as [|t rest Ht Hrest IH]; [constructor|]. cbn [startAll].
  pose proof (untilAwait_announces t Ht) as Hu.
  destruct (untilAwait t) as [evs parked], (startAll rest) as [evs' rest'].
  cbn [fst snd] in *. constructor; [by apply accountedFor_mono|].
  eapply Forall_impl; [exact IH|]. intros p [Ha|(name & v & -> & Hin)]; [by left|].
  right. exists name, v. split; [done|]. apply elem_of_app. by right.
Qed.

Lemma step_accounted (st : Exec ReleaseAsset) (i : nat) :
  Forall (accountedFor (trace st)) (inFlight st) →
  Forall (accountedFor (trace (step st i))) (inFlight (step st i)).
Proof.
  intros Hinv. unfold step. destruct (inFlight st !! i) as [t|] eqn:Hi; [|done].
  destruct (respond t (world st)) as [[t' w']|] eqn:Hr; [|done].
  pose proof (Forall_lookup_1 _ _ _ _ Hinv Hi) as Ht.
  assert (AnnouncesUpload t') as Ht'.
  { destruct Ht as [Ha|(name & v & -> & _)]; [by eapply respond_announces|done]. }
  pose proof (untilAwait_announces t' Ht') as Hu.
  destruct (untilAwait t') as [evs parked]. cbn [fst snd inFlight trace] in *.
  apply Forall_insert.
  - eapply Forall_impl; [exact Hinv|]. intros p. apply accountedFor_mono.
  - destruct Hu as [Ha|(name & v & -> & Hin)]; [by left|].
    right. exists name, v. split; [done|]. apply elem_of_app. by right.
Qed.

Lemma drain_accounted tr (tasks : list (Task ReleaseAsset)) (w : World) v :
  Forall (accountedFor tr) tasks →
  inr v ∈ snd (fst (drain tasks w)) →
  ∃ name, Info (MsgUploaded name v) ∈ tr ++ fst (fst (drain tasks w)).
Proof.
  intros Hinv. revert tr w Hinv.
  induction tasks as [|t rest IH]; intros tr w Hinv; cbn [drain].
  - simpl. by intros ?%elem_of_nil.
  - apply Forall_cons in Hinv as [Ht Hrest].
    pose proof (finish_accounted tr t w v Ht) as Hf.
    destruct (finish t w) as [[evs r] w1].
    specialize (IH (tr ++ evs) w1).
    destruct (drain rest w1) as [[evs' rs] w2]. cbn [fst snd] in *.
    intros [<-|Hin]%elem_of_cons.
    + destruct (Hf eq_refl) as [name Hname]. exists name.
      rewrite app_assoc. apply elem_of_app. by left.
    + rewrite app_assoc. apply IH; [|done].
      eapply Forall_impl; [exact Hrest|]. intros p. apply accountedFor_mono.
Qed.

(** Under every schedule, whatever asset [Promise.allSettled] reports as
    a fulfilled value was logged as uploaded on the way. *)
Lemma allSettled_accounted schedule (tasks : list (Task ReleaseAsset)) (w : World) v :
  Forall AnnouncesUpload tasks →
  Fulfilled v ∈ snd (fst (allSettled schedule tasks w)) →
  ∃ name, Info (MsgUploaded name v) ∈ fst (fst (allSettled schedule tasks w)).
Proof.
  intros Htasks. unfold allSettled.
  pose proof (startAll_accounted tasks Htasks) as Hstart.
  destruct (startAll tasks) as [evs0 parked]. cbn [fst snd] in Hstart.
  assert (∀ st : Exec ReleaseAsset,
            Forall (accountedFor (trace st)) (inFlight st) →
            Forall (accountedFor (trace (foldl step st schedule)))
                   (inFlight (foldl step st schedule))) as Hsteps.
  { induction schedule as [|i schedule IH]; intros st Hst; [done|].
    cbn [foldl]. by apply IH, step_accounted. }
  specialize (Hsteps {| inFlight := parked; world := w; trace := evs0 |} Hstart).
  set (st := foldl step _ schedule) in *.
  pose proof (drain_accounted (trace st) (inFlight st) (world st) v Hsteps) as Hdrain.
  destruct (drain (inFlight st) (world st)) as [[evs1 rs] w']. cbn [fst snd] in *.
  intros (r & Hr & Hin)%list_elem_of_fmap. apply Hdrain.
  destruct r as [e|v']; [done|]. by injection Hr as ->.
Qed.

(** X7. The pass reports no asset that an upload of this very pass did not
    return: each one was logged as uploaded, by a plain upload or by the
    upload of an update, before the pass returned. In particular an asset
    of the release that no operation touched is not reported. *)
Lemma reported_assets_were_uploaded args schedule (w : World) evs ok reported w' :
  modifyReleaseAssets args schedule w = (evs, inr (ok, reported), w') →
  ∀ a, a ∈ reported → ∃ name, Info (MsgUploaded name a) ∈ evs.
Proof.
  unfold modifyReleaseAssets.
  destruct (findAssets (config_assets args)) as [evs0 [e|desiredAssets]]; [done|].
  destruct (bool_decide (length (release_assets args) < 1)
            && bool_decide (length desiredAssets < 1)).
  { intros [= <- <- <- <-] a Ha. by apply elem_of_nil in Ha. }
  set (d := diffAssets (release_assets args) desiredAssets).
  set (tasks := (_ <$> toUpload d) ++ (_ <$> toUpdate d)).
  assert (Forall AnnouncesUpload tasks) as Htasks.
  { apply Forall_app. split; apply Forall_fmap, Forall_forall; intros x _.
    - apply uploadAsset_announces.
    - apply updateAsset_announces. }
  pose proof (allSettled_accounted schedule tasks w) as Hacc.
  destruct (allSettled schedule tasks w) as [[evs1 results] w1]. cbn [fst snd] in Hacc.
  rewrite aggregate_spec. intros [= <- <- <- <-] a Ha.
  rewrite sortBy_Permutation, elem_of_app, !elem_of_fulfilledValues in Ha.
  rewrite <- elem_of_app, take_drop in Ha.
  destruct (Hacc a Htasks Ha) as [name Hname].
  exists name. apply elem_of_app. right. do 2 right. apply elem_of_app. by left.
Qed.

End Provenance.

(** ** The scenarios of the specification on the small platform *)

(** [a.txt] is replaced and the two [b.*.json] files are uploaded; with
    every operation fulfilled the pass reports the three names in order,
    whatever the schedule. *)
Example scenario_all_fulfilled :
  match snd (fst (@modifyReleaseAssets demo demoArgs [2; 0; 1] 0%Z)) with
  | inr (ok, reported) => Some (ok, assetName <$> reported)
  | inl _ => None
  end
  = Some (true, ["a.txt"; "b.1.json"; "b.2.json"]).
Proof. reflexivity. Qed.

(** Three desired assets of which the second is refused by the host: the
    verdict is [false] and the two others are reported. *)
Example scenario_one_rejected :
  match snd (fst (@modifyReleaseAssets demo
                    {| config_assets :=
                         [ mkAssetConfig "b.1.json" None None false;
                           mkAssetConfig "a.txt" (Some "rejected") None false;
                           mkAssetConfig "b.2.json" None None false ];
                       owner := "eloquent";
                       repo := "github-release-action";
                       release_upload_url := "https://uploads.example.org/assets";
                       release_assets := [] |} [1; 1; 0] 0%Z)) with
  | inr (ok, reported) => Some (ok, assetName <$> reported)
  | inl _ => None
  end
  = Some (false, ["b.1.json"; "b.2.json"]).
Proof. reflexivity. Qed.

(** On the host that numbers the uploads as they arrive, the assets
    reported under two schedules have the same names in the same order
    and other ids. *)
Example scenario_ids_by_arrival :
  (assetName <$> arrivalReported [], assetId <$> arrivalReported [])
  = (["a.txt"; "b.1.json"; "b.2.json"], [2; 0; 1]%Z)
  ∧ (assetName <$> arrivalReported [1; 1], assetId <$> arrivalReported [1; 1])
    = (["a.txt"; "b.1.json"; "b.2.json"], [2; 1; 0]%Z).
Proof. split; reflexivity. Qed.

(** * Further properties of the asset engine *)

(** ** What the operations emit *)

Section Emission.
Context `{Platform}.

Lemma EmitsOnly_impl {A} (P Q : Event → Prop) (t : Task A) :
  (∀ ev, P ev → Q ev) → EmitsOnly P t → EmitsOnly Q t.
Proof. intros HPQ. induction 1; constructor; auto. Qed.

Lemma untilAwait_emits {A} P (t : Task A) :
  EmitsOnly P t →
  Forall P (fst (untilAwait t)) ∧ EmitsOnly P (snd (untilAwait t)).
Proof.
  induction 1 as [a|e|m next Hm Hnext IH|path k Hp Hk IH|o rp i k Hp Hk IH
                  |req k Hp Hk IH]; simpl.
  - split; constructor.
  - split; constructor.
  - destruct (untilAwait next) as [evs parked]. simpl in *.
    destruct IH as [Hevs Hparked]. split; [by constructor|done].
  - split; [by repeat constructor|by constructor].
  - split; [by repeat constructor|by constructor].
  - split; [by repeat constructor|by constructor].
Qed.

Lemma respond_emits {A} P (t t' : Task A) (w w' : World) :
  EmitsOnly P t → respond t w = Some (t', w') → EmitsOnly P t'.
Proof.
  destruct 1 as [a|e|m next Hm Hnext|path k Hp Hk|o rp i k Hp Hk|req k Hp Hk];
    simpl; try done.
  - destruct (readFile path w). intros [= <- <-]. apply Hk.
  - destruct (deleteReleaseAsset o rp i w). intros [= <- <-]. apply Hk.
  - destruct (request req w). intros [= <- <-]. apply Hk.
Qed.

Lemma run_emits {A} P (t : Task A) (w : World) :
  EmitsOnly P t → Forall P (fst (fst (run t w))).
Proof.
  intros Ht. revert w.
  induction Ht as [a|e|m next Hm Hnext IH|path k Hp Hk IH|o rp i k Hp Hk IH
                   |req k Hp Hk IH]; intros w; simpl.
  - constructor.
  - constructor.
  - specialize (IH w). destruct (run next w) as [[evs r] w']. by constructor.
  - destruct (readFile path w) as [x w1]. specialize (IH x w1).
    destruct (run (k x) w1) as [[evs r] w']. by constructor.
  - destruct (deleteReleaseAsset o rp i w) as [x w1]. specialize (IH x w1).
    destruct (run (k x) w1) as [[evs r] w']. by constructor.
  - destruct (request req w) as [x w1]. specialize (IH x w1).
    destruct (run (k x) w1) as [[evs r] w']. by constructor.
Qed.

Lemma finish_emits {A} P (t : Task A) (w : World) :
  EmitsOnly P t → Forall P (fst (fst (finish t w))).
Proof.
  intros Ht. unfold finish. destruct (respond t w) as [[t' w']|] eqn:Hr.
  - apply run_emits. by eapply respond_emits.
  - by apply run_emits.
Qed.

Lemma startAll_emits {A} P (tasks : list (Task A)) :
  Forall (EmitsOnly P) tasks →
  Forall P (fst (startAll tasks)) ∧ Forall (EmitsOnly P) (snd (startAll tasks)).
Proof.
  induction 1 as [|t rest Ht Hrest IH]; [by split; constructor|]. cbn [startAll].
  pose proof (untilAwait_emits P t Ht) as [Hevs Hparked].
  destruct (untilAwait t) as [evs parked], (startAll rest) as [evs' rest'].
  cbn [fst snd] in *. destruct IH as [IH1 IH2].
  split; [by apply Forall_app|by constructor].
Qed.

Lemma step_emits {A} P (st : Exec A) (i : nat) :
  Forall P (trace st) → Forall (EmitsOnly P) (inFlight st) →
  Forall P (trace (step st i)) ∧ Forall (EmitsOnly P) (inFlight (step st i)).
Proof.
  intros Htr Hin. unfold step. destruct (inFlight st !! i) as [t|] eqn:Hi; [|done].
  destruct (respond t (world st)) as [[t' w']|] eqn:Hr; [|done].
  pose proof (Forall_lookup_1 _ _ _ _ Hin Hi) as Ht.
  pose proof (untilAwait_emits P t' (respond_emits P _ _ _ _ Ht Hr)) as [Hevs Hparked].
  destruct (untilAwait t') as [evs parked]. cbn [fst snd inFlight trace] in *.
  split; [by apply Forall_app|by apply Forall_insert].
Qed.

Lemma drain_emits {A} P (tasks : list (Task A)) (w : World) :
  Forall (EmitsOnly P) tasks → Forall P (fst (fst (drain tasks w))).
Proof.
  intros Hin. revert w. induction Hin as [|t rest Ht Hrest IH]; intros w;
    cbn [drain]; [constructor|].
  pose proof (finish_emits P t w Ht) as Hf.
  destruct (finish t w) as [[evs r] w1]. specialize (IH w1).
  destruct (drain rest w1) as [[evs' rs] w2]. cbn [fst snd] in *.
  by apply Forall_app.
Qed.

(** Under every schedule the log of [Promise.allSettled] holds nothing
    but what its promises can emit. *)
Lemma allSettled_emits P schedule (tasks : list (Task ReleaseAsset)) (w : World) :
  Forall (EmitsOnly P) tasks → Forall P (fst (fst (allSettled schedule tasks w))).
Proof.
  intros Htasks. unfold allSettled.
  pose proof (startAll_emits P tasks Htasks) as [Hevs0 Hparked].
  destruct (startAll tasks) as [evs0 parked]. cbn [fst snd] in *.
  assert (∀ st : Exec ReleaseAsset,
            Forall P (trace st) → Forall (EmitsOnly P) (inFlight st) →
            Forall P (trace (foldl step st schedule))
            ∧ Forall (EmitsOnly P) (inFlight (foldl step st schedule))) as Hsteps.
  { induction schedule as [|i schedule IH]; intros st Htr Hin; [done|].
    cbn [foldl]. destruct (step_emits P st i Htr Hin). by apply IH. }
  destruct (Hsteps {| inFlight := parked; world := w; trace := evs0 |} Hevs0 Hparked)
    as [Htr Hin].
  set (st := foldl step _ schedule) in *.
  pose proof (drain_emits P (inFlight st) (world st) Hin) as Hdrain.
  destruct (drain (inFlight st) (world st)) as [[evs1 rs] w']. cbn [fst snd] in *.
  by apply Forall_app.
Qed.

Lemma uploadAsset_emits args desiredAssets desired :
  desired ∈ desiredAssets →
  EmitsOnly (operationEvent args desiredAssets) (uploadAsset args desired).
Proof.
  intros Hin. unfold uploadAsset. constructor; [by exists desired|].
  intros [reason|data]; [constructor|]. constructor; [done|].
  constructor.
  - simpl. split; [done|]. by exists desired.
  - intros [reason|apiAsset]; repeat constructor.
Qed.

Lemma updateAsset_emits args desiredAssets existing desired :
  existing ∈ release_assets args → desired ∈ desiredAssets →
  assetName existing = desired_name desired →
  EmitsOnly (operationEvent args desiredAssets) (updateAsset args existing desired).
Proof.
  intros He Hd Hname. unfold updateAsset, deleteAsset. cbn [andThen].
  constructor; [done|]. constructor.
  - simpl. split_and!; [done..|]. by exists existing, desired.
  - intros [reason|[]]; cbn [andThen]; [constructor|by apply uploadAsset_emits].
Qed.

(** The promises of a pass only do what [operationEvent] allows. *)
Lemma pass_tasks_emit args desiredAssets :
  Forall (EmitsOnly (operationEvent args desiredAssets))
    ((uploadAsset args <$> toUpload (diffAssets (release_assets args) desiredAssets))
       ++ ((λ p, updateAsset args (fst p) (snd p))
             <$> toUpdate (diffAssets (release_assets args) desiredAssets))).
Proof.
  rewrite diffAssets_spec. cbn [toUpload toUpdate].
  apply Forall_app. split; apply Forall_fmap, Forall_forall.
  - intros x (y & Hy & [-> _]%uploadOf_Some)%list_elem_of_omap.
    by apply uploadAsset_emits.
  - intros [e x] (y & Hy & [-> Hf]%updateOf_Some)%list_elem_of_omap.
    apply findExisting_Some in Hf as [He Hname]. by apply updateAsset_emits.
Qed.

End Emission.

(** ** The shape of a pass *)

Section PassShape.
Context `{Platform}.

Lemma modifyReleaseAssets_operating args schedule (w : World) evs desiredAssets :
  findAssets (config_assets args) = (evs, inr desiredAssets) →
  release_assets args ≠ [] ∨ desiredAssets ≠ [] →
  modifyReleaseAssets args schedule w
  = (let d := diffAssets (release_assets args) desiredAssets in
     let uploads := uploadAsset args <$> toUpload d in
     let updates := (λ p, updateAsset args (fst p) (snd p)) <$> toUpdate d in
     let settled := allSettled schedule (uploads ++ updates) w in
     let uploadResults := take (length uploads) (snd (fst settled)) in
     let updateResults := drop (length uploads) (snd (fst settled)) in
     (evs
        ++ [GroupStart "Modifying release assets";
            Info (MsgDiffCounts (length (toUpload d)) (length (toUpdate d)))]
        ++ fst (fst settled)
        ++ logResults (analyzeResults uploadResults) UploadBatch
        ++ logResults (analyzeResults updateResults) UpdateBatch
        ++ [GroupEnd],
      inr (aggregate uploadResults updateResults), snd settled)).
Proof.
  intros Hfound Hsome. unfold modifyReleaseAssets. rewrite Hfound.
  assert (bool_decide (length (release_assets args) < 1)
          && bool_decide (length desiredAssets < 1) = false) as ->.
  { apply andb_false_iff.
    destruct Hsome as [Hne|Hne]; [left|right]; apply bool_decide_eq_false_2;
      intros Hlen; apply Hne; apply length_zero_iff_nil; lia. }
  cbv zeta. by destruct (allSettled schedule _ w) as [[? ?] ?].
Qed.

Lemma modifyReleaseAssets_idle args schedule (w : World) evs :
  findAssets (config_assets args) = (evs, inr []) →
  release_assets args = [] →
  modifyReleaseAssets args schedule w
  = (evs ++ [Info MsgNoAssetsToModify], inr (true, []), w).
Proof. intros Hfound Hnone. unfold modifyReleaseAssets. by rewrite Hfound, Hnone. Qed.

Lemma pass_cases args evs desiredAssets :
  findAssets (config_assets args) = (evs, inr desiredAssets) →
  (release_assets args = [] ∧ desiredAssets = [])
  ∨ (release_assets args ≠ [] ∨ desiredAssets ≠ []).
Proof.
  intros _. destruct (release_assets args) as [|e l]; [|right; by left].
  destruct desiredAssets as [|d l]; [by left|right; by right].
Qed.

Lemma omap_loggedError_none (evs : list Event) :
  Forall (λ ev, loggedError ev = None) evs → omap loggedError evs = [].
Proof.
  induction 1 as [|ev evs Hev Hevs IH]; [done|].
  rewrite omap_unfold, Hev. done.
Qed.

Lemma omap_loggedError_fmap (reasons : list Error) :
  omap loggedError (ErrorLog <$> reasons) = reasons.
Proof. induction reasons as [|r l IH]; [done|]. rewrite fmap_cons, omap_unfold. simpl. by f_equal. Qed.

Lemma loggedError_logResults results kind :
  omap loggedError (logResults (analyzeResults results) kind) = rejectionReasons results.
Proof.
  unfold logResults. rewrite analyzeResults_spec. cbn [failureCount failureReasons
    successCount].
  case_bool_decide as Hcount.
  - rewrite !omap_app, omap_loggedError_fmap. simpl. by rewrite app_nil_r.
  - simpl. destruct (rejectionReasons results); [done|simpl in Hcount; lia].
Qed.

Lemma length_outcomes (results : list Settled) :
  length (fulfilledValues results) + length (rejectionReasons results) = length results.
Proof.
  induction results as [|[v|e] l IH]; [done|..]; unfold fulfilledValues, rejectionReasons in *;
    rewrite !omap_unfold; simpl; lia.
Qed.

Lemma operationEvent_no_error args desiredAssets ev :
  operationEvent args desiredAssets ev → loggedError ev = None.
Proof. by destruct ev. Qed.

Lemma discoveryEvent_no_error ev : isDiscoveryEvent ev → loggedError ev = None.
Proof. by intros [[p ->]|[n ->]]. Qed.

(** The books of a pass: its result is the aggregate of one outcome per
    desired asset, and the reasons it logged with [error] are the reasons
    of the rejected outcomes, uploads first. *)
Lemma pass_accounting args schedule (w : World) evs desiredAssets :
  findAssets (config_assets args) = (evs, inr desiredAssets) →
  ∃ uploadResults updateResults,
    snd (fst (modifyReleaseAssets args schedule w))
    = inr (aggregate uploadResults updateResults)
    ∧ length uploadResults
      = length (toUpload (diffAssets (release_assets args) desiredAssets))
    ∧ length updateResults
      = length (toUpdate (diffAssets (release_assets args) desiredAssets))
    ∧ omap loggedError (fst (fst (modifyReleaseAssets args schedule w)))
      = rejectionReasons uploadResults ++ rejectionReasons updateResults.
Proof.
  intros Hfound.
  assert (omap loggedError evs = []) as Hevs.
  { apply omap_loggedError_none.
    pose proof (findAssets_events (config_assets args)) as Hev.
    rewrite Hfound in Hev. eapply Forall_impl; [exact Hev|].
    apply discoveryEvent_no_error. }
  destruct (pass_cases _ _ _ Hfound) as [[Hnone ->]|Hsome].
  - exists [], []. rewrite (modifyReleaseAssets_idle _ _ _ _ Hfound Hnone).
    rewrite Hnone. cbn [fst snd]. split_and!; [done..|].
    by rewrite omap_app, Hevs.
  - rewrite (modifyReleaseAssets_operating _ _ _ _ _ Hfound Hsome). cbv zeta.
    set (d := diffAssets (release_assets args) desiredAssets).
    set (tasks := (_ <$> toUpload d) ++ (_ <$> toUpdate d)).
    pose proof (length_allSettled schedule tasks w) as Hlen.
    pose proof (allSettled_emits _ schedule tasks w (pass_tasks_emit args desiredAssets))
      as Hemits.
    destruct (allSettled schedule tasks w) as [[evs1 results] w1].
    cbn [fst snd] in *.
    unfold tasks in Hlen. rewrite length_app, !length_fmap in Hlen.
    eexists _, _. split_and!; [done| | |].
    + rewrite length_take, length_fmap. lia.
    + rewrite length_drop, length_fmap. lia.
    + rewrite !omap_app, Hevs, !loggedError_logResults. simpl.
      rewrite (omap_loggedError_none evs1); [by rewrite app_nil_r|].
      eapply Forall_impl; [exact Hemits|]. apply operationEvent_no_error.
Qed.

End PassShape.

Section PassFacts.
Context `{Platform}.

(** X1. The record [analyzeResults] returns is consistent, whatever the
    batch: the two counters add up to the number of outcomes, each
    counter is the length of its list, the lists are the fulfilled values
    and the rejection reasons in batch order, and [isSuccess] holds
    exactly when nothing was counted as a failure. *)
Theorem analyzeResults_counts (results : list Settled) :
  let result := analyzeResults results in
  successCount result + failureCount result = length results
  ∧ successCount result = length (assets result)
  ∧ failureCount result = length (failureReasons result)
  ∧ assets result = fulfilledValues results
  ∧ failureReasons result = rejectionReasons results
  ∧ (isSuccess result = true ↔ failureCount result = 0).
Proof.
  cbv zeta. rewrite analyzeResults_spec. simpl. split_and!; try done.
  - apply length_outcomes.
  - rewrite forallb_isFulfilled. split.
    + intros Hall. apply length_zero_iff_nil.
      destruct (rejectionReasons results) as [|e l] eqn:Hr; [done|].
      assert (e ∈ rejectionReasons results) as He by (rewrite Hr; left).
      apply list_elem_of_omap in He as (r & Hin & Hre).
      destruct (Hall r Hin) as [v ->]. done.
    + intros Hlen%length_zero_iff_nil r Hin. destruct r as [v|e]; [by eexists|].
      assert (e ∈ rejectionReasons results) as He.
      { apply list_elem_of_omap. by exists (Rejected e). }
      rewrite Hlen in He. by apply elem_of_nil in He.
Qed.

Lemma no_rejection_iff (results : list Settled) :
  forallb isFulfilled results = true ↔ rejectionReasons results = [].
Proof.
  unfold rejectionReasons.
  induction results as [|[v|e] l IH]; [done|..]; rewrite omap_unfold;
    cbn [forallb isFulfilled rejectionReason andb]; [exact IH|done].
Qed.

Lemma elem_of_loggedError (evs : list Event) reason :
  ErrorLog reason ∈ evs ↔ reason ∈ omap loggedError evs.
Proof.
  rewrite list_elem_of_omap. split.
  - intros Hin. by exists (ErrorLog reason).
  - intros (ev & Hin & Hev). destruct ev; simplify_eq/=. done.
Qed.

(** X2. Once discovery has returned, the pass returns too, under every
    schedule and whatever the capabilities answer: a file that cannot be
    read, a refused upload or a refused delete never makes it throw. Its
    verdict is [true] exactly when it logged no [error] line. *)
Theorem pass_verdict_iff_no_error_logged
    (args : Args) (schedule : list nat) (w : World)
    (evs : list Event) (desiredAssets : list DesiredAsset) :
  findAssets (config_assets args) = (evs, inr desiredAssets) →
  ∃ ok reported,
    snd (fst (modifyReleaseAssets args schedule w)) = inr (ok, reported)
    ∧ (ok = true
       ↔ ∀ reason, ErrorLog reason ∉ fst (fst (modifyReleaseAssets args schedule w))).
Proof.
  intros Hfound.
  destruct (pass_accounting args schedule w evs desiredAssets Hfound)
    as (U & V & Hresult & _ & _ & Herrors).
  rewrite aggregate_spec in Hresult. eexists _, _. split; [exact Hresult|].
  rewrite andb_true_iff, !no_rejection_iff. split.
  - intros [HU HV] reason Hin%elem_of_loggedError.
    rewrite Herrors, HU, HV in Hin. by apply elem_of_nil in Hin.
  - intros Hnone.
    assert (rejectionReasons U ++ rejectionReasons V = []) as Hnil.
    { rewrite <- Herrors.
      destruct (omap loggedError _) as [|reason l] eqn:Hl; [done|].
      destruct (Hnone reason). apply elem_of_loggedError. rewrite Hl. left. }
    by apply app_eq_nil in Hnil.
Qed.

(** X3. Every desired asset is accounted for: under every schedule the
    number of assets the pass reports plus the number of [error] lines it
    logged is the number of desired assets. *)
Theorem pass_accounts_for_every_desired_asset
    (args : Args) (schedule : list nat) (w : World)
    (evs : list Event) (desiredAssets : list DesiredAsset)
    (ok : bool) (reported : list ReleaseAsset) :
  findAssets (config_assets args) = (evs, inr desiredAssets) →
  snd (fst (modifyReleaseAssets args schedule w)) = inr (ok, reported) →
  length reported
  + length (omap loggedError (fst (fst (modifyReleaseAssets args schedule w))))
  = length desiredAssets.
Proof.
  intros Hfound Hresult.
  destruct (pass_accounting args schedule w evs desiredAssets Hfound)
    as (U & V & Hagg & HU & HV & Herrors).
  rewrite Hresult, aggregate_spec in Hagg. injection Hagg as _ ->.
  rewrite Herrors, sortBy_Permutation, !length_app.
  pose proof (length_outcomes U). pose proof (length_outcomes V).
  pose proof (diff_covers (release_assets args) desiredAssets) as Hcover.
  apply Permutation_length in Hcover.
  rewrite length_app, length_fmap in Hcover.
  rewrite diffAssets_spec in HU, HV. cbn [toUpload toUpdate] in HU, HV. lia.
Qed.

(** Every call of a capability in the log of a pass is one that
    [operationEvent] allows. *)
Lemma pass_capability_calls args schedule (w : World) evs desiredAssets ev :
  findAssets (config_assets args) = (evs, inr desiredAssets) →
  ev ∈ fst (fst (modifyReleaseAssets args schedule w)) →
  invokesCapability ev → operationEvent args desiredAssets ev.
Proof.
  intros Hfound Hin Hcall.
  assert (ev ∉ evs) as Hnot.
  { intros Hev. pose proof (findAssets_events (config_assets args)) as Hdisc.
    rewrite Hfound in Hdisc. cbn [fst] in Hdisc.
    eapply Forall_forall in Hdisc; [|exact Hev].
    destruct Hdisc as [[p ->]|[n ->]]; exact Hcall. }
  assert (∀ results kind, ev ∉ logResults (analyzeResults results) kind) as Hlog.
  { intros results kind. unfold logResults. case_bool_decide.
    - rewrite !elem_of_app, list_elem_of_fmap, !list_elem_of_singleton.
      intros [->|[(r & -> & _)| ->]]; exact Hcall.
    - rewrite list_elem_of_singleton. intros ->. exact Hcall. }
  destruct (pass_cases _ _ _ Hfound) as [[Hnone ->]|Hsome].
  - rewrite (modifyReleaseAssets_idle _ _ _ _ Hfound Hnone) in Hin. cbn [fst] in Hin.
    apply elem_of_app in Hin as [Hin|Hin%list_elem_of_singleton]; [done|].
    subst ev. destruct Hcall.
  - rewrite (modifyReleaseAssets_operating _ _ _ _ _ Hfound Hsome) in Hin.
    cbv zeta in Hin. cbn [fst] in Hin.
    pose proof (allSettled_emits _ schedule _ w (pass_tasks_emit args desiredAssets))
      as Hemits.
    rewrite !elem_of_app in Hin.
    destruct Hin as [Hin|[Hin|[Hin|[Hin|[Hin|Hin]]]]]; try done.
    + apply elem_of_cons in Hin as [->|Hin%list_elem_of_singleton]; [destruct Hcall|].
      subst ev. destruct Hcall.
    + by eapply Forall_forall in Hemits.
    + by apply Hlog in Hin.
    + by apply Hlog in Hin.
    + apply list_elem_of_singleton in Hin. subst ev. destruct Hcall.
Qed.

(** X4. The pass only ever deletes an asset of the release whose name is
    the name of a desired asset, in the repository it was given: under
    every schedule, each call of the delete capability carries [owner],
    [repo] and the id of such an asset. An asset of the release that no
    desired asset names is never deleted. *)
Theorem pass_deletes_only_replaced_assets
    (args : Args) (schedule : list nat) (w : World)
    (evs : list Event) (desiredAssets : list DesiredAsset)
    (o rp : string) (i : Z) :
  findAssets (config_assets args) = (evs, inr desiredAssets) →
  InvokeDeleteReleaseAsset o rp i ∈ fst (fst (modifyReleaseAssets args schedule w)) →
  o = owner args ∧ rp = repo args
  ∧ ∃ existing desired,
      existing ∈ release_assets args ∧ desired ∈ desiredAssets
      ∧ i = assetId existing ∧ assetName existing = desired_name desired.
Proof.
  intros Hfound Hin.
  exact (pass_capability_calls args schedule w evs desiredAssets _ Hfound Hin I).
Qed.

(** X5. Under every schedule, each upload request of the pass goes to
    the upload URL of the release and carries the name and the label of a
    desired asset and the content type looked up for its path, and each
    file the pass reads is the file of a desired asset. *)
Theorem pass_uploads_only_desired_assets
    (args : Args) (schedule : list nat) (w : World)
    (evs : list Event) (desiredAssets : list DesiredAsset) :
  findAssets (config_assets args) = (evs, inr desiredAssets) →
  (∀ req, InvokeRequest req ∈ fst (fst (modifyReleaseAssets args schedule w)) →
     req_url req = release_upload_url args
     ∧ ∃ desired, desired ∈ desiredAssets
         ∧ req_name req = desired_name desired
         ∧ req_label req = desired_label desired
         ∧ req_content_type req = mimeLookup (desired_path desired))
  ∧ (∀ path, InvokeReadFile path ∈ fst (fst (modifyReleaseAssets args schedule w)) →
       ∃ desired, desired ∈ desiredAssets ∧ path = desired_path desired).
Proof.
  intros Hfound. split.
  - intros req Hin.
    exact (pass_capability_calls args schedule w evs desiredAssets _ Hfound Hin I).
  - intros path Hin.
    exact (pass_capability_calls args schedule w evs desiredAssets _ Hfound Hin I).
Qed.

End PassFacts.

(** ** What a pass does first *)

Section FirstCalls.
Context `{Platform}.

Lemma respond_quiet {A} Q (t t' : Task A) (w w' : World) :
  QuietOnceAnswered Q t → respond t w = Some (t', w') → EmitsOnly Q t'.
Proof.
  destruct 1 as [t Ht|path k Hk|o rp i k Hk|req k Hk]; simpl.
  - by apply respond_emits.
  - destruct (readFile path w). intros [= <- <-]. apply Hk.
  - destruct (deleteReleaseAsset o rp i w). intros [= <- <-]. apply Hk.
  - destruct (request req w). intros [= <- <-]. apply Hk.
Qed.

Lemma finish_quiet {A} Q (t : Task A) (w : World) :
  QuietOnceAnswered Q t → Forall Q (fst (fst (finish t w))).
Proof.
  intros Ht. unfold finish. destruct (respond t w) as [[t' w']|] eqn:Hr.
  - apply run_emits. by eapply respond_quiet.
  - destruct Ht as [t Ht|path k Hk|o rp i k Hk|req k Hk]; [by apply run_emits|..];
      simpl in Hr.
    + by destruct (readFile path w).
    + by destruct (deleteReleaseAsset o rp i w).
    + by destruct (request req w).
Qed.

Lemma step_quiet {A} Q (st : Exec A) (i : nat) :
  Forall (QuietOnceAnswered Q) (inFlight st) →
  ∃ evs, trace (step st i) = trace st ++ evs ∧ Forall Q evs
         ∧ Forall (QuietOnceAnswered Q) (inFlight (step st i)).
Proof.
  intros Hin. unfold step.
  destruct (inFlight st !! i) as [t|] eqn:Hi;
    [|exists []; by rewrite app_nil_r].
  destruct (respond t (world st)) as [[t' w']|] eqn:Hr;
    [|exists []; by rewrite app_nil_r].
  pose proof (Forall_lookup_1 _ _ _ _ Hin Hi) as Ht.
  pose proof (untilAwait_emits Q t' (respond_quiet Q _ _ _ _ Ht Hr)) as [Hevs Hparked].
  destruct (untilAwait t') as [evs parked]. cbn [fst snd inFlight trace] in *.
  exists evs. split_and!; [done..|]. apply Forall_insert; [done|by constructor].
Qed.

Lemma steps_quiet {A} Q schedule (st : Exec A) :
  Forall (QuietOnceAnswered Q) (inFlight st) →
  ∃ evs, trace (foldl step st schedule) = trace st ++ evs ∧ Forall Q evs
         ∧ Forall (QuietOnceAnswered Q) (inFlight (foldl step st schedule)).
Proof.
  revert st. induction schedule as [|i schedule IH]; intros st Hin.
  - exists []. by rewrite app_nil_r.
  - cbn [foldl]. destruct (step_quiet Q st i Hin) as (evs & Htr & Hevs & Hin').
    destruct (IH (step st i) Hin') as (evs' & Htr' & Hevs' & Hin'').
    exists (evs ++ evs'). rewrite Htr', Htr, app_assoc.
    split_and!; [done| |done]. by apply Forall_app.
Qed.

Lemma drain_quiet {A} Q (tasks : list (Task A)) (w : World) :
  Forall (QuietOnceAnswered Q) tasks → Forall Q (fst (fst (drain tasks w))).
Proof.
  intros Hin. revert w. induction Hin as [|t rest Ht Hrest IH]; intros w;
    cbn [drain]; [constructor|].
  pose proof (finish_quiet Q t w Ht) as Hf.
  destruct (finish t w) as [[evs r] w1]. specialize (IH w1).
  destruct (drain rest w1) as [[evs' rs] w2]. cbn [fst snd] in *.
  by apply Forall_app.
Qed.

(** Whatever the schedule, the log of [Promise.allSettled] starts with
    what the promises do when they are created. *)
Lemma allSettled_starts Q schedule (tasks : list (Task ReleaseAsset)) (w : World) :
  Forall (QuietOnceAnswered Q) (snd (startAll tasks)) →
  ∃ rest, fst (fst (allSettled schedule tasks w)) = fst (startAll tasks) ++ rest
          ∧ Forall Q rest.
Proof.
  unfold allSettled. destruct (startAll tasks) as [evs0 parked]. cbn [fst snd].
  intros Hparked.
  destruct (steps_quiet Q schedule {| inFlight := parked; world := w; trace := evs0 |}
              Hparked) as (evs & Htr & Hevs & Hin).
  set (st := foldl step _ schedule) in *.
  pose proof (drain_quiet Q (inFlight st) (world st) Hin) as Hdrain.
  destruct (drain (inFlight st) (world st)) as [[evs1 rs] w']. cbn [fst snd trace] in *.
  exists (evs ++ evs1). rewrite Htr, app_assoc. split; [done|by apply Forall_app].
Qed.

Lemma startAll_app {A} (l1 l2 : list (Task A)) :
  startAll (l1 ++ l2)
  = (fst (startAll l1) ++ fst (startAll l2), snd (startAll l1) ++ snd (startAll l2)).
Proof.
  induction l1 as [|t l1 IH]; simpl.
  - by destruct (startAll l2).
  - destruct (untilAwait t) as [evs parked]. rewrite IH.
    destruct (startAll l1), (startAll l2). simpl. by rewrite app_assoc.
Qed.

Lemma uploadAsset_quiet args desired :
  QuietOnceAnswered notADelete (uploadAsset args desired).
Proof.
  unfold uploadAsset. apply quiet_read. intros [reason|data]; [constructor|].
  constructor; [done|]. constructor; [done|].
  intros [reason|apiAsset]; repeat constructor.
Qed.

Lemma uploadAsset_no_delete args desired :
  EmitsOnly notADelete (uploadAsset args desired).
Proof.
  unfold uploadAsset. constructor; [done|]. intros [reason|data]; [constructor|].
  constructor; [done|]. constructor; [done|].
  intros [reason|apiAsset]; repeat constructor.
Qed.

Lemma startAll_uploads args (l : list DesiredAsset) :
  fst (startAll (uploadAsset args <$> l))
  = (λ desired, InvokeReadFile (desired_path desired)) <$> l
  ∧ Forall (QuietOnceAnswered notADelete) (snd (startAll (uploadAsset args <$> l))).
Proof.
  induction l as [|d l [IH1 IH2]]; [by split; constructor|].
  rewrite !fmap_cons. cbn [startAll]. cbn [untilAwait uploadAsset].
  destruct (startAll (uploadAsset args <$> l)) as [evs parked]. cbn [fst snd] in *.
  split; [by rewrite IH1|]. constructor; [|done]. apply uploadAsset_quiet.
Qed.

Lemma startAll_updates args (l : list (ReleaseAsset * DesiredAsset)) :
  fst (startAll ((λ p, updateAsset args (fst p) (snd p)) <$> l))
  = l ≫= (λ p, [Info (MsgDeleting (assetName (fst p)) (assetId (fst p)));
               InvokeDeleteReleaseAsset (owner args) (repo args) (assetId (fst p))])
  ∧ Forall (QuietOnceAnswered notADelete)
           (snd (startAll ((λ p, updateAsset args (fst p) (snd p)) <$> l))).
Proof.
  induction l as [|[e d] l [IH1 IH2]]; [by split; constructor|].
  rewrite !fmap_cons, bind_cons. cbn [startAll].
  cbn [untilAwait updateAsset deleteAsset andThen fst snd].
  destruct (startAll _) as [evs parked]. cbn [fst snd] in *.
  split; [by rewrite IH1|]. constructor; [|done].
  apply quiet_delete. intros [reason|[]]; cbn [andThen]; [constructor|].
  apply uploadAsset_no_delete.
Qed.

(** X6. A pass that has something to do starts every operation before
    any answer arrives, under every schedule: right after the line with
    the counts, its log holds the read of the file of each asset to
    upload, in order, and then, for each pair to update in order, the
    deletion line and the call of the delete capability. No delete is
    invoked after that: all deletions of a pass are requested up front. *)
Theorem pass_starts_every_operation_up_front
    (args : Args) (schedule : list nat) (w : World)
    (evs : list Event) (desiredAssets : list DesiredAsset) :
  findAssets (config_assets args) = (evs, inr desiredAssets) →
  release_assets args ≠ [] ∨ desiredAssets ≠ [] →
  let d := diffAssets (release_assets args) desiredAssets in
  ∃ rest,
    fst (fst (modifyReleaseAssets args schedule w))
    = evs
      ++ [GroupStart "Modifying release assets";
          Info (MsgDiffCounts (length (toUpload d)) (length (toUpdate d)))]
      ++ firstCalls args d ++ rest
    ∧ Forall notADelete rest.
Proof.
  intros Hfound Hsome. cbv zeta.
  rewrite (modifyReleaseAssets_operating _ _ _ _ _ Hfound Hsome). cbv zeta.
  cbn [fst].
  set (d := diffAssets (release_assets args) desiredAssets).
  destruct (startAll_uploads args (toUpload d)) as [Hu1 Hu2].
  destruct (startAll_updates args (toUpdate d)) as [Hv1 Hv2].
  destruct (allSettled_starts notADelete schedule
              ((uploadAsset args <$> toUpload d)
                 ++ ((λ p, updateAsset args (fst p) (snd p)) <$> toUpdate d)) w)
    as (rest & Hrest & Hquiet).
  { rewrite startAll_app. cbn [snd]. by apply Forall_app. }
  rewrite Hrest, startAll_app. cbn [fst]. rewrite Hu1, Hv1.
  eexists. split.
  - unfold firstCalls. rewrite <- !app_assoc. reflexivity.
  - apply Forall_app. split; [done|].
    assert (∀ results kind, Forall notADelete (logResults results kind)) as Hlog.
    { intros results kind. unfold logResults. case_bool_decide.
      - apply Forall_app. split; [by repeat constructor|].
        apply Forall_app. split; [|by repeat constructor].
        by apply Forall_fmap, Forall_forall.
      - by repeat constructor. }
    apply Forall_app. split; [apply Hlog|].
    apply Forall_app. split; [apply Hlog|by repeat constructor].
Qed.

End FirstCalls.

(** ** What discovery returns *)

Section Found.
Context `{Platform}.

Lemma matchedPaths_elem pattern path :
  path ∈ matchedPaths pattern
  ↔ path ∈ globGenerator pattern ∧ isDirectory path = false.
Proof.
  unfold matchedPaths. rewrite !list_elem_of_In, filter_In, negb_true_iff. done.
Qed.

(** Each asset [findAsset] returns is the asset of a matched path, named
    by the base name of the path or by the name of the descriptor. *)
Lemma findAsset_found asset a :
  a ∈ returned (findAsset asset) →
  desired_path a ∈ matchedPaths (cfg_path asset)
  ∧ (desired_name a = basename (desired_path a)
     ∨ cfg_name asset = Some (desired_name a)).
Proof.
  destruct (matchedPaths (cfg_path asset)) as [|p [|q l]] eqn:Hm.
  - destruct (cfg_optional asset) eqn:Ho.
    + rewrite findAsset_none_optional by done. by intros ?%elem_of_nil.
    + rewrite findAsset_none_mandatory by done. by intros ?%elem_of_nil.
  - rewrite (findAsset_single asset p Hm). unfold returned. cbn [snd].
    intros ->%list_elem_of_singleton. unfold normalizeAsset. cbn.
    split; [left|]. destruct (cfg_name asset) as [n|]; [|by left].
    case_bool_decide; [by left|by right].
  - rewrite findAsset_many by (rewrite Hm; simpl; lia). unfold returned. cbn [snd].
    rewrite Hm. intros (path & -> & Hpath)%list_elem_of_fmap. cbn. split; [done|by left].
Qed.

Lemma findEach_found assets found a :
  a ∈ returned (findEach found assets) →
  a ∈ found ∨ ∃ asset, asset ∈ assets ∧ a ∈ returned (findAsset asset).
Proof.
  revert found. induction assets as [|asset rest IH]; intros found.
  - unfold returned. simpl. by left.
  - rewrite findEach_cons.
    destruct (findAsset asset) as [evs [e|r]] eqn:Hf.
    { unfold returned. simpl. by intros ?%elem_of_nil. }
    specialize (IH (found ++ r)).
    destruct (findEach (found ++ r) rest) as [evs' [e|l]].
    { unfold returned. simpl. by intros ?%elem_of_nil. }
    unfold returned in *. cbn [snd] in *. intros Ha.
    destruct (IH Ha) as [[Hin|Hin]%elem_of_app|(asset' & Hin & Ha')]; [by left| |].
    + right. exists asset. split; [left|]. by rewrite Hf.
    + right. exists asset'. split; [by right|done].
Qed.

(** X8. Whatever discovery returns was found on disk: each desired asset
    has the path of a file that the glob of one of the descriptors yields
    and that is not a directory, and its name is the base name of that
    path or the name of that descriptor. A directory never becomes an
    asset. *)
Theorem findAssets_returns_matched_files
    (assets : list AssetConfig) (evs : list Event) (desiredAssets : list DesiredAsset) :
  findAssets assets = (evs, inr desiredAssets) →
  ∀ a, a ∈ desiredAssets →
    ∃ asset, asset ∈ assets
      ∧ desired_path a ∈ globGenerator (cfg_path asset)
      ∧ isDirectory (desired_path a) = false
      ∧ (desired_name a = basename (desired_path a)
         ∨ cfg_name asset = Some (desired_name a)).
Proof.
  intros Hfound a Ha.
  destruct (findEach [] assets) as [evs0 [e|found]] eqn:Hf.
  { by rewrite (findAssets_throws _ _ _ Hf) in Hfound. }
  rewrite (findAssets_returns _ _ _ Hf) in Hfound. injection Hfound as _ <-.
  pose proof (filterSeen_kept found ∅) as (_ & _ & Hsub & _).
  fold (dedupe found) in Hsub. rewrite dedupe_occurrences in Hsub.
  unfold returned in Hsub. cbn [snd] in Hsub.
  assert (a ∈ found) as Hin by (by eapply elem_of_sublist).
  assert (a ∈ returned (findEach [] assets)) as Hret.
  { rewrite Hf. done. }
  destruct (findEach_found _ _ _ Hret) as [?%elem_of_nil|(asset & Hasset & Hfa)]; [done|].
  exists asset. destruct (findAsset_found _ _ Hfa) as [[? ?]%matchedPaths_elem ?]. done.
Qed.

Lemma findEach_all assets found :
  (∀ asset, asset ∈ assets →
     matchedPaths (cfg_path asset) ≠ [] ∨ cfg_optional asset = true) →
  snd (findEach found assets)
  = inr (found ++ (assets ≫= λ asset, returned (findAsset asset))).
Proof.
  revert found. induction assets as [|asset rest IH]; intros found Hall.
  - simpl. by rewrite app_nil_r.
  - rewrite findEach_cons, bind_cons.
    destruct (findAsset_cases asset) as [(Hm & Ho & _)|(evs & r & Hf & _ & _)].
    { destruct (Hall asset) as [?|?]; [left|done|congruence]. }
    rewrite Hf. unfold returned at 1. cbn [snd].
    specialize (IH (found ++ r)).
    destruct (findEach (found ++ r) rest) as [evs' x]. cbn [snd] in *.
    rewrite IH, app_assoc; [done|]. intros a Ha. apply Hall. by right.
Qed.

(** The loop throws at the first mandatory asset without files: every
    asset before it has files or is optional. *)
Lemma findEach_first_missing assets asset found :
  asset ∈ assets → matchedPaths (cfg_path asset) = [] → cfg_optional asset = false →
  ∃ pre first post,
    assets = pre ++ first :: post
    ∧ (∀ a, a ∈ pre → matchedPaths (cfg_path a) ≠ [] ∨ cfg_optional a = true)
    ∧ matchedPaths (cfg_path first) = [] ∧ cfg_optional first = false
    ∧ snd (findEach found assets) = inl (MandatoryArtifactNotFound (cfg_path first)).
Proof.
  revert found. induction assets as [|a rest IH]; intros found Hin Hm Ho.
  - by apply elem_of_nil in Hin.
  - rewrite findEach_cons.
    destruct (findAsset_cases a) as [(Hma & Hoa & ->)|(evs & r & -> & Hevs & Hopt)].
    + exists [], a, rest. split_and!; [done| |done..].
      intros b Hb. by apply elem_of_nil in Hb.
    + assert (asset ∈ rest) as Hrest.
      { apply elem_of_cons in Hin as [->|]; [|done].
        specialize (Hopt Hm). congruence. }
      destruct (IH (found ++ r) Hrest Hm Ho)
        as (pre & first & post & -> & Hpre & Hmf & Hof & Hthrow).
      exists (a :: pre), first, post. split_and!; [done| |done|done|].
      * intros b [->|Hb]%elem_of_cons; [|by apply Hpre].
        destruct (matchedPaths (cfg_path a)) eqn:Hmb; [right; by apply Hopt|by left].
      * destruct (findEach (found ++ r) (pre ++ first :: post)). done.
Qed.

(** X9. Discovery returns exactly when no mandatory descriptor is without
    a file, and what it returns then is the concatenation of the
    expansions, in the order of the descriptors, with only the first of
    each lowercase name kept. When some mandatory descriptor is without
    a file, discovery throws instead: the error names the pattern of the
    first such descriptor of the configuration. *)
Theorem findAssets_returns_iff_nothing_mandatory_missing (assets : list AssetConfig) :
  ((∀ asset, asset ∈ assets →
      matchedPaths (cfg_path asset) ≠ [] ∨ cfg_optional asset = true)
   ↔ snd (findAssets assets)
     = inr (firstOccurrences (assets ≫= λ asset, returned (findAsset asset))))
  ∧ (∀ asset, asset ∈ assets →
       matchedPaths (cfg_path asset) = [] → cfg_optional asset = false →
       ∃ pre first post,
         assets = pre ++ first :: post
         ∧ (∀ a, a ∈ pre → matchedPaths (cfg_path a) ≠ [] ∨ cfg_optional a = true)
         ∧ matchedPaths (cfg_path first) = [] ∧ cfg_optional first = false
         ∧ snd (findAssets assets)
           = inl (MandatoryArtifactNotFound (cfg_path first))).
Proof.
  split; [split|].
  - intros Hall. pose proof (findEach_all assets [] Hall) as Hf.
    destruct (findEach [] assets) as [evs0 [e|found]] eqn:Heach; [done|].
    rewrite (findAssets_returns _ _ _ Heach). cbn [snd] in *.
    by injection Hf as ->.
  - intros Hret asset Hin.
    destruct (matchedPaths (cfg_path asset)) as [|p l] eqn:Hm; [|by left].
    destruct (cfg_optional asset) eqn:Ho; [by right|].
    destruct (findEach_mandatory_missing assets asset [] Hin Hm Ho)
      as (evs & first & Hf & _).
    by rewrite (findAssets_throws _ _ _ Hf) in Hret.
  - intros asset Hin Hm Ho.
    destruct (findEach_first_missing assets asset [] Hin Hm Ho)
      as (pre & first & post & Heq & Hpre & Hmf & Hof & Hthrow).
    exists pre, first, post. split_and!; [done..|].
    destruct (findEach [] assets) as [evs [e|found]] eqn:Heach; [|done].
    rewrite (findAssets_throws _ _ _ Heach). done.
Qed.

(** X10. Within a pass no name is used twice and no asset of the release
    is replaced twice: the desired assets that discovery returns have
    pairwise different names, so have the assets to upload, and the
    existing assets paired for an update have pairwise different names
    (hence are pairwise different). *)
Theorem pass_replaces_each_asset_once
    (assets : list AssetConfig) (existingAssets : list ReleaseAsset)
    (evs : list Event) (desiredAssets : list DesiredAsset) :
  findAssets assets = (evs, inr desiredAssets) →
  let d := diffAssets existingAssets desiredAssets in
  NoDup (desired_name <$> desiredAssets)
  ∧ NoDup (desired_name <$> toUpload d)
  ∧ NoDup (assetName <$> (fst <$> toUpdate d))
  ∧ NoDup (fst <$> toUpdate d).
Proof.
  intros Hfound. cbv zeta.
  assert (NoDup (desired_name <$> desiredAssets)) as Hnames.
  { destruct (findEach [] assets) as [evs0 [e|found]] eqn:Hf.
    { by rewrite (findAssets_throws _ _ _ Hf) in Hfound. }
    rewrite (findAssets_returns _ _ _ Hf) in Hfound. injection Hfound as _ <-.
    pose proof (filterSeen_kept found ∅) as (Hnd & _).
    fold (dedupe found) in Hnd. rewrite dedupe_occurrences in Hnd.
    unfold returned in Hnd. cbn [snd] in Hnd.
    apply (NoDup_fmap_1 toLowerCase). by rewrite <- list_fmap_compose. }
  rewrite diffAssets_spec. cbn [toUpload toUpdate].
  destruct (diff_keeps_order existingAssets desiredAssets) as [Hup Hupd].
  assert (NoDup (assetName <$> (fst <$> omap (updateOf existingAssets) desiredAssets)))
    as Hexisting.
  { assert (assetName <$> (fst <$> omap (updateOf existingAssets) desiredAssets)
            = desired_name <$> (snd <$> omap (updateOf existingAssets) desiredAssets))
      as ->.
    { rewrite <- !list_fmap_compose. apply list_fmap_ext.
      intros i [e x] Hin%list_elem_of_lookup_2.
      apply list_elem_of_omap in Hin as (y & _ & [-> Hf]%updateOf_Some).
      by apply findExisting_Some in Hf as [_ ?]. }
    eapply sublist_NoDup; [exact Hnames|]. by apply fmap_sublist. }
  split_and!; [done| |done|by eapply NoDup_fmap_1].
  eapply sublist_NoDup; [exact Hnames|]. by apply fmap_sublist.
Qed.

End Found.

Section UploadFacts.
Context `{Platform}.

(** X11. An upload on its own reads the file first and posts nothing
    when the read is rejected: the promise is then rejected with
    [ArtifactReadFailure] after the one call of [readFile]. With the file
    read, exactly one request is posted, carrying the bytes that were
    read; a rejected request rejects the promise with
    [RemoteOperationFailure], an accepted one fulfils it with the
    normalized asset of the answer, logged as uploaded. *)
Theorem uploadAsset_reads_then_posts (args : Args) (desired : DesiredAsset) (w : World) :
  let path := desired_path desired in
  let post data :=
    {| req_url := release_upload_url args; req_name := desired_name desired;
       req_data := data; req_label := desired_label desired;
       req_content_type := mimeLookup path |} in
  match readFile path w with
  | (inl reason, w1) =>
      run (uploadAsset args desired) w
      = ([InvokeReadFile path], inl (ArtifactReadFailure reason), w1)
  | (inr data, w1) =>
      match request (post data) w1 with
      | (inl reason, w2) =>
          run (uploadAsset args desired) w
          = ([InvokeReadFile path;
              Info (MsgUploading (desired_name desired) (mimeLookup path));
              InvokeRequest (post data)],
             inl (RemoteOperationFailure reason), w2)
      | (inr apiAsset, w2) =>
          run (uploadAsset args desired) w
          = ([InvokeReadFile path;
              Info (MsgUploading (desired_name desired) (mimeLookup path));
              InvokeRequest (post data);
              Info (MsgUploaded (desired_name desired) (normalizeApiAsset apiAsset))],
             inr (normalizeApiAsset apiAsset), w2)
      end
  end.
Proof.
  cbv zeta. unfold uploadAsset. cbn [run].
  destruct (readFile (desired_path desired) w) as [[reason|data] w1]; [done|].
  cbn [run].
  destruct (request _ w1) as [[reason|apiAsset] w2]; done.
Qed.

End UploadFacts.

(** * Properties of the configuration *)

Section ConfigurationFacts.
Context `{Text} `{ConfigPlatform}.

Lemma truthy_false (s : string) : truthy s = false ↔ s = EmptyString.
Proof.
  unfold truthy. rewrite negb_false_iff. apply String.eqb_eq.
Qed.

Lemma truthy_true (s : string) : truthy s = true ↔ s ≠ EmptyString.
Proof.
  unfold truthy. rewrite negb_true_iff. apply String.eqb_neq.
Qed.

Lemma flagInput_overlaid (base : option bool) (input : string) :
  flagOverlaid base input (spreadKey base (flagInput input)).
Proof.
  unfold flagOverlaid, flagInput. split_and!.
  - intros ->. done.
  - intros ->. done.
  - intros Hne%truthy_true Hnt%String.eqb_neq. by rewrite Hne, Hnt.
Qed.

Lemma splitComma_cons (s : string) : ∃ piece pieces, splitComma s = piece :: pieces.
Proof.
  destruct s as [|c s]; simpl; [by eexists _, _|].
  destruct (Ascii.eqb _ _); [by eexists _, _|].
  destruct (splitComma s); by eexists _, _.
Qed.

Lemma concat_String (sep : string) c piece (pieces : list string) :
  String.concat sep (String c piece :: pieces)
  = String c (String.concat sep (piece :: pieces)).
Proof. by destruct pieces. Qed.

Lemma concat_comma_empty (piece : string) (pieces : list string) :
  String.concat "," (EmptyString :: piece :: pieces)
  = String (Ascii.ascii_of_nat 44) (String.concat "," (piece :: pieces)).
Proof. done. Qed.

(** [s.split(",").join(",")] is [s]. *)
Lemma splitComma_concat (s : string) : String.concat "," (splitComma s) = s.
Proof.
  induction s as [|c s IH]; [done|]. cbn [splitComma].
  destruct (splitComma_cons s) as (piece & pieces & Hs). rewrite Hs in *.
  destruct (Ascii.eqb c (Ascii.ascii_of_nat 44)) eqn:Hc.
  - apply Ascii.eqb_eq in Hc as ->. by rewrite concat_comma_empty, IH.
  - by rewrite concat_String, IH.
Qed.

Lemma splitComma_pieces (s : string) :
  Forall (λ piece, containsComma piece = false) (splitComma s).
Proof.
  induction s as [|c s IH]; [by repeat constructor|]. cbn [splitComma].
  destruct (Ascii.eqb c (Ascii.ascii_of_nat 44)) eqn:Hc; [by constructor|].
  destruct (splitComma s) as [|piece pieces]; [by repeat constructor; simpl; rewrite Hc|].
  apply Forall_cons in IH as [Hp Hps]. constructor; [|done]. simpl. by rewrite Hc.
Qed.

Lemma listInput_overlaid (base : option (list string)) (input : string) :
  listOverlaid base input
    (spreadKey base (if truthy input then Some (splitComma input) else None)).
Proof.
  split.
  - intros ->. done.
  - intros Hne%truthy_true. rewrite Hne. simpl. eexists. split; [done|].
    split; [apply splitComma_concat|apply splitComma_pieces].
Qed.

(** What [readConfig] returns or throws: the first failure among reading
    the file, parsing and validating it, and parsing and validating the
    [assets] input; and with none, the effective configuration. *)
Lemma readConfig_result getInput file :
  snd (readConfig getInput file)
  = match readConfigFile file with
    | inl e => inl e
    | inr (hasYaml, yaml) =>
        match parseConfig hasYaml yaml with
        | inl e => inl e
        | inr base =>
            match getConfigOverrides getInput base with
            | inl e => inl e
            | inr (overrides, _) => inr (effectiveConfig base overrides)
            end
        end
    end.
Proof.
  unfold readConfig. cbn [snd].
  destruct (readConfigFile file) as [e|[hasYaml yaml]]; [done|].
  destruct (parseConfig hasYaml yaml) as [e|base]; [done|].
  by destruct (getConfigOverrides getInput base) as [e|[overrides hasOverrides]].
Qed.

Lemma getConfigOverrides_result getInput base :
  getConfigOverrides getInput base
  = match parseAssets getInput with
    | inl e => inl e
    | inr inputAssets =>
        match getConfigOverrides getInput base with
        | inl e => inl e
        | inr r => inr r
        end
    end.
Proof.
  unfold getConfigOverrides. by destruct (parseAssets getInput).
Qed.

(** X12. The assets of the [assets] input are added to the assets of the
    configuration file, never put in their place: when the file and the
    input are both accepted, [readConfig] returns a configuration whose
    assets are those of the file followed by those of the input. *)
Theorem readConfig_appends_input_assets
    (getInput : string → string) (file : ConfigFile)
    (hasYaml : bool) (yaml : option string) (base : Config)
    (inputAssets : list AssetConfig) :
  readConfigFile file = inr (hasYaml, yaml) →
  parseConfig hasYaml yaml = inr base →
  parseAssets getInput = inr inputAssets →
  ∃ effective,
    snd (readConfig getInput file) = inr effective
    ∧ conf_assets effective = conf_assets base ++ inputAssets.
Proof.
  intros Hfile Hbase Hassets. rewrite readConfig_result, Hfile, Hbase.
  unfold getConfigOverrides. rewrite Hassets. eexists. split; [done|].
  cbn [effectiveConfig conf_assets over_assets].
  case_bool_decide as Hlen; [done|]. cbn [default].
  destruct inputAssets; [by rewrite app_nil_r|simpl in Hlen; lia].
Qed.

(** X13. The inputs [draft], [generateReleaseNotes], [prerelease] and
    [summaryEnabled] are flags read by comparison with the text [true]:
    an empty input leaves the value of the file, the input [true] sets
    [true], and every other text - [TRUE], [yes], [1] - sets [false]. *)
Theorem readConfig_reads_flags_by_exact_true
    (getInput : string → string) (file : ConfigFile) (effective : Config) :
  snd (readConfig getInput file) = inr effective →
  ∃ base,
    flagOverlaid (conf_draft base) (getInput "draft") (conf_draft effective)
    ∧ flagOverlaid (conf_generateReleaseNotes base) (getInput "generateReleaseNotes")
        (conf_generateReleaseNotes effective)
    ∧ flagOverlaid (conf_prerelease base) (getInput "prerelease")
        (conf_prerelease effective)
    ∧ flagOverlaid (summary_enabled (conf_summary base)) (getInput "summaryEnabled")
        (summary_enabled (conf_summary effective))
    ∧ ∃ hasYaml yaml,
        readConfigFile file = inr (hasYaml, yaml)
        ∧ parseConfig hasYaml yaml = inr base.
Proof.
  rewrite readConfig_result.
  destruct (readConfigFile file) as [e|[hasYaml yaml]] eqn:Hfile; [done|].
  destruct (parseConfig hasYaml yaml) as [e|base] eqn:Hbase; [done|].
  unfold getConfigOverrides. destruct (parseAssets getInput) as [e|inputAssets]; [done|].
  intros [= <-]. exists base.
  cbn [effectiveConfig conf_draft conf_generateReleaseNotes conf_prerelease
       conf_summary over_draft over_generateReleaseNotes over_prerelease over_summary].
  split_and!; try apply flagInput_overlaid; [|by eexists _, _].
  cbn [summary_enabled].
  pose proof (flagInput_overlaid (summary_enabled (conf_summary base))
                (getInput "summaryEnabled")) as Hflag.
  destruct (flagInput (getInput "summaryEnabled")) as [b|] eqn:Hf.
  - rewrite bool_decide_eq_true_2 by done. exact Hflag.
  - rewrite bool_decide_eq_false_2 by (by intros [? ?]). exact Hflag.
Qed.

(** X14. The discussion is overlaid key by key: the category comes from
    the [discussionCategory] input when that is not empty and from the
    file otherwise, whatever the reactions input is, and the discussion
    reactions come from the [discussionReactions] input, split at its
    commas, when that is not empty and from the file otherwise, whatever
    the category input is. The top-level [reactions] work the same way. *)
Theorem readConfig_overlays_discussion_key_by_key
    (getInput : string → string) (file : ConfigFile) (effective : Config) :
  snd (readConfig getInput file) = inr effective →
  ∃ base,
    (getInput "discussionCategory" = EmptyString →
       discussion_category (conf_discussion effective)
       = discussion_category (conf_discussion base))
    ∧ (getInput "discussionCategory" ≠ EmptyString →
       discussion_category (conf_discussion effective)
       = Some (getInput "discussionCategory"))
    ∧ listOverlaid (discussion_reactions (conf_discussion base))
        (getInput "discussionReactions")
        (discussion_reactions (conf_discussion effective))
    ∧ listOverlaid (conf_reactions base) (getInput "reactions")
        (conf_reactions effective)
    ∧ ∃ hasYaml yaml,
        readConfigFile file = inr (hasYaml, yaml)
        ∧ parseConfig hasYaml yaml = inr base.
Proof.
  rewrite readConfig_result.
  destruct (readConfigFile file) as [e|[hasYaml yaml]] eqn:Hfile; [done|].
  destruct (parseConfig hasYaml yaml) as [e|base] eqn:Hbase; [done|].
  unfold getConfigOverrides. destruct (parseAssets getInput) as [e|inputAssets]; [done|].
  intros [= <-]. exists base.
  cbn [effectiveConfig conf_discussion conf_reactions over_discussion over_reactions
       discussion_category discussion_reactions].
  pose proof (listInput_overlaid (discussion_reactions (conf_discussion base))
                (getInput "discussionReactions")) as Hreactions.
  split_and!; [| | |apply listInput_overlaid|by eexists _, _].
  - intros Hc. apply truthy_false in Hc. rewrite Hc.
    destruct (truthy (getInput "discussionReactions")); cbn; done.
  - intros Hc. apply truthy_true in Hc. rewrite Hc. cbn. done.
  - destruct (truthy (getInput "discussionCategory")),
             (truthy (getInput "discussionReactions")); cbn in *; exact Hreactions.
Qed.

(** X15. Without any input the effective configuration is the validated
    configuration of the file, unchanged, and the log neither shows a
    base configuration nor overrides: after the note of a missing file,
    if any, it holds the effective configuration only. *)
Theorem readConfig_without_inputs_is_the_file
    (getInput : string → string) (file : ConfigFile)
    (hasYaml : bool) (yaml : option string) (base : Config) :
  (∀ name, getInput name = EmptyString) →
  readConfigFile file = inr (hasYaml, yaml) →
  parseConfig hasYaml yaml = inr base →
  readConfig getInput file
  = ([ConfigGroupStart "Reading release configuration"]
       ++ (if hasYaml then [] else [ConfigInfo MsgNoConfiguration])
       ++ [ConfigInfo (MsgEffectiveConfiguration base); ConfigGroupEnd],
     inr base).
Proof.
  intros Hnone Hfile Hbase. unfold readConfig. rewrite Hfile, Hbase.
  unfold getConfigOverrides, parseAssets, flagInput. rewrite !Hnone.
  cbn -[effectiveConfig]. rewrite (bool_decide_eq_false_2 (0 < 0)) by lia.
  assert (effectiveConfig base (mkOverrides None None None None None None None) = base)
    as Heff by (by destruct base).
  assert (hasKeys (mkOverrides None None None None None None None) = false)
    as Hkeys by done.
  rewrite Heff, Hkeys. destruct hasYaml; cbn; done.
Qed.

(** X16. A configuration file that holds nothing but what [trim] removes
    is treated as a file that is not there: whatever the inputs,
    [readConfig] logs and returns the same for both, with the note that
    no configuration was found and the validated empty object as base.
    A file that cannot be read for another reason than [ENOENT] makes
    [readConfig] throw that reason at once. *)
Theorem readConfig_blank_file_is_absent_file
    (getInput : string → string) (data : string) :
  trim data = EmptyString →
  readConfig getInput (FileContent data) = readConfig getInput FileAbsent
  ∧ (∀ reason,
       readConfig getInput (FileFailure reason)
       = ([ConfigGroupStart "Reading release configuration"; ConfigGroupEnd],
          inl (ConfigFileUnreadable reason))).
Proof.
  intros Hblank. split; [|done].
  unfold readConfig, readConfigFile. rewrite Hblank. cbn [String.length].
  rewrite bool_decide_eq_false_2 by lia. done.
Qed.

(** X17. [readConfig] throws the first failure in this order: the file
    cannot be read, its YAML does not parse (the error carries the
    trimmed text), it does not validate, the [assets] input does not
    parse (the error carries the input), the [assets] input does not
    validate. Whenever it throws, the log holds no effective
    configuration. *)
Theorem readConfig_throws_the_first_failure
    (getInput : string → string) (file : ConfigFile) :
  snd (readConfig getInput file)
  = match readConfigFile file with
    | inl e => inl e
    | inr (hasYaml, yaml) =>
        match parseConfig hasYaml yaml with
        | inl e => inl e
        | inr base =>
            match parseAssets getInput with
            | inl e => inl e
            | inr inputAssets =>
                match getConfigOverrides getInput base with
                | inl e => inl e
                | inr (overrides, _) => inr (effectiveConfig base overrides)
                end
            end
        end
    end
  ∧ (∀ e, snd (readConfig getInput file) = inl e →
       Forall (λ ev, ¬ isEffectiveLine ev) (fst (readConfig getInput file)))
  ∧ (∀ data message,
       file = FileContent data → trim data ≠ EmptyString →
       load (trim data) = inl message →
       snd (readConfig getInput file) = inl (ConfigParsingFailed message (trim data)))
  ∧ (∀ message,
       getInput "assets" ≠ EmptyString → load (getInput "assets") = inl message →
       ∀ e, parseAssets getInput = inl e →
         e = AssetsParsingFailed message (getInput "assets")).
Proof.
  split_and!.
  - rewrite readConfig_result.
    destruct (readConfigFile file) as [e|[hasYaml yaml]]; [done|].
    destruct (parseConfig hasYaml yaml) as [e|base]; [done|].
    rewrite getConfigOverrides_result at 1.
    destruct (parseAssets getInput); [done|].
    by destruct (getConfigOverrides getInput base) as [e|[? ?]].
  - intros e. unfold readConfig. cbn [fst snd].
    destruct (readConfigFile file) as [e'|[hasYaml yaml]].
    { intros _. repeat constructor; by intros [c Hc]. }
    destruct (parseConfig hasYaml yaml) as [e'|base].
    { intros _. cbn [fst]. destruct hasYaml; repeat constructor; by intros [c Hc]. }
    destruct (getConfigOverrides getInput base) as [e'|[overrides hasOverrides]];
      [|done].
    intros _. cbn [fst]. destruct hasYaml; repeat constructor; by intros [c Hc].
  - intros data message -> Hne Hload. rewrite readConfig_result.
    unfold readConfigFile, parseConfig.
    rewrite bool_decide_eq_true_2.
    + cbn. by rewrite Hload.
    + destruct (trim data); [done|simpl; lia].
  - intros message Hne%truthy_true Hload e. unfold parseAssets.
    rewrite Hne, Hload. cbn. by intros [= <-].
Qed.

End ConfigurationFacts.

(** * Properties of the release body *)

Section BodyFacts.
Context `{Text} `{BodyPlatform}.

(** X18. The body is empty or ends with the attribution. With a tag
    annotation that [trim] empties and no generated notes it is the empty
    string, and nothing is logged, set or requested. Otherwise it is the
    rendered annotation, the generated notes, or the one followed by a
    blank line and the other, and then a blank line and the comment
    [published by] with the repository of the action. *)
Theorem renderReleaseBody_shape
    (config : Config) (actionRepository owner repo tag tagBody : string) (h : Host) :
  let result := renderReleaseBody config actionRepository owner repo tag tagBody h in
  (trim tagBody = EmptyString → wantsReleaseNotes config = false →
   result = ([], inr EmptyString, h))
  ∧ (∀ output, trim tagBody ≠ EmptyString → wantsReleaseNotes config = false →
       processMarkdown tagBody = inr output →
       snd (fst result)
       = inr (trim output +:+ newline +:+ newline +:+ attribution actionRepository))
  ∧ (∀ notes h', trim tagBody = EmptyString → wantsReleaseNotes config = true →
       generateReleaseNotes owner repo tag h = (inr notes, h') →
       snd (fst result)
       = inr (notes +:+ newline +:+ newline +:+ attribution actionRepository))
  ∧ (∀ output notes h', trim tagBody ≠ EmptyString → wantsReleaseNotes config = true →
       processMarkdown tagBody = inr output →
       generateReleaseNotes owner repo tag h = (inr notes, h') →
       snd (fst result)
       = inr (trim output +:+ newline +:+ newline +:+ notes
              +:+ newline +:+ newline +:+ attribution actionRepository)).
Proof.
  cbv zeta. unfold renderReleaseBody, renderTagBody. split_and!.
  - intros -> ->. done.
  - intros output Hne%String.eqb_neq -> ->. rewrite Hne. done.
  - intros notes h' -> -> ->. done.
  - intros output notes h' Hne%String.eqb_neq -> -> ->. rewrite Hne. done.
Qed.

(** X19. The host is only asked for release notes when the configuration
    has [generateReleaseNotes] set to [true]: otherwise nothing is
    requested and the host is left as it was. When it is asked and
    rejects, [renderReleaseBody] throws, and the output of the rendered
    annotation, if there was an annotation, has been set before. The
    output [TAG_BODY_RENDERED] is never set for an annotation that [trim]
    empties. *)
Theorem renderReleaseBody_effects
    (config : Config) (actionRepository owner repo tag tagBody : string) (h : Host) :
  let result := renderReleaseBody config actionRepository owner repo tag tagBody h in
  (wantsReleaseNotes config = false →
   snd result = h
   ∧ ∀ o r t, InvokeGenerateReleaseNotes o r t ∉ fst (fst result))
  ∧ (∀ reason h', wantsReleaseNotes config = true →
       generateReleaseNotes owner repo tag h = (inl reason, h') →
       (trim tagBody = EmptyString →
        snd (fst result) = inl (ReleaseNotesFailed reason))
       ∧ (∀ output, trim tagBody ≠ EmptyString →
            processMarkdown tagBody = inr output →
            snd (fst result) = inl (ReleaseNotesFailed reason)
            ∧ SetOutput TAG_BODY_RENDERED (trim output) ∈ fst (fst result)))
  ∧ (trim tagBody = EmptyString →
     ∀ value, SetOutput TAG_BODY_RENDERED value ∉ fst (fst result)).
Proof.
  cbv zeta. unfold renderReleaseBody, renderTagBody. split_and!.
  - intros ->. destruct (negb (String.eqb (trim tagBody) EmptyString)).
    + destruct (processMarkdown tagBody) as [reason|output]; cbn [fst snd];
        (split; [done|]); intros o r t Hin;
        repeat (apply elem_of_cons in Hin as [Hin|Hin]; [done|]);
        by apply elem_of_nil in Hin.
    + cbn [fst snd]. split; [done|]. intros o r t Hin. by apply elem_of_nil in Hin.
  - intros reason h' -> Hreject. split.
    + intros ->. cbn. by rewrite Hreject.
    + intros output Hne%String.eqb_neq ->. rewrite Hne. cbn. rewrite Hreject.
      cbn. split; [done|]. do 3 right. left.
  - intros ->. cbn. intros value.
    destruct (wantsReleaseNotes config); [|by intros ?%elem_of_nil].
    destruct (generateReleaseNotes owner repo tag h) as [[reason|notes] h']; cbn;
      intros Hin; repeat (apply elem_of_cons in Hin as [Hin|Hin]; [done|]);
      by apply elem_of_nil in Hin.
Qed.

End BodyFacts.

(** * Properties of the helpers that wait for workflow runs *)

Section WorkflowRuns.

Lemma isCompletedPush_true (run : WorkflowRun) :
  isCompletedPush run = true ↔ run_event run = "push" ∧ run_status run = "completed".
Proof.
  unfold isCompletedPush. rewrite andb_true_iff, !String.eqb_eq. done.
Qed.

Lemma size_list_to_set_le (l : list string) :
  size (list_to_set l : gset string) ≤ length l.
Proof.
  induction l as [|x l IH]; [done|]. rewrite list_to_set_cons. simpl.
  pose proof (size_union_alt ({[x]} : gset string) (list_to_set l)) as Hu.
  rewrite size_singleton in Hu.
  pose proof (subseteq_size (list_to_set l ∖ {[x]} : gset string) (list_to_set l)) as Hd.
  assert (list_to_set l ∖ {[x]} ⊆ (list_to_set l : gset string)) by set_solver.
  specialize (Hd ltac:(done)). lia.
Qed.

Lemma full_list_to_set_NoDup (l : list string) :
  length l ≤ size (list_to_set l : gset string) → NoDup l.
Proof.
  induction l as [|x l IH]; [constructor|]. rewrite list_to_set_cons. simpl.
  intros Hlen. pose proof (size_list_to_set_le l) as Hle.
  destruct (decide (x ∈ l)) as [Hin|Hout].
  - assert ({[x]} ∪ list_to_set l = (list_to_set l : gset string)) as Heq by set_solver.
    rewrite Heq in Hlen. lia.
  - constructor; [done|]. apply IH.
    rewrite size_union, size_singleton in Hlen by set_solver. lia.
Qed.

(** A table of runs whose keys are among the tags and that has as many
    keys as there are tags: the tags are pairwise different and each has
    its run. *)
Lemma full_table (tags : list string) (tagRuns : gmap string WorkflowRun) :
  (∀ tag, is_Some (tagRuns !! tag) → tag ∈ tags) →
  length tags ≤ size tagRuns →
  NoDup tags ∧ ∀ tag, tag ∈ tags → is_Some (tagRuns !! tag).
Proof.
  intros Hkeys Hsize.
  assert (dom tagRuns ⊆ (list_to_set tags : gset string)) as Hsub.
  { intros tag Htag%elem_of_dom. apply elem_of_list_to_set. by apply Hkeys. }
  pose proof (subseteq_size _ _ Hsub) as Hle. rewrite size_dom in Hle.
  pose proof (size_list_to_set_le tags) as Hle'.
  split; [apply full_list_to_set_NoDup; lia|].
  assert (dom tagRuns = (list_to_set tags : gset string)) as Heq.
  { apply set_subseteq_size_eq; [done|]. rewrite size_dom. lia. }
  intros tag Htag. apply elem_of_dom. rewrite Heq. by apply elem_of_list_to_set.
Qed.

Section Listed.
Variable P : WorkflowRun → Prop.

Lemma scanRuns_ok tags tagRuns runs :
  Forall P runs → tableOk P tags tagRuns →
  tableOk P tags (fst (scanRuns tags tagRuns runs)).
Proof.
  intros Hruns. revert tagRuns.
  induction Hruns as [|run rest Hrun Hrest IH]; intros tagRuns Hok; [done|].
  cbn [scanRuns]. destruct (run_head_branch run) as [runTag|] eqn:Htag; [|by apply IH].
  destruct (isCompletedPush run) eqn:Hpush; cbn [negb orb]; [|by apply IH].
  case_bool_decide as Hin; cbn [negb]; [|by apply IH].
  assert (tableOk P tags (assignRun runTag run tagRuns)) as Hok'.
  { unfold assignRun. destruct (String.eqb runTag "__proto__"); [done|].
    intros tag run' Hlook. apply lookup_insert_Some in Hlook as [[<- <-]|[_ Hlook]].
    - apply isCompletedPush_true in Hpush as [? ?]. done.
    - by apply Hok. }
  case_bool_decide; [done|by apply IH].
Qed.

Lemma scanPages_ok tags tagRuns pages result :
  (∀ runs, inr runs ∈ pages → Forall P runs) → tableOk P tags tagRuns →
  scanPages tags tagRuns pages = inr result → tableOk P tags result.
Proof.
  revert tagRuns. induction pages as [|[reason|runs] rest IH]; intros tagRuns Hpages Hok.
  - by intros [= <-].
  - done.
  - cbn [scanPages].
    pose proof (scanRuns_ok tags tagRuns runs (Hpages runs ltac:(left)) Hok) as Hok'.
    destruct (scanRuns tags tagRuns runs) as [tagRuns' stop]. cbn [fst] in Hok'.
    destruct stop; [by intros [= <-]|].
    apply IH; [|done]. intros runs' Hin. apply Hpages. by right.
Qed.

Lemma pollTagRuns_returns tags pages runs :
  (∀ page, inr page ∈ pages → Forall P page) →
  pollTagRuns tags pages = inr (Some runs) →
  NoDup tags
  ∧ Forall2 (λ tag r, ∃ run, r = Some run ∧ completedPushOf tag run ∧ P run) tags runs.
Proof.
  intros Hpages. unfold pollTagRuns.
  destruct (scanPages tags ∅ pages) as [reason|tagRuns] eqn:Hscan; [done|].
  case_bool_decide as Hsize; [done|]. intros [= <-].
  assert (tableOk P tags tagRuns) as Hok.
  { eapply scanPages_ok; [exact Hpages| |exact Hscan]. intros tag run Hlook.
    by rewrite lookup_empty in Hlook. }
  destruct (full_table tags tagRuns) as [Hnd Hall]; [|lia|].
  { intros tag [run Hrun]. by apply Hok in Hrun as [? _]. }
  split; [done|]. apply Forall2_fmap_r, Forall2_same_length_lookup_2; [done|].
  intros i tag tag' Hi Hi'. simplify_eq.
  destruct (Hall tag) as [run Hrun]; [by eapply list_elem_of_lookup_2|].
  exists run. split; [done|]. by apply Hok in Hrun as (_ & ? & ?).
Qed.

End Listed.

(** X20. When the helper that waits for the runs of several tags
    returns, it returns one run per tag, in the order of the tags, none
    of them undefined; the run of a tag is a completed push run whose
    head branch is that tag, and it is one of the runs that were listed
    (whatever holds of all listed runs holds of it). *)
Theorem waitForCompletedTagWorkflowRuns_returns_the_runs_of_the_tags
    (P : WorkflowRun → Prop) (tags : list string)
    (polls : list (list (Reason + list WorkflowRun)))
    (runs : list (option WorkflowRun)) :
  (∀ pages page, pages ∈ polls → inr page ∈ pages → Forall P page) →
  waitForCompletedTagWorkflowRuns tags polls = inr (Some runs) →
  Forall2 (λ tag r, ∃ run, r = Some run ∧ completedPushOf tag run ∧ P run) tags runs.
Proof.
  induction polls as [|pages later IH]; intros Hlisted; [done|].
  cbn [waitForCompletedTagWorkflowRuns].
  destruct (pollTagRuns tags pages) as [reason|[found|]] eqn:Hpoll; [done| |].
  - intros [= <-]. eapply pollTagRuns_returns; [|exact Hpoll].
    intros page. apply Hlisted. left.
  - apply IH. intros pages' page Hin. apply Hlisted. by right.
Qed.

(** X21. With a tag listed twice the helper never returns: whatever the
    host answers, and for however many polls, it is still waiting or has
    thrown. *)
Theorem waitForCompletedTagWorkflowRuns_never_returns_for_repeated_tags
    (tags : list string) (polls : list (list (Reason + list WorkflowRun))) :
  ¬ NoDup tags →
  ∀ runs, waitForCompletedTagWorkflowRuns tags polls ≠ inr (Some runs).
Proof.
  intros Hdup runs. induction polls as [|pages later IH]; [done|].
  cbn [waitForCompletedTagWorkflowRuns].
  destruct (pollTagRuns tags pages) as [reason|[found|]] eqn:Hpoll; [done| |done].
  destruct (pollTagRuns_returns (λ _, True) tags pages found) as [Hnd _]; [|done|done].
  intros page _. by apply Forall_forall.
Qed.

Lemma scanRuns_not_stopped tags tagRuns runs result :
  size tagRuns < length tags →
  scanRuns tags tagRuns runs = (result, false) → size result < length tags.
Proof.
  revert tagRuns. induction runs as [|run rest IH]; intros tagRuns Hsize.
  - by intros [= <-].
  - cbn [scanRuns]. destruct (run_head_branch run) as [runTag|]; [|by apply IH].
    destruct (negb (isCompletedPush run) || negb (bool_decide (runTag ∈ tags)));
      [by apply IH|].
    case_bool_decide as Hfull; [done|]. apply IH. lia.
Qed.

Lemma scanPages_stops tags tagRuns pages more result :
  size tagRuns < length tags →
  scanPages tags tagRuns pages = inr result → length tags ≤ size result →
  scanPages tags tagRuns (pages ++ more) = inr result.
Proof.
  revert tagRuns. induction pages as [|[reason|runs] rest IH]; intros tagRuns Hsize.
  - intros [= <-] Hfull. lia.
  - done.
  - cbn [scanPages app].
    destruct (scanRuns tags tagRuns runs) as [tagRuns' stop] eqn:Hscan.
    destruct stop; [done|]. apply IH. by eapply scanRuns_not_stopped.
Qed.

(** X22. The helper stops asking for pages as soon as it has a run for
    every tag: a poll that returns for a non-empty list of tags returns
    the same whatever pages follow the ones it looked at, even pages
    whose request would be rejected. *)
Theorem pollTagRuns_ignores_the_pages_after_the_last_tag
    (tags : list string) (pages more : list (Reason + list WorkflowRun))
    (runs : list (option WorkflowRun)) :
  tags ≠ [] →
  pollTagRuns tags pages = inr (Some runs) →
  pollTagRuns tags (pages ++ more) = inr (Some runs).
Proof.
  intros Hne. unfold pollTagRuns.
  destruct (scanPages tags ∅ pages) as [reason|tagRuns] eqn:Hscan; [done|].
  case_bool_decide as Hsize; [done|]. intros [= <-].
  rewrite (scanPages_stops tags ∅ pages more tagRuns); [| |done|lia].
  - by rewrite bool_decide_eq_false_2.
  - rewrite map_size_empty. destruct tags; [done|simpl; lia].
Qed.

Lemma pollsAgain_continues tag poll later :
  pollsAgain tag poll →
  waitForCompletedTagWorkflowRun tag (poll :: later)
  = waitForCompletedTagWorkflowRun tag later.
Proof.
  destruct poll as [[|run runs]|status reason]; cbn.
  - done.
  - intros Hno. destruct (isCompletedPush run) eqn:Hpush; cbn [negb orb]; [|done].
    rewrite bool_decide_eq_false_2; [done|]. intros Htag. apply Hno.
    apply isCompletedPush_true in Hpush as [? ?]. done.
  - intros ->. by rewrite bool_decide_eq_true_2.
Qed.

(** X23. The helper that waits for the run of one tag looks at the first
    run of each listing only. It returns the first such run that is a
    completed push run of the tag, polls again after a listing without
    runs, a first run that is something else, and an error of status 404,
    and throws the first error of another status; it is still waiting
    exactly when every poll so far made it poll again. *)
Theorem waitForCompletedTagWorkflowRun_returns_the_first_match
    (tag : string) (polls : list Listing) :
  (∀ run, waitForCompletedTagWorkflowRun tag polls = inr (Some run) →
     completedPushOf tag run
     ∧ ∃ before runs after,
         polls = before ++ Listed (run :: runs) :: after
         ∧ Forall (pollsAgain tag) before)
  ∧ (∀ reason, waitForCompletedTagWorkflowRun tag polls = inl reason →
       ∃ before status after,
         polls = before ++ ListingFailed status reason :: after
         ∧ status ≠ Some 404%Z ∧ Forall (pollsAgain tag) before)
  ∧ (waitForCompletedTagWorkflowRun tag polls = inr None
     ↔ Forall (pollsAgain tag) polls).
Proof.
  induction polls as [|poll later (IHrun & IHthrow & IHwait)].
  { split_and!; [done|done|]. split; [by constructor|done]. }
  assert (pollsAgain tag poll ∨
          (∃ run runs, poll = Listed (run :: runs) ∧ completedPushOf tag run)
          ∨ (∃ status reason, poll = ListingFailed status reason ∧ status ≠ Some 404%Z))
    as [Hagain|[(run & runs & -> & Hmatch)|(status & reason & -> & Hstatus)]].
  { destruct poll as [[|run runs]|status reason]; cbn.
    - by left.
    - destruct (isCompletedPush run) eqn:Hpush.
      + destruct (decide (run_head_branch run = Some tag)) as [Htag|Htag].
        * right. left. exists run, runs. split; [done|].
          apply isCompletedPush_true in Hpush as [? ?]. done.
        * left. by intros (_ & _ & ?).
      + left. intros (He & Hs & _).
        assert (isCompletedPush run = true) by (by apply isCompletedPush_true).
        congruence.
    - destruct (decide (status = Some 404%Z)); [by left|].
      right. right. by exists status, reason. }
  - rewrite (pollsAgain_continues _ _ _ Hagain). split_and!.
    + intros run Hrun. destruct (IHrun run Hrun) as (Hm & before & runs & after & -> & Hb).
      split; [done|]. exists (poll :: before), runs, after. split; [done|by constructor].
    + intros reason Hthrow.
      destruct (IHthrow reason Hthrow) as (before & status & after & -> & Hs & Hb).
      exists (poll :: before), status, after. split_and!; [done|done|by constructor].
    + rewrite IHwait. split; [by constructor|]. by intros [_ ?]%Forall_cons.
  - assert (waitForCompletedTagWorkflowRun tag (Listed (run :: runs) :: later)
            = inr (Some run)) as ->.
    { destruct Hmatch as (He & Hs & Htag). cbn.
      assert (isCompletedPush run = true) as -> by (by apply isCompletedPush_true).
      by rewrite bool_decide_eq_true_2. }
    split_and!.
    + intros run' [= <-]. split; [done|]. by exists [], runs, later.
    + done.
    + split; [done|]. intros [Hno _]%Forall_cons. by destruct Hno.
  - assert (waitForCompletedTagWorkflowRun tag (ListingFailed status reason :: later)
            = inl reason) as ->.
    { cbn. by rewrite bool_decide_eq_false_2. }
    split_and!.
    + done.
    + intros reason' [= <-]. by exists [], status, later.
    + split; [done|]. intros [Hno _]%Forall_cons. by destruct Hstatus.
Qed.

Lemma scanRuns_no_prototype_key tags tagRuns runs :
  tagRuns !! "__proto__" = None →
  fst (scanRuns tags tagRuns runs) !! "__proto__" = None.
Proof.
  revert tagRuns. induction runs as [|run rest IH]; intros tagRuns Hnone; [done|].
  cbn [scanRuns]. destruct (run_head_branch run) as [runTag|]; [|by apply IH].
  destruct (negb (isCompletedPush run) || negb (bool_decide (runTag ∈ tags)));
    [by apply IH|].
  assert (assignRun runTag run tagRuns !! "__proto__" = None) as Hnone'.
  { unfold assignRun. destruct (String.eqb runTag "__proto__") eqn:Hkey; [done|].
    apply String.eqb_neq in Hkey. by rewrite lookup_insert_ne. }
  case_bool_decide; [done|by apply IH].
Qed.

Lemma scanPages_no_prototype_key tags tagRuns pages result :
  tagRuns !! "__proto__" = None →
  scanPages tags tagRuns pages = inr result → result !! "__proto__" = None.
Proof.
  revert tagRuns. induction pages as [|[reason|runs] rest IH]; intros tagRuns Hnone.
  - by intros [= <-].
  - done.
  - cbn [scanPages].
    pose proof (scanRuns_no_prototype_key tags tagRuns runs Hnone) as Hnone'.
    destruct (scanRuns tags tagRuns runs) as [tagRuns' stop]. cbn [fst] in Hnone'.
    destruct stop; [by intros [= <-]|]. by apply IH.
Qed.

(** X24. With the tag [__proto__] among the tags the helper never
    returns either: assigning a run to that key of a plain object adds no
    own key, so the table never has as many keys as there are tags,
    whatever the host answers and for however many polls. *)
Theorem waitForCompletedTagWorkflowRuns_never_returns_for_the_prototype_key
    (tags : list string) (polls : list (list (Reason + list WorkflowRun))) :
  "__proto__" ∈ tags →
  ∀ runs, waitForCompletedTagWorkflowRuns tags polls ≠ inr (Some runs).
Proof.
  intros Hkey runs. induction polls as [|pages later IH]; [done|].
  cbn [waitForCompletedTagWorkflowRuns].
  destruct (pollTagRuns tags pages) as [reason|[found|]] eqn:Hpoll; [done| |done].
  exfalso. clear IH. revert Hpoll. unfold pollTagRuns.
  destruct (scanPages tags ∅ pages) as [reason|tagRuns] eqn:Hscan; [done|].
  case_bool_decide as Hsize; [done|]. intros _.
  assert (tableOk (λ _, True) tags tagRuns) as Hok.
  { eapply scanPages_ok; [|by intros tag run; rewrite lookup_empty|exact Hscan].
    intros page _. by apply Forall_forall. }
  destruct (full_table tags tagRuns) as [_ Hall]; [|lia|].
  { intros tag [run Hrun]. by apply Hok in Hrun as [? _]. }
  destruct (Hall _ Hkey) as [run Hrun].
  rewrite (scanPages_no_prototype_key tags ∅ pages tagRuns) in Hrun; [done| |done].
  apply lookup_empty.
Qed.

End WorkflowRuns.

(** * The further statements on the small platforms *)

Lemma pass_verdict_iff_no_error_logged_witness :
  ∃ ok reported,
    snd (fst (@modifyReleaseAssets demo demoArgs [2; 0; 1] 0%Z)) = inr (ok, reported)
    ∧ (ok = true
       ↔ ∀ reason,
           ErrorLog reason ∉ fst (fst (@modifyReleaseAssets demo demoArgs [2; 0; 1] 0%Z))).
Proof.
  exact (@pass_verdict_iff_no_error_logged demo demoArgs [2; 0; 1] 0%Z
           demoNotes demoDesired eq_refl).
Defined.

Lemma pass_accounts_for_every_desired_asset_witness :
  length demoReported + length (omap loggedError (fst (fst demoPass)))
  = length demoDesired.
Proof.
  exact (@pass_accounts_for_every_desired_asset demo demoArgs [2; 0; 1] 0%Z
           demoNotes demoDesired true demoReported eq_refl eq_refl).
Defined.

Lemma pass_deletes_only_replaced_assets_witness :
  "eloquent" = owner demoArgs ∧ "github-release-action" = repo demoArgs
  ∧ ∃ existing desired,
      existing ∈ release_assets demoArgs ∧ desired ∈ demoDesired
      ∧ 7%Z = assetId existing ∧ assetName existing = desired_name desired.
Proof.
  refine (@pass_deletes_only_replaced_assets demo demoArgs [2; 0; 1] 0%Z
            demoNotes demoDesired "eloquent" "github-release-action" 7%Z eq_refl _).
  apply list_elem_of_In. vm_compute.
  repeat (first [left; reflexivity | right]).
Defined.

Lemma pass_uploads_only_desired_assets_witness :
  (∀ req, InvokeRequest req ∈ fst (fst (@modifyReleaseAssets demo demoArgs [2; 0; 1] 0%Z)) →
     req_url req = release_upload_url demoArgs
     ∧ ∃ desired, desired ∈ demoDesired
         ∧ req_name req = desired_name desired
         ∧ req_label req = desired_label desired
         ∧ req_content_type req = @mimeLookup demo (desired_path desired))
  ∧ (∀ path, InvokeReadFile path ∈ fst (fst (@modifyReleaseAssets demo demoArgs [2; 0; 1] 0%Z)) →
       ∃ desired, desired ∈ demoDesired ∧ path = desired_path desired).
Proof.
  exact (@pass_uploads_only_desired_assets demo demoArgs [2; 0; 1] 0%Z
           demoNotes demoDesired eq_refl).
Defined.

Lemma pass_starts_every_operation_up_front_witness :
  ∃ rest,
    fst (fst (@modifyReleaseAssets demo demoArgs [2; 0; 1] 0%Z))
    = demoNotes
      ++ [GroupStart "Modifying release assets";
          Info (MsgDiffCounts
                  (length (toUpload (diffAssets (release_assets demoArgs) demoDesired)))
                  (length (toUpdate (diffAssets (release_assets demoArgs) demoDesired))))]
      ++ @firstCalls demoArgs (diffAssets (release_assets demoArgs) demoDesired) ++ rest
    ∧ Forall notADelete rest.
Proof.
  refine (@pass_starts_every_operation_up_front demo demoArgs [2; 0; 1] 0%Z
            demoNotes demoDesired eq_refl (or_introl _)).
  intros Hnil. discriminate Hnil.
Defined.

Lemma reported_assets_were_uploaded_witness :
  ∃ name,
    Info (MsgUploaded name (default (demoRemote 0 EmptyString) (head demoReported)))
    ∈ fst (fst demoPass).
Proof.
  refine (@reported_assets_were_uploaded demo demoArgs [2; 0; 1] 0%Z
            (fst (fst demoPass)) true demoReported (snd demoPass) eq_refl _ _).
  apply list_elem_of_In. vm_compute.
  repeat (first [left; reflexivity | right]).
Defined.

Lemma findAssets_returns_matched_files_witness :
  ∃ asset, asset ∈ config_assets demoArgs
    ∧ "b.1.json" ∈ @globGenerator demo (cfg_path asset)
    ∧ @isDirectory demo "b.1.json" = false
    ∧ ("b.1.json" = @basename demo "b.1.json" ∨ cfg_name asset = Some "b.1.json").
Proof.
  refine (@findAssets_returns_matched_files demo (config_assets demoArgs)
            demoNotes demoDesired eq_refl
            (mkDesiredAsset EmptyString "b.1.json" "b.1.json") _).
  right. left.
Defined.

Lemma pass_replaces_each_asset_once_witness :
  NoDup (desired_name <$> demoDesired)
  ∧ NoDup (desired_name <$> toUpload (diffAssets (release_assets demoArgs) demoDesired))
  ∧ NoDup (assetName
             <$> (fst <$> toUpdate (diffAssets (release_assets demoArgs) demoDesired)))
  ∧ NoDup (fst <$> toUpdate (diffAssets (release_assets demoArgs) demoDesired)).
Proof.
  exact (@pass_replaces_each_asset_once demo (config_assets demoArgs)
           (release_assets demoArgs) demoNotes demoDesired eq_refl).
Defined.

Lemma readConfig_appends_input_assets_witness :
  ∃ effective,
    snd (@readConfig demoText demoConfigPlatform demoInput (FileContent "config"))
    = inr effective
    ∧ conf_assets effective
      = conf_assets demoBase ++ [mkAssetConfig "b.*.json" None None true].
Proof.
  exact (@readConfig_appends_input_assets demoText demoConfigPlatform demoInput
           (FileContent "config") true (Some "config") demoBase
           [mkAssetConfig "b.*.json" None None true] eq_refl eq_refl eq_refl).
Defined.

Lemma readConfig_reads_flags_by_exact_true_witness :
  ∃ base,
    flagOverlaid (conf_draft base) (demoInput "draft") (conf_draft demoEffective)
    ∧ flagOverlaid (conf_generateReleaseNotes base) (demoInput "generateReleaseNotes")
        (conf_generateReleaseNotes demoEffective)
    ∧ flagOverlaid (conf_prerelease base) (demoInput "prerelease")
        (conf_prerelease demoEffective)
    ∧ flagOverlaid (summary_enabled (conf_summary base)) (demoInput "summaryEnabled")
        (summary_enabled (conf_summary demoEffective))
    ∧ ∃ hasYaml yaml,
        @readConfigFile demoText (FileContent "config") = inr (hasYaml, yaml)
        ∧ @parseConfig demoConfigPlatform hasYaml yaml = inr base.
Proof.
  exact (@readConfig_reads_flags_by_exact_true demoText demoConfigPlatform demoInput
           (FileContent "config") demoEffective eq_refl).
Defined.

Lemma readConfig_overlays_discussion_key_by_key_witness :
  ∃ base,
    (demoInput "discussionCategory" = EmptyString →
       discussion_category (conf_discussion demoEffective)
       = discussion_category (conf_discussion base))
    ∧ (demoInput "discussionCategory" ≠ EmptyString →
       discussion_category (conf_discussion demoEffective)
       = Some (demoInput "discussionCategory"))
    ∧ listOverlaid (discussion_reactions (conf_discussion base))
        (demoInput "discussionReactions")
        (discussion_reactions (conf_discussion demoEffective))
    ∧ listOverlaid (conf_reactions base) (demoInput "reactions")
        (conf_reactions demoEffective)
    ∧ ∃ hasYaml yaml,
        @readConfigFile demoText (FileContent "config") = inr (hasYaml, yaml)
        ∧ @parseConfig demoConfigPlatform hasYaml yaml = inr base.
Proof.
  exact (@readConfig_overlays_discussion_key_by_key demoText demoConfigPlatform
           demoInput (FileContent "config") demoEffective eq_refl).
Defined.

Lemma readConfig_without_inputs_is_the_file_witness :
  @readConfig demoText demoConfigPlatform (λ _, EmptyString) FileAbsent
  = ([ConfigGroupStart "Reading release configuration";
      ConfigInfo MsgNoConfiguration;
      ConfigInfo (MsgEffectiveConfiguration demoBase); ConfigGroupEnd],
     inr demoBase).
Proof.
  exact (@readConfig_without_inputs_is_the_file demoText demoConfigPlatform
           (λ _, EmptyString) FileAbsent false None demoBase
           (λ _, eq_refl) eq_refl eq_refl).
Defined.

Lemma readConfig_blank_file_is_absent_file_witness :
  @readConfig demoText demoConfigPlatform demoInput (FileContent EmptyString)
  = @readConfig demoText demoConfigPlatform demoInput FileAbsent.
Proof.
  exact (proj1 (@readConfig_blank_file_is_absent_file demoText demoConfigPlatform
                  demoInput EmptyString eq_refl)).
Defined.

Lemma waitForCompletedTagWorkflowRuns_returns_the_runs_of_the_tags_witness :
  Forall2 (λ tag r, ∃ run, r = Some run ∧ completedPushOf tag run ∧ True)
    ["v1"; "v2"]
    [Some (demoRun 3 "v1" "completed"); Some (demoRun 1 "v2" "completed")].
Proof.
  refine (waitForCompletedTagWorkflowRuns_returns_the_runs_of_the_tags
            (λ _, True) ["v1"; "v2"] [[]; demoPages]
            [Some (demoRun 3 "v1" "completed"); Some (demoRun 1 "v2" "completed")]
            _ eq_refl).
  intros pages page _ _. apply Forall_forall. intros run _. exact I.
Defined.

Lemma waitForCompletedTagWorkflowRuns_never_returns_for_repeated_tags_witness :
  waitForCompletedTagWorkflowRuns ["v1"; "v1"] [demoPages; demoPages]
  ≠ inr (Some [Some (demoRun 3 "v1" "completed"); Some (demoRun 3 "v1" "completed")]).
Proof.
  refine (waitForCompletedTagWorkflowRuns_never_returns_for_repeated_tags
            ["v1"; "v1"] [demoPages; demoPages] _ _).
  intros Hnd. apply NoDup_cons in Hnd as [Hin _]. apply Hin. left.
Defined.

Lemma pollTagRuns_ignores_the_pages_after_the_last_tag_witness :
  pollTagRuns ["v1"; "v2"] (demoPages ++ [inl "HTTP 502"])
  = inr (Some [Some (demoRun 3 "v1" "completed"); Some (demoRun 1 "v2" "completed")]).
Proof.
  refine (pollTagRuns_ignores_the_pages_after_the_last_tag ["v1"; "v2"] demoPages
            [inl "HTTP 502"]
            [Some (demoRun 3 "v1" "completed"); Some (demoRun 1 "v2" "completed")]
            _ eq_refl).
  intros Hnil. discriminate Hnil.
Defined.

Lemma waitForCompletedTagWorkflowRuns_never_returns_for_the_prototype_key_witness :
  waitForCompletedTagWorkflowRuns ["v1"; "__proto__"]
    [[inr [demoRun 1 "__proto__" "completed"; demoRun 2 "v1" "completed"]]]
  ≠ inr (Some [Some (demoRun 2 "v1" "completed");
               Some (demoRun 1 "__proto__" "completed")]).
Proof.
  refine (waitForCompletedTagWorkflowRuns_never_returns_for_the_prototype_key
            ["v1"; "__proto__"]
            [[inr [demoRun 1 "__proto__" "completed"; demoRun 2 "v1" "completed"]]]
            _ _).
  right. left.
Defined.
